(** * epic-snake: the WebSocket game server (wsserver/index.ts)

    A shallow embedding of the server module: the session store, the
    kinematics step, the food and snake collision passes, the round state
    machine, the announcement bus and the socket/timer event handlers,
    followed by the properties established about them.

    Modelling conventions.
    - JavaScript numbers used as coordinates are kept abstract behind the
      [Number] interface; it is instantiated with IEEE binary64
      ([PrimFloat], what the program runs on) and with the real numbers
      (what the geometric wording of the specification refers to).
      Counters (kills, score, growth, round number) are natural numbers and
      timestamps are integers (milliseconds).
    - [players] is a JavaScript [Map]: an association list in insertion
      order, since iteration order is observable.
    - [Math.random()] and [crypto.randomUUID()] are oracles indexed by the
      number of calls made so far; [Date.now()] is the time at which the
      running handler was entered.
    - [ws.send] appends to an outbox; [setTimeout] appends to a list of
      pending timers. *)

From Stdlib Require Import ZArith List Bool Arith Lia String Ascii.
From Stdlib Require Import PrimFloat Uint63.
From Stdlib Require Import DecimalString DecimalNat.
From Stdlib Require Import Permutation Sorted.
From Stdlib Require Import Reals Lra.
Import ListNotations.

Set Implicit Arguments.
Local Open Scope string_scope.
Local Open Scope list_scope.
Local Open Scope Z_scope.

(** ** Numbers *)

Class Number (num : Type) : Type := {
  fromZ : Z -> num;
  nadd  : num -> num -> num;
  nsub  : num -> num -> num;
  nmul  : num -> num -> num;
  ndiv  : num -> num -> num;
  nsqrt : num -> num;
  nltb  : num -> num -> bool
}.

Declare Scope num_scope.
Delimit Scope num_scope with num.
Infix "+" := nadd : num_scope.
Infix "-" := nsub : num_scope.
Infix "*" := nmul : num_scope.
Infix "/" := ndiv : num_scope.
Infix "<?" := nltb : num_scope.
Notation "x >? y" := (nltb y x) : num_scope.

(** IEEE 754 binary64, the JavaScript number type. *)
Definition float_of_Z (z : Z) : float :=
  if Z.ltb z 0 then PrimFloat.opp (PrimFloat.of_uint63 (Uint63.of_Z (- z)))
  else PrimFloat.of_uint63 (Uint63.of_Z z).

#[export] Instance float_Number : Number float := {|
  fromZ := float_of_Z;
  nadd  := PrimFloat.add;
  nsub  := PrimFloat.sub;
  nmul  := PrimFloat.mul;
  ndiv  := PrimFloat.div;
  nsqrt := PrimFloat.sqrt;
  nltb  := PrimFloat.ltb
|}.



(** ** Data model (the interfaces of index.ts) *)

Section DataModel.
Context {num : Type}.

Record Position := mkPosition { x : num; y : num }.

Record SnakeSegment := mkSegment { position : Position }.

Record PlayerState := mkPlayer {
    id : string;
    segments : list SnakeSegment;
    rotation : num;
    alive : bool;
    lastUpdate : Z;
    kills : nat;
    score : nat;
    growth : nat
  }.

Record GameState := mkGame {
    roundNumber : nat;
    food : list Position;
    winner : option string;
    serverTime : Z;
    roundEndTime : option Z;
    isActive : bool;
    waitingForPlayers : bool;
    gameOver : bool;
    lastAnnouncementTime : Z
  }.

Inductive MessageType := TyMovement | TyForceStart | TyOther.

Record MovementMessage := mkMovement {
    mtype : MessageType;
    mposition : option Position;
    mrotation : option num
  }.

  (** What [JSON.parse(message.toString())] makes of a frame: a syntax error,
      the value [null] (whose property reads throw), or a value whose
      [type], [position] and [rotation] properties can be read. *)
Inductive Inbound :=
  | Unparsable
  | JsonNull
  | JsonData (data : MovementMessage).

Inductive Severity := SevInfo | SevWarning | SevSuccess | SevError.

Record Announcement := mkAnnouncement {
    amessage : string;
    atype : Severity;
    duration : Z
  }.

Record LeaderboardEntry := mkEntry {
    lid : string;
    lkills : nat;
    lscore : nat
  }.

  (** One element of the [players] array of a [playerStates] frame. *)
Record PlayerView := mkView {
    vid : string;
    vsegments : list SnakeSegment;
    vrotation : num;
    valive : bool;
    vkills : nat;
    vscore : nat
  }.

Record RoundInfo := mkRoundInfo {
    riRoundNumber : nat;
    riWinner : option string;
    riServerTime : Z;
    riEndTime : option Z;
    riIsActive : bool;
    riWaitingForPlayers : bool;
    riPlayersNeeded : nat
  }.

  (** Outbound frames, one constructor per [type] discriminator, with the
      properties the object literal at the send site has. *)
Inductive Message :=
  | MConnected (pid : string) (round : nat) (time : Z) (waiting : bool) (needed : nat)
  | MWaitingForPlayers (needed : nat) (time : Z)
  | MAnnouncement (a : Announcement)
  | MNewRound (round : nat) (time : Z) (active : bool) (anns : list Announcement)
  | MPlayerStates (ps : list PlayerView) (fd : list Position) (ri : RoundInfo)
                  (anns : list Announcement)
  | MDied (reason : string) (killedBy : option string)
  | MKill (kkills : option nat) (kscore : option nat) (kgrowth : option nat)
          (kvictim : option string)
  | MLastAlive (text : string) (time : Z)
  | MAllDead (text : string) (time : Z) (endTime : option Z)
  | MGameOver (win : string) (round : nat) (board : list LeaderboardEntry)
              (time : Z) (endTime : option Z)
  | MFoodEaten (fscore : nat) (fgrowth : nat) (effect : string)
  | MError (text : string).
End DataModel.

Arguments Position : clear implicits.
Arguments SnakeSegment : clear implicits.
Arguments PlayerState : clear implicits.
Arguments GameState : clear implicits.
Arguments MovementMessage : clear implicits.
Arguments Inbound : clear implicits.
Arguments PlayerView : clear implicits.
Arguments Message : clear implicits.

(** ** Server state *)

(** A connection handle ([ServerWebSocket]); only its identity matters. *)
Definition Conn := nat.

(** The callbacks the module hands to [setTimeout]. *)
Inductive Callback :=
| CbCheckGameStatus      (* [() => checkGameStatus()], 100 ms *)
| CbStartNewRound        (* [startNewRound], 3000 ms *)
| CbGameOverReset.       (* the closure of checkGameStatus, 5000 ms *)

Record Timer := mkTimer { due : Z; callback : Callback }.

Inductive Output (num : Type) :=
| Send (ws : Conn) (m : Message num)
| Close (ws : Conn).

Arguments Send {num} ws m.
Arguments Close {num} ws.

Record Server (num : Type) := mkServer {
  players : list (Conn * PlayerState num);
  gameState : GameState num;
  recentAnnouncements : list Announcement;
  timers : list Timer;
  outbox : list (Output num);
  randomCalls : nat;
  uuidCalls : nat
}.

Section Setters.
Context {num : Type}.
#[local] Abbreviation PlayerState := (PlayerState num).
#[local] Abbreviation GameState := (GameState num).
#[local] Abbreviation Server := (Server num).

Definition setSegments (v : list (SnakeSegment num)) (p : PlayerState) : PlayerState :=
    mkPlayer (id p) v (rotation p) (alive p) (lastUpdate p) (kills p) (score p) (growth p).
Definition setRotation (v : num) (p : PlayerState) : PlayerState :=
    mkPlayer (id p) (segments p) v (alive p) (lastUpdate p) (kills p) (score p) (growth p).
Definition setAlive (v : bool) (p : PlayerState) : PlayerState :=
    mkPlayer (id p) (segments p) (rotation p) v (lastUpdate p) (kills p) (score p) (growth p).
Definition setLastUpdate (v : Z) (p : PlayerState) : PlayerState :=
    mkPlayer (id p) (segments p) (rotation p) (alive p) v (kills p) (score p) (growth p).
Definition setKills (v : nat) (p : PlayerState) : PlayerState :=
    mkPlayer (id p) (segments p) (rotation p) (alive p) (lastUpdate p) v (score p) (growth p).
Definition setScore (v : nat) (p : PlayerState) : PlayerState :=
    mkPlayer (id p) (segments p) (rotation p) (alive p) (lastUpdate p) (kills p) v (growth p).
Definition setGrowth (v : nat) (p : PlayerState) : PlayerState :=
    mkPlayer (id p) (segments p) (rotation p) (alive p) (lastUpdate p) (kills p) (score p) v.

Definition setRoundNumber (v : nat) (g : GameState) : GameState :=
    mkGame v (food g) (winner g) (serverTime g) (roundEndTime g) (isActive g)
           (waitingForPlayers g) (gameOver g) (lastAnnouncementTime g).
Definition setFood (v : list (Position num)) (g : GameState) : GameState :=
    mkGame (roundNumber g) v (winner g) (serverTime g) (roundEndTime g) (isActive g)
           (waitingForPlayers g) (gameOver g) (lastAnnouncementTime g).
Definition setWinner (v : option string) (g : GameState) : GameState :=
    mkGame (roundNumber g) (food g) v (serverTime g) (roundEndTime g) (isActive g)
           (waitingForPlayers g) (gameOver g) (lastAnnouncementTime g).
Definition setServerTime (v : Z) (g : GameState) : GameState :=
    mkGame (roundNumber g) (food g) (winner g) v (roundEndTime g) (isActive g)
           (waitingForPlayers g) (gameOver g) (lastAnnouncementTime g).
Definition setRoundEndTime (v : option Z) (g : GameState) : GameState :=
    mkGame (roundNumber g) (food g) (winner g) (serverTime g) v (isActive g)
           (waitingForPlayers g) (gameOver g) (lastAnnouncementTime g).
Definition setIsActive (v : bool) (g : GameState) : GameState :=
    mkGame (roundNumber g) (food g) (winner g) (serverTime g) (roundEndTime g) v
           (waitingForPlayers g) (gameOver g) (lastAnnouncementTime g).
Definition setWaitingForPlayers (v : bool) (g : GameState) : GameState :=
    mkGame (roundNumber g) (food g) (winner g) (serverTime g) (roundEndTime g) (isActive g)
           v (gameOver g) (lastAnnouncementTime g).
Definition setGameOver (v : bool) (g : GameState) : GameState :=
    mkGame (roundNumber g) (food g) (winner g) (serverTime g) (roundEndTime g) (isActive g)
           (waitingForPlayers g) v (lastAnnouncementTime g).
Definition setLastAnnouncementTime (v : Z) (g : GameState) : GameState :=
    mkGame (roundNumber g) (food g) (winner g) (serverTime g) (roundEndTime g) (isActive g)
           (waitingForPlayers g) (gameOver g) v.

Definition setPlayers (v : list (Conn * PlayerState)) (s : Server) : Server :=
    mkServer v (gameState s) (recentAnnouncements s) (timers s) (outbox s)
             (randomCalls s) (uuidCalls s).
Definition withGame (f : GameState -> GameState) (s : Server) : Server :=
    mkServer (players s) (f (gameState s)) (recentAnnouncements s) (timers s) (outbox s)
             (randomCalls s) (uuidCalls s).
Definition setRecentAnnouncements (v : list Announcement) (s : Server) : Server :=
    mkServer (players s) (gameState s) v (timers s) (outbox s)
             (randomCalls s) (uuidCalls s).
Definition setTimers (v : list Timer) (s : Server) : Server :=
    mkServer (players s) (gameState s) (recentAnnouncements s) v (outbox s)
             (randomCalls s) (uuidCalls s).
Definition setOutbox (v : list (Output num)) (s : Server) : Server :=
    mkServer (players s) (gameState s) (recentAnnouncements s) (timers s) v
             (randomCalls s) (uuidCalls s).
Definition setRandomCalls (v : nat) (s : Server) : Server :=
    mkServer (players s) (gameState s) (recentAnnouncements s) (timers s) (outbox s)
             v (uuidCalls s).
Definition setUuidCalls (v : nat) (s : Server) : Server :=
    mkServer (players s) (gameState s) (recentAnnouncements s) (timers s) (outbox s)
             (randomCalls s) v.

  (** *** The [players] map *)

Fixpoint lookup (ws : Conn) (m : list (Conn * PlayerState)) : option PlayerState :=
    match m with
    | [] => None
    | (k, p) :: rest => if Nat.eqb k ws then Some p else lookup ws rest
    end.

  (** [Map.prototype.set]: an existing key keeps its place, a new one goes last. *)
Fixpoint mapSet (ws : Conn) (v : PlayerState) (m : list (Conn * PlayerState))
    : list (Conn * PlayerState) :=
    match m with
    | [] => [(ws, v)]
    | (k, p) :: rest => if Nat.eqb k ws then (k, v) :: rest else (k, p) :: mapSet ws v rest
    end.

Definition mapDelete (ws : Conn) (m : list (Conn * PlayerState))
    : list (Conn * PlayerState) :=
    filter (fun e => negb (Nat.eqb (fst e) ws)) m.

  (** Mutation of the object stored under [ws]. *)
Fixpoint mapUpdate (ws : Conn) (f : PlayerState -> PlayerState)
           (m : list (Conn * PlayerState)) : list (Conn * PlayerState) :=
    match m with
    | [] => []
    | (k, p) :: rest => if Nat.eqb k ws then (k, f p) :: rest else (k, p) :: mapUpdate ws f rest
    end.

Definition size (s : Server) : nat := List.length (players s).
Definition getPlayer (ws : Conn) (s : Server) : option PlayerState := lookup ws (players s).
Definition updatePlayer (ws : Conn) (f : PlayerState -> PlayerState) (s : Server) : Server :=
    setPlayers (mapUpdate ws f (players s)) s.

  (** *** Effects *)

Definition send (ws : Conn) (m : Message num) (s : Server) : Server :=
    setOutbox (outbox s ++ [Send ws m]) s.

Definition closeSocket (ws : Conn) (s : Server) : Server :=
    setOutbox (outbox s ++ [Close ws]) s.

  (** [players.forEach((_, ws) => ws.send(JSON.stringify(m)))] *)
Definition sendAll (m : Message num) (s : Server) : Server :=
    setOutbox (outbox s ++ map (fun e => Send (fst e) m) (players s)) s.

Definition setTimeout (cb : Callback) (delay : Z) (now : Z) (s : Server) : Server :=
    setTimers (timers s ++ [mkTimer (now + delay) cb]) s.
End Setters.

(** ** The program *)

Section Program.
Context {num : Type} {N : Number num}.

(** [Math.random()] and [crypto.randomUUID()]: the value of the n-th call. *)
Variable rand : nat -> num.
Variable randomUUID : nat -> string.

#[local] Abbreviation Position := (Position num).
#[local] Abbreviation SnakeSegment := (SnakeSegment num).
#[local] Abbreviation PlayerState := (PlayerState num).
#[local] Abbreviation GameState := (GameState num).
#[local] Abbreviation Message := (Message num).
#[local] Abbreviation Server := (Server num).

Local Open Scope num_scope.

Definition SEGMENT_RADIUS : num := fromZ 10.
Definition COLLISION_DISTANCE : num := SEGMENT_RADIUS * fromZ 2.
Definition SEGMENT_DISTANCE : num := SEGMENT_RADIUS * fromZ 2.
Definition FOOD_COUNT : nat := 100.
Definition FOOD_RADIUS : num := fromZ 5.
Definition FOOD_SCORE_VALUE : nat := 1.
Definition FOOD_SEGMENTS_GROWTH : nat := 2.
Definition KILL_SEGMENTS_GROWTH : nat := 5.
Definition WINNING_KILLS : nat := 10.
Definition MIN_PLAYERS_TO_START : nat := 2.
Definition MAP_WIDTH : num := fromZ 2400.
Definition MAP_HEIGHT : num := fromZ 1800.
Definition INITIAL_SPAWN_AREA_WIDTH : num := fromZ 800.
Definition INITIAL_SPAWN_AREA_HEIGHT : num := fromZ 600.
Definition INACTIVE_TIMEOUT_MS : Z := 30000.

(** The literals [1.2] and [0.5]. *)
Definition lit_1_2 : num := fromZ 12 / fromZ 10.
Definition lit_0_5 : num := fromZ 5 / fromZ 10.

(** [n.toString()] inside a template literal. *)
Definition showNat (n : nat) : string := NilEmpty.string_of_uint (Nat.to_uint n).

(** [id.substring(0, 8)] *)
Definition shortName (s : string) : string := String.substring 0 8 s.

(** [Math.sqrt(Math.pow(a.x - b.x, 2) + Math.pow(a.y - b.y, 2))] *)
Definition distance (a b : Position) : num :=
  nsqrt ((x a - x b) * (x a - x b) + (y a - y b) * (y a - y b)).

Definition random (s : Server) : num * Server :=
  (rand (randomCalls s), setRandomCalls (S (randomCalls s)) s).

(** The object literal of a spawn position: [x] is drawn before [y]. *)
Definition spawnPosition (s : Server) : Position * Server :=
  let (rx, s1) := random s in
  let (ry, s2) := random s1 in
  (mkPosition
     ((MAP_WIDTH - INITIAL_SPAWN_AREA_WIDTH) / fromZ 2 + rx * INITIAL_SPAWN_AREA_WIDTH)
     ((MAP_HEIGHT - INITIAL_SPAWN_AREA_HEIGHT) / fromZ 2 + ry * INITIAL_SPAWN_AREA_HEIGHT),
   s2).

Definition freshFood (s : Server) : Position * Server :=
  let (rx, s1) := random s in
  let (ry, s2) := random s1 in
  (mkPosition (rx * MAP_WIDTH) (ry * MAP_HEIGHT), s2).

Fixpoint generateFood (count : nat) (s : Server) : list Position * Server :=
  match count with
  | O => ([], s)
  | S n =>
      let (f, s1) := freshFood s in
      let (rest, s2) := generateFood n s1 in
      (f :: rest, s2)
  end.

(** *** Announcement bus *)

Definition broadcastAnnouncement (text : string) (ty : Severity) (dur : Z)
           (now : Z) (s : Server) : Server :=
  let announcement := mkAnnouncement text ty dur in
  let pushed := recentAnnouncements s ++ [announcement] in
  let kept := if (1 <? List.length pushed)%nat then tl pushed else pushed in
  let s := setRecentAnnouncements kept s in
  let s := withGame (setLastAnnouncementTime now) s in
  sendAll (MAnnouncement announcement) s.

(** *** Snapshot broadcast *)

Definition viewOf (p : PlayerState) : PlayerView num :=
  mkView (id p) (segments p) (rotation p) (alive p) (kills p) (score p).

Definition playersNeeded (s : Server) : nat :=
  if waitingForPlayers (gameState s) then (MIN_PLAYERS_TO_START - size s)%nat else O.

Definition broadcastPlayerStates (now : Z) (s : Server) : Server :=
  if (size s =? 0)%nat then s else
  let s := withGame (setServerTime now) s in
  let s :=
    if negb (Z.eqb (lastAnnouncementTime (gameState s)) 0)
       && Z.ltb 3000 (now - lastAnnouncementTime (gameState s))
    then setRecentAnnouncements [] s else s in
  let playerStates := map (fun e => viewOf (snd e)) (players s) in
  let aliveCount := List.length (filter (fun v => valive v) playerStates) in
  let s :=
    if (aliveCount =? 0)%nat && isActive (gameState s)
       && (0 <? List.length playerStates)%nat
    then setTimeout CbCheckGameStatus 100 now s else s in
  let g := gameState s in
  sendAll
    (MPlayerStates playerStates (food g)
       (mkRoundInfo (roundNumber g) (winner g) (serverTime g) (roundEndTime g)
          (isActive g) (waitingForPlayers g) (playersNeeded s))
       (recentAnnouncements s))
    s.

(** *** Round state machine *)

(** The body of the [forEach] of the game-over branch of [startNewRound]. *)
Definition resetPlayer (pos : Position) (now : Z) (p : PlayerState) : PlayerState :=
  setGrowth O (setLastUpdate now (setAlive true (setRotation (fromZ 0)
    (setSegments [mkSegment pos] p)))).

(** The body of the [forEach] of the respawn branch: growth is kept. *)
Definition respawnPlayer (pos : Position) (now : Z) (p : PlayerState) : PlayerState :=
  setLastUpdate now (setAlive true (setRotation (fromZ 0)
    (setSegments [mkSegment pos] p))).

Fixpoint resetAll (now : Z) (ps : list (Conn * PlayerState)) (s : Server)
  : list (Conn * PlayerState) * Server :=
  match ps with
  | [] => ([], s)
  | (ws, p) :: rest =>
      let (pos, s1) := spawnPosition s in
      let (rest', s2) := resetAll now rest s1 in
      ((ws, resetPlayer pos now p) :: rest', s2)
  end.

Fixpoint respawnDead (now : Z) (ps : list (Conn * PlayerState)) (s : Server)
  : list (Conn * PlayerState) * Server :=
  match ps with
  | [] => ([], s)
  | (ws, p) :: rest =>
      if alive p then
        let (rest', s1) := respawnDead now rest s in
        ((ws, p) :: rest', s1)
      else
        let (pos, s1) := spawnPosition s in
        let (rest', s2) := respawnDead now rest s1 in
        ((ws, respawnPlayer pos now p) :: rest', s2)
  end.

Definition startNewRound (now : Z) (s : Server) : Server :=
  if (size s <? MIN_PLAYERS_TO_START)%nat then
    let s := withGame (fun g =>
               setRoundEndTime None (setIsActive false (setWaitingForPlayers true g))) s in
    let s := sendAll (MWaitingForPlayers (MIN_PLAYERS_TO_START - size s)%nat
                        (serverTime (gameState s))) s in
    broadcastAnnouncement "Waiting for players..." SevInfo 2000 now s
  else
    let s := withGame (fun g =>
               setRoundEndTime None (setWinner None (setIsActive true g))) s in
    let s :=
      if gameOver (gameState s) then
        let s := withGame (fun g =>
                   setGameOver false (setRoundNumber (S (roundNumber g)) g)) s in
        let (fd, s) := generateFood FOOD_COUNT s in
        let s := withGame (setFood fd) s in
        let (ps, s) := resetAll now (players s) s in
        setPlayers ps s
      else
        let (ps, s) := respawnDead now (players s) s in
        setPlayers ps s in
    let s := sendAll (MNewRound (roundNumber (gameState s)) (serverTime (gameState s))
                        true (recentAnnouncements s)) s in
    let s := broadcastAnnouncement
               ("Round " ++ showNat (roundNumber (gameState s)) ++ " started!")%string
               SevSuccess 2000 now s in
    broadcastPlayerStates now s.

(** [Array.prototype.sort((a, b) => b.kills - a.kills)]: stable, descending. *)
Fixpoint insertByKills (e : LeaderboardEntry) (l : list LeaderboardEntry)
  : list LeaderboardEntry :=
  match l with
  | [] => [e]
  | h :: t => if (lkills h <=? lkills e)%nat then e :: h :: t else h :: insertByKills e t
  end.

Definition sortByKills (l : list LeaderboardEntry) : list LeaderboardEntry :=
  fold_right insertByKills [] l.

Definition leaderboardOf (s : Server) : list LeaderboardEntry :=
  sortByKills (map (fun e => mkEntry (id (snd e)) (kills (snd e)) (score (snd e)))
                   (players s)).

(** The branch of [checkGameStatus] taken when a session has the winning
    kill count. *)
Definition declareWinner (w : PlayerState) (now : Z) (s : Server) : Server :=
  let s := withGame (fun g =>
             setIsActive false
               (setRoundEndTime (Some (serverTime g + 5000)%Z) (setWinner (Some (id w)) g))) s in
  let g := gameState s in
  let s := sendAll (MGameOver (id w) (roundNumber g) (leaderboardOf s) (serverTime g)
                      (roundEndTime g)) s in
  let s := setRecentAnnouncements [] s in
  let s := broadcastAnnouncement (shortName (id w) ++ " wins!")%string SevSuccess 2000 now s in
  setTimeout CbGameOverReset 5000 now s.

Definition checkGameStatus (now : Z) (s : Server) : Server :=
  let g := gameState s in
  if negb (isActive g && negb (waitingForPlayers g))
     && (size s <? MIN_PLAYERS_TO_START)%nat then
    let s := withGame (fun g => setIsActive false (setWaitingForPlayers true g)) s in
    sendAll (MWaitingForPlayers (MIN_PLAYERS_TO_START - size s)%nat
               (serverTime (gameState s))) s
  else if waitingForPlayers g && (MIN_PLAYERS_TO_START <=? size s)%nat then
    startNewRound now s
  else if negb (isActive g) then s
  else
    match find (fun e => (WINNING_KILLS <=? kills (snd e))%nat) (players s) with
    | Some (_, w) => declareWinner w now s
    | None =>
        let alivePlayers := filter (fun e => alive (snd e)) (players s) in
        match alivePlayers with
        | [(winnerWs, w)] =>
            if (1 <? size s)%nat then
              let s := send winnerWs
                         (MLastAlive "You are the last snake alive! You win this round!"
                            (serverTime g)) s in
              let s := broadcastAnnouncement
                         (shortName (id w) ++ " is last alive!")%string SevWarning 2000 now s in
              if (0 <? size s - 1)%nat then setTimeout CbStartNewRound 3000 now s else s
            else s
        | [] =>
            if (0 <? size s)%nat then
              let s := withGame (fun g =>
                         setIsActive false (setRoundEndTime (Some (serverTime g + 3000)%Z) g)) s in
              let g := gameState s in
              let s := sendAll (MAllDead "All players died! Respawning..."
                                  (serverTime g) (roundEndTime g)) s in
              let s := broadcastAnnouncement "All snakes died!" SevError 2000 now s in
              setTimeout CbStartNewRound 3000 now s
            else s
        | _ => s
        end
    end.

(** The closure scheduled by [declareWinner]. *)
Definition gameOverReset (now : Z) (s : Server) : Server :=
  let s := setPlayers
             (map (fun e => (fst e, setScore O (setKills O (snd e)))) (players s)) s in
  let s := withGame (fun g => setGameOver true (setWaitingForPlayers true g)) s in
  startNewRound now s.

Definition runCallback (cb : Callback) (now : Z) (s : Server) : Server :=
  match cb with
  | CbCheckGameStatus => checkGameStatus now s
  | CbStartNewRound => startNewRound now s
  | CbGameOverReset => gameOverReset now s
  end.

(** *** Kinematics *)

(** The growth block of [updateSnakeSegments]. *)
Definition applyGrowth (p : PlayerState) : PlayerState :=
  if (0 <? growth p)%nat && (0 <? List.length (segments p))%nat then
    match nth_error (segments p) (List.length (segments p) - 1) with
    | Some lastSegment =>
        let copy := mkPosition (x (position lastSegment)) (y (position lastSegment)) in
        setGrowth (growth p - 1)%nat (setSegments (segments p ++ [mkSegment copy]) p)
    | None => p
    end
  else p.

(** One iteration of the re-chaining loop: segment [cur] follows [prev]. *)
Definition follow (prev cur : SnakeSegment) : SnakeSegment :=
  let dx := x (position prev) - x (position cur) in
  let dy := y (position prev) - y (position cur) in
  let dist := nsqrt (dx * dx + dy * dy) in
  if dist >? SEGMENT_DISTANCE * lit_1_2 then
    let targetDistance := SEGMENT_DISTANCE in
    let ratio := targetDistance / dist in
    let newX := x (position prev) - dx * ratio in
    let newY := y (position prev) - dy * ratio in
    mkSegment (mkPosition (x (position cur) * lit_0_5 + newX * lit_0_5)
                          (y (position cur) * lit_0_5 + newY * lit_0_5))
  else cur.

(** The loop over [i = 1 .. length - 1]; [prev] is [segments[i - 1]] as the
    previous iteration left it. *)
Fixpoint rechain (prev : SnakeSegment) (rest : list SnakeSegment) : list SnakeSegment :=
  match rest with
  | [] => []
  | cur :: rest' => let cur' := follow prev cur in cur' :: rechain cur' rest'
  end.

Definition updateSegmentPositions (segs : list SnakeSegment) : list SnakeSegment :=
  match segs with
  | [] => []
  | headSegment :: rest => headSegment :: rechain headSegment rest
  end.

Definition updateSnakeSegments (p : PlayerState) : PlayerState :=
  let p := applyGrowth p in
  setSegments (updateSegmentPositions (segments p)) p.

(** *** Food collisions *)

Definition nearFood (head f : Position) : bool :=
  distance head f <? SEGMENT_RADIUS + FOOD_RADIUS.

(** [array.splice(i, 1)] *)
Definition removeAt {A : Type} (i : nat) (l : list A) : list A :=
  firstn i l ++ skipn (S i) l.

(** The body of the [if] of the food loop: food item [i] is eaten by the
    session stored under [ws]. *)
Definition eatFood (ws : Conn) (i : nat) (now : Z) (s : Server) : Server :=
  let s := withGame (fun g => setFood (removeAt i (food g)) g) s in
  let s := updatePlayer ws (fun p =>
             setGrowth (growth p + FOOD_SEGMENTS_GROWTH)%nat
               (setScore (score p + FOOD_SCORE_VALUE)%nat p)) s in
  let (f, s) := freshFood s in
  let s := withGame (fun g => setFood (food g ++ [f]) g) s in
  match getPlayer ws s with
  | None => s
  | Some player =>
      let totalLength := (List.length (segments player) + growth player)%nat in
      let playerName := shortName (id player) in
      let s :=
        if ((score player mod 50 =? 0) && (0 <? score player) && (50 <=? score player))%nat
        then broadcastAnnouncement
               (playerName ++ ": " ++ showNat (score player) ++ " points!")%string
               SevSuccess 2000 now s
        else s in
      let s :=
        if (totalLength =? 50)%nat then
          broadcastAnnouncement (playerName ++ ": 50 segments!")%string SevSuccess 2000 now s
        else if (totalLength =? 100)%nat then
          broadcastAnnouncement (playerName ++ ": 100 segments!")%string SevSuccess 2000 now s
        else s in
      match find (fun e => String.eqb (id (snd e)) (id player)) (players s) with
      | Some (w, _) =>
          send w (MFoodEaten (score player)
                    (List.length (segments player) + growth player)%nat "grow") s
      | None => s
      end
  end.

(** The loop [for (i = food.length - 1; i >= 0; i--)], entered with
    [n = i + 1]. *)
Fixpoint foodLoop (head : Position) (ws : Conn) (now : Z) (n : nat) (s : Server) : Server :=
  match n with
  | O => s
  | S i =>
      let s :=
        match nth_error (food (gameState s)) i with
        | Some f => if nearFood head f then eatFood ws i now s else s
        | None => s
        end in
      foodLoop head ws now i s
  end.

Definition checkFoodCollisions (ws : Conn) (now : Z) (s : Server) : Server :=
  match getPlayer ws s with
  | None => s
  | Some player =>
      if negb (alive player) then s else
      match segments player with
      | [] => s
      | headSegment :: _ =>
          foodLoop (position headSegment) ws now (List.length (food (gameState s))) s
      end
  end.

(** *** Snake collisions *)

(** Head-to-head: both sessions die, nobody scores. *)
Definition headCollision (curWs wsA : Conn) (now : Z) (s : Server) : Server :=
  let s := updatePlayer curWs (setAlive false) s in
  let s := updatePlayer wsA (setAlive false) s in
  let s := send curWs (MDied "Head collision" None) s in
  let s := send wsA (MDied "Head collision" None) s in
  match getPlayer wsA s, getPlayer curWs s with
  | Some playerA, Some currentPlayer =>
      broadcastAnnouncement
        (shortName (id playerA) ++ " & " ++ shortName (id currentPlayer) ++ " collided!")%string
        SevError 2000 now s
  | _, _ => s
  end.

(** The body of the [if] of the first tail loop: the mover ran into a tail
    segment of [playerA]. *)
Definition moverKilled (curWs wsA : Conn) (now : Z) (s : Server) : Server :=
  let s := updatePlayer curWs (setAlive false) s in
  let s := updatePlayer wsA (fun p =>
             setGrowth (growth p + KILL_SEGMENTS_GROWTH)%nat
               (setScore (score p + 5)%nat (setKills (S (kills p)) p))) s in
  match getPlayer wsA s, getPlayer curWs s with
  | Some playerA, Some currentPlayer =>
      let killerName := shortName (id playerA) in
      let killedName := shortName (id currentPlayer) in
      let s := broadcastAnnouncement
                 (killerName ++ " killed " ++ killedName ++ "!")%string SevWarning 2000 now s in
      let s :=
        if (kills playerA =? 5)%nat then
          broadcastAnnouncement (killerName ++ ": 5 kills!")%string SevWarning 2000 now s
        else if (kills playerA =? WINNING_KILLS - 1)%nat then
          broadcastAnnouncement (killerName ++ " needs 1 more kill!")%string SevError 2000 now s
        else s in
      let s := send curWs
                 (MDied "Collided with another snake's tail" (Some (id playerA))) s in
      send wsA (MKill (Some (kills playerA)) (Some (score playerA))
                  (Some KILL_SEGMENTS_GROWTH) (Some (id currentPlayer))) s
  | _, _ => s
  end.

(** The body of the [if] of the second tail loop: the head of [playerA] ran
    into a tail segment of the mover. *)
Definition otherKilled (curWs wsA : Conn) (s : Server) : Server :=
  let s := updatePlayer wsA (setAlive false) s in
  let s := updatePlayer curWs (fun p =>
             setGrowth (growth p + KILL_SEGMENTS_GROWTH)%nat
               (setScore (score p + 1)%nat (setKills (S (kills p)) p))) s in
  match getPlayer wsA s, getPlayer curWs s with
  | Some playerA, Some currentPlayer =>
      let s := send wsA
                 (MDied "Collided with another snake's tail" (Some (id currentPlayer))) s in
      send curWs (MKill (Some (kills currentPlayer)) (Some (score currentPlayer))
                    None (Some (id playerA))) s
  | _, _ => s
  end.

(** [for (k = 1; k < playerA.segments.length; k++)] with its [break]:
    [tailA] holds the segments of index [k] and above. *)
Fixpoint headHitsTail (headCurrent : Position) (tailA : list SnakeSegment)
         (curWs wsA : Conn) (now : Z) (s : Server) : Server :=
  match tailA with
  | [] => s
  | segmentA :: rest =>
      if distance headCurrent (position segmentA) <? COLLISION_DISTANCE
      then moverKilled curWs wsA now s
      else headHitsTail headCurrent rest curWs wsA now s
  end.

(** [for (k = 1; k < currentPlayer.segments.length; k++)] with its [break]. *)
Fixpoint tailHitByHead (headA : Position) (tailCurrent : list SnakeSegment)
         (curWs wsA : Conn) (s : Server) : Server :=
  match tailCurrent with
  | [] => s
  | segmentCurrent :: rest =>
      if distance headA (position segmentCurrent) <? COLLISION_DISTANCE
      then otherKilled curWs wsA s
      else tailHitByHead headA rest curWs wsA s
  end.

(** The body of the loop over [playerEntries]. *)
Definition collideWith (curWs : Conn) (now : Z) (wsA : Conn) (s : Server) : Server :=
  match getPlayer wsA s, getPlayer curWs s with
  | Some playerA, Some currentPlayer =>
      if negb (Nat.eqb wsA curWs) && alive playerA
         && (0 <? List.length (segments playerA))%nat then
        match segments currentPlayer, segments playerA with
        | headSegment :: tailCurrent, headSegmentA :: tailA =>
            let headA := position headSegmentA in
            let headCurrent := position headSegment in
            if distance headCurrent headA <? COLLISION_DISTANCE then
              headCollision curWs wsA now s
            else
              let s := headHitsTail headCurrent tailA curWs wsA now s in
              tailHitByHead headA tailCurrent curWs wsA s
        | _, _ => s
        end
      else s
  | _, _ => s
  end.

(** [playerEntries] is a snapshot of the entries; the objects it holds are
    the ones in the map, so each iteration reads the current records. *)
Definition checkCollisions (curWs : Conn) (now : Z) (s : Server) : Server :=
  fold_left (fun s e => collideWith curWs now (fst e) s) (players s) s.

(** *** Socket handlers and the periodic tick *)

Definition isStale (limit now : Z) (e : Conn * PlayerState) : bool :=
  Z.ltb limit (now - lastUpdate (snd e)).

(** The reaping loops: every stale entry is deleted and its socket closed,
    in map order. *)
Definition reap (limit now : Z) (s : Server) : Server :=
  let stale := filter (isStale limit now) (players s) in
  let s := setPlayers (filter (fun e => negb (isStale limit now e)) (players s)) s in
  setOutbox (outbox s ++ map (fun e => Close (fst e)) stale) s.

Definition ws_open (ws : Conn) (now : Z) (s : Server) : Server :=
  let playerId := randomUUID (uuidCalls s) in
  let s := setUuidCalls (S (uuidCalls s)) s in
  let (initialPosition, s) := spawnPosition s in
  let s := reap 30000 now s in
  let s := setPlayers
             (mapSet ws (mkPlayer playerId [mkSegment initialPosition] (fromZ 0) true now
                           O O O) (players s)) s in
  let g := gameState s in
  let s := send ws (MConnected playerId (roundNumber g) (serverTime g)
                      (waitingForPlayers g) (playersNeeded s)) s in
  let s := broadcastPlayerStates now s in
  if waitingForPlayers (gameState s) && (MIN_PLAYERS_TO_START <=? size s)%nat then
    startNewRound now (withGame (setWaitingForPlayers false) s)
  else s.

(** The movement branch of the message handler. *)
Definition handleMovement (ws : Conn) (pos : Position) (rot : option num)
           (now : Z) (s : Server) : Server :=
  let s := updatePlayer ws (setLastUpdate now) s in
  let s := updatePlayer ws (fun p =>
             match segments p with
             | _ :: rest => setSegments (mkSegment pos :: rest) p
             | [] => p
             end) s in
  let s := match rot with
           | Some r => updatePlayer ws (setRotation r) s
           | None => s
           end in
  let s := updatePlayer ws updateSnakeSegments s in
  let s := checkFoodCollisions ws now s in
  let s := checkCollisions ws now s in
  let s := checkGameStatus now s in
  broadcastPlayerStates now s.

Definition invalidFormat (ws : Conn) (s : Server) : Server :=
  send ws (MError "Invalid message format") s.

Definition ws_message (ws : Conn) (frame : Inbound num) (now : Z) (s : Server) : Server :=
  match frame with
  | Unparsable => invalidFormat ws s
  | _ =>
      let player := getPlayer ws s in
      if negb (isActive (gameState s))
         && (match player with Some _ => true | None => false end)
         && (MIN_PLAYERS_TO_START <=? size s)%nat then
        let s := withGame (fun g => setIsActive true (setWaitingForPlayers false g)) s in
        let s := broadcastAnnouncement "Game starting!" SevSuccess 2000 now s in
        startNewRound now s
      else
        match player with
        | None => s
        | Some player =>
            if negb (isActive (gameState s)) then
              if (MIN_PLAYERS_TO_START <=? size s)%nat then
                let s := broadcastAnnouncement "Starting game!" SevSuccess 2000 now s in
                startNewRound now s
              else s
            else if negb (alive player) then s
            else
              match frame with
              | JsonData data =>
                  match mtype data with
                  | TyForceStart =>
                      let s := withGame (fun g =>
                                 setIsActive true (setWaitingForPlayers false g)) s in
                      let s := broadcastAnnouncement "Game force-started!" SevWarning 2000
                                 now s in
                      startNewRound now s
                  | TyMovement =>
                      match mposition data with
                      | Some pos => handleMovement ws pos (mrotation data) now s
                      | None => s
                      end
                  | TyOther => s
                  end
              | _ => invalidFormat ws s
              end
        end
  end.

Definition ws_close (ws : Conn) (now : Z) (s : Server) : Server :=
  let s := setPlayers (mapDelete ws (players s)) s in
  let s := broadcastPlayerStates now s in
  setTimeout CbCheckGameStatus 100 now s.

(** The [setInterval] callback. *)
Definition tick (now : Z) (s : Server) : Server :=
  let s := withGame (setServerTime now) s in
  let g := gameState s in
  let s :=
    if waitingForPlayers g && negb (isActive g) && (MIN_PLAYERS_TO_START <=? size s)%nat
    then startNewRound now (withGame (setWaitingForPlayers false) s)
    else s in
  let inactivePlayers := List.length (filter (isStale INACTIVE_TIMEOUT_MS now) (players s)) in
  let s := reap INACTIVE_TIMEOUT_MS now s in
  if (0 <? inactivePlayers)%nat then
    checkGameStatus now (broadcastPlayerStates now s)
  else s.

(** *** Events *)

Inductive Event :=
| EvOpen (ws : Conn)
| EvMessage (ws : Conn) (frame : Inbound num)
| EvClose (ws : Conn)
| EvTick
| EvTimer (k : nat).       (* the k-th pending timer fires *)

Definition handle (now : Z) (e : Event) (s : Server) : Server :=
  match e with
  | EvOpen ws => ws_open ws now s
  | EvMessage ws frame => ws_message ws frame now s
  | EvClose ws => ws_close ws now s
  | EvTick => tick now s
  | EvTimer k =>
      match nth_error (timers s) k with
      | Some t => runCallback (callback t) now (setTimers (removeAt k (timers s)) s)
      | None => s
      end
  end.

(** Module initialisation at time [t0]. *)
Definition initial (t0 : Z) : Server :=
  let g := mkGame 1 [] None t0 None false true false t0 in
  let s := mkServer [] g [] [] [] 0 0 in
  let (fd, s) := generateFood FOOD_COUNT s in
  withGame (setFood fd) s.

(** States the server can be in: after initialisation and any sequence of
    events, each at any time. *)
Inductive reachable : Server -> Prop :=
| reach_initial : forall t0, reachable (initial t0)
| reach_handle : forall s now e, reachable s -> reachable (handle now e s).

End Program.

Arguments random : simpl never.
Arguments spawnPosition : simpl never.
Arguments freshFood : simpl never.
Arguments broadcastAnnouncement : simpl never.
Arguments broadcastPlayerStates : simpl never.
Arguments startNewRound : simpl never.
Arguments declareWinner : simpl never.
Arguments checkGameStatus : simpl never.
Arguments gameOverReset : simpl never.
Arguments applyGrowth : simpl never.
Arguments follow : simpl never.
Arguments updateSnakeSegments : simpl never.
Arguments eatFood : simpl never.
Arguments checkFoodCollisions : simpl never.
Arguments headCollision : simpl never.
Arguments moverKilled : simpl never.
Arguments otherKilled : simpl never.
Arguments collideWith : simpl never.
Arguments checkCollisions : simpl never.
Arguments reap : simpl never.
Arguments handleMovement : simpl never.
Arguments ws_open : simpl never.
Arguments ws_message : simpl never.
Arguments ws_close : simpl never.
Arguments tick : simpl never.

(** ** The event loop

    [handle] lets any event happen at any time. The runtime is more
    disciplined: a timer fires when it is due, the interval callback fires
    every second, and both fire before input that arrives later. [simulate]
    runs a list of timestamped inputs under that discipline; it is used to
    exhibit executions, while properties of all executions are stated over
    [reachable]. *)

Section EventLoop.
Context {num : Type} {N : Number num}.
Variable rand : nat -> num.
Variable randomUUID : nat -> string.

Inductive Input :=
| InOpen (ws : Conn)
| InMessage (ws : Conn) (frame : Inbound num)
| InClose (ws : Conn).

Definition eventOf (i : Input) : Event (num := num) :=
  match i with
  | InOpen ws => EvOpen ws
  | InMessage ws frame => EvMessage ws frame
  | InClose ws => EvClose ws
  end.

Record Loop := mkLoop { world : Server num; nextTick : Z }.

Definition boot (t0 : Z) : Loop := mkLoop (initial rand t0) (t0 + 1000).

(** Index and due time of the pending timer that fires next: the earliest
    one, the first registered among equals. *)
Fixpoint earliestFrom (k : nat) (ts : list Timer) : option (nat * Z) :=
  match ts with
  | [] => None
  | t :: rest =>
      match earliestFrom (S k) rest with
      | Some (k', d') => if d' <? due t then Some (k', d') else Some (k, due t)
      | None => Some (k, due t)
      end
  end.

Definition step (now : Z) (e : Event) (l : Loop) : Loop :=
  mkLoop (handle rand randomUUID now e (world l)) (nextTick l).

(** Fire everything due at or before [t], in due order. *)
Fixpoint runUntil (fuel : nat) (t : Z) (l : Loop) : option Loop :=
  match fuel with
  | O => None
  | S fuel' =>
      let tickNow :=
        if nextTick l <=? t
        then runUntil fuel' t
               (mkLoop (handle rand randomUUID (nextTick l) EvTick (world l))
                       (nextTick l + 1000))
        else Some l in
      match earliestFrom 0 (timers (world l)) with
      | Some (k, d) =>
          if (d <=? t) && (d <=? nextTick l)
          then runUntil fuel' t (step d (EvTimer k) l)
          else tickNow
      | None => tickNow
      end
  end.

Definition deliver (fuel : nat) (l : Loop) (ti : Z * Input) : option Loop :=
  match runUntil fuel (fst ti) l with
  | Some l' => Some (step (fst ti) (eventOf (snd ti)) l')
  | None => None
  end.

Fixpoint simulate (fuel : nat) (inputs : list (Z * Input)) (l : Loop) : option Loop :=
  match inputs with
  | [] => Some l
  | ti :: rest =>
      match deliver fuel l ti with
      | Some l' => simulate fuel rest l'
      | None => None
      end
  end.

End EventLoop.

(** * Properties *)

(** ** The [players] map *)

Section MapFacts.
Context {num : Type}.
Implicit Types (m : list (Conn * PlayerState num)) (ws : Conn).

Lemma lookup_mapUpdate_same ws f m :
  lookup ws (mapUpdate ws f m) = option_map f (lookup ws m).
Proof.
  induction m as [|[k p] rest IH]; simpl; [reflexivity|].
  destruct (Nat.eqb k ws) eqn:E; simpl; rewrite E; auto.
Qed.

Lemma lookup_mapUpdate_other ws ws' f m :
  ws' <> ws -> lookup ws' (mapUpdate ws f m) = lookup ws' m.
Proof.
  intros Hne. induction m as [|[k p] rest IH]; simpl; [reflexivity|].
  destruct (Nat.eqb k ws) eqn:E; simpl.
  - apply Nat.eqb_eq in E. subst k.
    destruct (Nat.eqb ws ws') eqn:E'; [apply Nat.eqb_eq in E'; congruence | reflexivity].
  - destruct (Nat.eqb k ws'); auto.
Qed.

Lemma lookup_In ws p m : lookup ws m = Some p -> In (ws, p) m.
Proof.
  induction m as [|[k q] rest IH]; simpl; [discriminate|].
  destruct (Nat.eqb k ws) eqn:E.
  - apply Nat.eqb_eq in E. intros [= ->]. subst. now left.
  - intros H. right. auto.
Qed.

Lemma In_lookup ws p m :
  NoDup (map fst m) -> In (ws, p) m -> lookup ws m = Some p.
Proof.
  induction m as [|[k q] rest IH]; simpl; [tauto|].
  intros Hnd [Heq | Hin].
  - injection Heq as -> ->. now rewrite Nat.eqb_refl.
  - inversion Hnd as [|? ? Hnotin Hnd']; subst.
    destruct (Nat.eqb k ws) eqn:E.
    + apply Nat.eqb_eq in E. subst k. exfalso. apply Hnotin.
      apply in_map_iff. now exists (ws, p).
    + auto.
Qed.

Lemma lookup_None_notin ws m : lookup ws m = None -> ~ In ws (map fst m).
Proof.
  induction m as [|[k q] rest IH]; simpl; [tauto|].
  destruct (Nat.eqb k ws) eqn:E; [discriminate|].
  apply Nat.eqb_neq in E. intros H [Hk | Hin]; [congruence | now apply IH].
Qed.

Lemma mapUpdate_keys ws f m : map fst (mapUpdate ws f m) = map fst m.
Proof.
  induction m as [|[k p] rest IH]; simpl; [reflexivity|].
  destruct (Nat.eqb k ws); simpl; congruence.
Qed.

Lemma mapUpdate_length ws f m : List.length (mapUpdate ws f m) = List.length m.
Proof.
  rewrite <- (length_map fst), mapUpdate_keys. apply length_map.
Qed.

Lemma mapUpdate_absent ws f m : lookup ws m = None -> mapUpdate ws f m = m.
Proof.
  induction m as [|[k p] rest IH]; simpl; [reflexivity|].
  destruct (Nat.eqb k ws); [discriminate|]. intros H. now rewrite IH.
Qed.

(** Two rosters with the same connections and ids, entry by entry, in which
    no entry lost its last segment. *)
Definition sameEntry (e e' : Conn * PlayerState num) : Prop :=
  fst e = fst e' /\ id (snd e) = id (snd e')
  /\ (segments (snd e) <> [] -> segments (snd e') <> []).

Definition sameRoster m m' : Prop := Forall2 sameEntry m m'.

Lemma sameRoster_refl m : sameRoster m m.
Proof. induction m; constructor; auto. repeat split; auto. Qed.

Lemma sameRoster_trans m1 m2 m3 :
  sameRoster m1 m2 -> sameRoster m2 m3 -> sameRoster m1 m3.
Proof.
  intros H. revert m3. induction H as [|e1 e2 l1 l2 He H IH]; intros m3 H3.
  - inversion H3. constructor.
  - inversion H3 as [|? e3 ? l3 He' H']; subst. constructor; [|now apply IH].
    destruct He as (a & b & c), He' as (a' & b' & c').
    repeat split; [congruence | congruence | auto].
Qed.

Lemma sameRoster_keys m m' : sameRoster m m' -> map fst m = map fst m'.
Proof. induction 1 as [|e e' l l' (a & _) _ IH]; simpl; congruence. Qed.

Lemma sameRoster_ids m m' :
  sameRoster m m' -> map (fun e => id (snd e)) m = map (fun e => id (snd e)) m'.
Proof. induction 1 as [|e e' l l' (_ & b & _) _ IH]; simpl; congruence. Qed.

Lemma sameRoster_length m m' : sameRoster m m' -> List.length m = List.length m'.
Proof. intros H. rewrite <- (length_map fst m), (sameRoster_keys H). apply length_map. Qed.

Lemma sameRoster_mapUpdate ws f m :
  (forall p, id (f p) = id p /\ (segments p <> [] -> segments (f p) <> [])) ->
  sameRoster m (mapUpdate ws f m).
Proof.
  intros Hf. induction m as [|[k p] rest IH]; simpl; [constructor|].
  destruct (Nat.eqb k ws).
  - constructor; [|apply sameRoster_refl]. destruct (Hf p). repeat split; simpl; auto.
  - constructor; [|exact IH]. repeat split; auto.
Qed.

Lemma sameRoster_map (f : PlayerState num -> PlayerState num) m :
  (forall p, id (f p) = id p /\ (segments p <> [] -> segments (f p) <> [])) ->
  sameRoster m (map (fun e => (fst e, f (snd e))) m).
Proof.
  intros Hf. induction m as [|[k p] rest IH]; simpl; constructor; auto.
  destruct (Hf p). repeat split; simpl; auto.
Qed.

End MapFacts.

(** ** What the operations leave in place

    [keeps s0 s]: from [s0] to [s] no session was added or removed, no id
    changed, no session lost its last segment, and no id was generated. *)

Section Keeps.
Context {num : Type} {N : Number num}.
Variable rand : nat -> num.
Variable randomUUID : nat -> string.
Implicit Types (s : Server num) (ws : Conn) (now : Z).

Definition keeps s0 s : Prop :=
  sameRoster (players s0) (players s) /\ uuidCalls s = uuidCalls s0.

Lemma keeps_refl s : keeps s s.
Proof. split; [apply sameRoster_refl | reflexivity]. Qed.

Lemma keeps_trans s0 s1 s2 : keeps s0 s1 -> keeps s1 s2 -> keeps s0 s2.
Proof.
  intros [a b] [c d]. split; [eapply sameRoster_trans; eauto | congruence].
Qed.

Lemma keeps_same s0 s s' :
  players s' = players s -> uuidCalls s' = uuidCalls s -> keeps s0 s -> keeps s0 s'.
Proof. intros Hp Hu [a b]. split; [now rewrite Hp | congruence]. Qed.

Lemma keeps_size s0 s : keeps s0 s -> size s = size s0.
Proof. intros [a _]. unfold size. symmetry. now apply sameRoster_length. Qed.

Lemma keeps_updatePlayer s0 s ws f :
  (forall p, id (f p) = id p /\ (segments p <> [] -> segments (f p) <> [])) ->
  keeps s0 s -> keeps s0 (updatePlayer ws f s).
Proof.
  intros Hf H. eapply keeps_trans; [exact H|].
  split; [simpl; now apply sameRoster_mapUpdate | reflexivity].
Qed.

Lemma keeps_send s0 s ws m : keeps s0 s -> keeps s0 (send ws m s).
Proof. now apply keeps_same. Qed.

Lemma keeps_sendAll s0 s m : keeps s0 s -> keeps s0 (sendAll m s).
Proof. now apply keeps_same. Qed.

Lemma keeps_setTimeout s0 s cb d now : keeps s0 s -> keeps s0 (setTimeout cb d now s).
Proof. now apply keeps_same. Qed.

Lemma keeps_withGame s0 s f : keeps s0 s -> keeps s0 (withGame f s).
Proof. now apply keeps_same. Qed.

Lemma keeps_setRecentAnnouncements s0 s v :
  keeps s0 s -> keeps s0 (setRecentAnnouncements v s).
Proof. now apply keeps_same. Qed.

Lemma keeps_setTimers s0 s v : keeps s0 s -> keeps s0 (setTimers v s).
Proof. now apply keeps_same. Qed.

Lemma keeps_broadcastAnnouncement s0 s text ty dur now :
  keeps s0 s -> keeps s0 (broadcastAnnouncement text ty dur now s).
Proof. now apply keeps_same. Qed.

Lemma keeps_broadcastPlayerStates s0 s now :
  keeps s0 s -> keeps s0 (broadcastPlayerStates now s).
Proof.
  intros H. unfold broadcastPlayerStates.
  destruct (size s =? 0)%nat; [exact H|].
  apply keeps_sendAll.
  match goal with |- context [if ?c then setTimeout _ _ _ ?a else ?b] =>
    destruct c end;
  [apply keeps_setTimeout|];
  match goal with |- context [if ?c then _ else _] => destruct c end;
  try apply keeps_setRecentAnnouncements; now apply keeps_withGame.
Qed.

Lemma random_players s : players (snd (random rand s)) = players s.
Proof. reflexivity. Qed.

Lemma spawnPosition_frame s :
  let s' := snd (spawnPosition rand s) in
  players s' = players s /\ uuidCalls s' = uuidCalls s /\ gameState s' = gameState s
  /\ outbox s' = outbox s /\ timers s' = timers s
  /\ recentAnnouncements s' = recentAnnouncements s.
Proof. unfold spawnPosition, random. simpl. repeat split. Qed.

Lemma freshFood_frame s :
  let s' := snd (freshFood rand s) in
  players s' = players s /\ uuidCalls s' = uuidCalls s /\ gameState s' = gameState s
  /\ outbox s' = outbox s /\ timers s' = timers s
  /\ recentAnnouncements s' = recentAnnouncements s.
Proof. unfold freshFood, random. simpl. repeat split. Qed.

Lemma generateFood_frame n s :
  let s' := snd (generateFood rand n s) in
  players s' = players s /\ uuidCalls s' = uuidCalls s /\ gameState s' = gameState s
  /\ outbox s' = outbox s /\ timers s' = timers s
  /\ recentAnnouncements s' = recentAnnouncements s.
Proof.
  revert s. induction n as [|n IH]; intros s; cbn; [repeat split|].
  destruct (freshFood rand s) as [f s1] eqn:E1.
  destruct (generateFood rand n s1) as [rest s2] eqn:E2. simpl.
  pose proof (freshFood_frame s) as H1. rewrite E1 in H1. simpl in H1.
  pose proof (IH s1) as H2. rewrite E2 in H2. simpl in H2.
  destruct H1 as (a & b & c & d & e & f'), H2 as (a' & b' & c' & d' & e' & f'').
  repeat split; congruence.
Qed.

Lemma generateFood_length n s : List.length (fst (generateFood rand n s)) = n.
Proof.
  revert s. induction n as [|n IH]; intros s; cbn; [reflexivity|].
  destruct (freshFood rand s) as [f s1].
  specialize (IH s1). destruct (generateFood rand n s1) as [rest s2]. simpl in *. congruence.
Qed.

Lemma resetAll_spec now ps s :
  let r := resetAll rand now ps s in
  sameRoster ps (fst r) /\ players (snd r) = players s /\ uuidCalls (snd r) = uuidCalls s
  /\ gameState (snd r) = gameState s /\ outbox (snd r) = outbox s
  /\ timers (snd r) = timers s /\ recentAnnouncements (snd r) = recentAnnouncements s.
Proof.
  revert s. induction ps as [|[ws p] rest IH]; intros s; cbn.
  - repeat split. constructor.
  - destruct (spawnPosition rand s) as [pos s1] eqn:E1.
    pose proof (spawnPosition_frame s) as H1. rewrite E1 in H1. simpl in H1.
    specialize (IH s1). destruct (resetAll rand now rest s1) as [rest' s2]. simpl in *.
    destruct H1 as (a & b & c & d & e & f), IH as (r & a' & b' & c' & d' & e' & f').
    repeat split; try congruence.
    constructor; [|exact r]. repeat split; simpl; auto. discriminate.
Qed.

Lemma respawnDead_spec now ps s :
  let r := respawnDead rand now ps s in
  sameRoster ps (fst r) /\ players (snd r) = players s /\ uuidCalls (snd r) = uuidCalls s
  /\ gameState (snd r) = gameState s /\ outbox (snd r) = outbox s
  /\ timers (snd r) = timers s /\ recentAnnouncements (snd r) = recentAnnouncements s.
Proof.
  revert s. induction ps as [|[ws p] rest IH]; intros s; cbn.
  - repeat split. constructor.
  - destruct (alive p).
    + specialize (IH s). destruct (respawnDead rand now rest s) as [rest' s1]. simpl in *.
      destruct IH as (r & a' & b' & c' & d' & e' & f').
      repeat split; try congruence.
      constructor; [|exact r]. repeat split; simpl; auto.
    + destruct (spawnPosition rand s) as [pos s1] eqn:E1.
      pose proof (spawnPosition_frame s) as H1. rewrite E1 in H1. simpl in H1.
      specialize (IH s1). destruct (respawnDead rand now rest s1) as [rest' s2]. simpl in *.
      destruct H1 as (a & b & c & d & e & f), IH as (r & a' & b' & c' & d' & e' & f').
      repeat split; try congruence.
      constructor; [|exact r]. repeat split; simpl; auto. discriminate.
Qed.

Ltac keeps_step :=
  lazymatch goal with
  | H : keeps ?a ?b |- keeps ?a ?b => exact H
  | |- keeps ?a ?a => apply keeps_refl
  | |- keeps _ (send _ _ _) => apply keeps_send
  | |- keeps _ (sendAll _ _) => apply keeps_sendAll
  | |- keeps _ (setTimeout _ _ _ _) => apply keeps_setTimeout
  | |- keeps _ (withGame _ _) => apply keeps_withGame
  | |- keeps _ (setRecentAnnouncements _ _) => apply keeps_setRecentAnnouncements
  | |- keeps _ (setTimers _ _) => apply keeps_setTimers
  | |- keeps _ (broadcastAnnouncement _ _ _ _ _) => apply keeps_broadcastAnnouncement
  | |- keeps _ (broadcastPlayerStates _ _) => apply keeps_broadcastPlayerStates
  end.

Ltac split_if :=
  match goal with
  | |- context [if ?c then _ else _] => destruct c eqn:?
  end.

Lemma keeps_startNewRound s0 s now :
  keeps s0 s -> keeps s0 (startNewRound rand now s).
Proof.
  intros H. unfold startNewRound.
  destruct (size s <? MIN_PLAYERS_TO_START)%nat; [repeat keeps_step|].
  repeat keeps_step. cbn [gameState withGame].
  match goal with |- context [if ?c then _ else _] => destruct c end.
  - match goal with |- context [generateFood rand ?n ?t] =>
      pose proof (generateFood_frame n t) as Hg;
      destruct (generateFood rand n t) as [fd s1] end.
    cbn in Hg. destruct Hg as (Hp & Hu & _).
    match goal with |- context [resetAll rand now ?ps ?t] =>
      pose proof (resetAll_spec now ps t) as Hr;
      destruct (resetAll rand now ps t) as [ps' s2] end.
    cbn in Hr. destruct Hr as (Hr & _ & Hu' & _).
    destruct H as [Ha Hb]. split; cbn.
    + eapply sameRoster_trans; [exact Ha|]. rewrite <- Hp. exact Hr.
    + congruence.
  - match goal with |- context [respawnDead rand now ?ps ?t] =>
      pose proof (respawnDead_spec now ps t) as Hr;
      destruct (respawnDead rand now ps t) as [ps' s2] end.
    cbn in Hr. destruct Hr as (Hr & _ & Hu' & _).
    destruct H as [Ha Hb]. split; cbn.
    + eapply sameRoster_trans; [exact Ha|]. exact Hr.
    + congruence.
Qed.

Lemma keeps_declareWinner s0 s w now :
  keeps s0 s -> keeps s0 (declareWinner w now s).
Proof. intros H. unfold declareWinner. repeat keeps_step. Qed.

Lemma keeps_checkGameStatus s0 s now :
  keeps s0 s -> keeps s0 (checkGameStatus rand now s).
Proof.
  intros H. unfold checkGameStatus.
  repeat first
    [ keeps_step
    | lazymatch goal with
      | |- keeps _ (startNewRound _ _ _) => apply keeps_startNewRound
      | |- keeps _ (declareWinner _ _ _) => apply keeps_declareWinner
      end
    | split_if
    | match goal with
      | |- context [match ?o with Some _ => _ | None => _ end] => destruct o as [[? ?]|]
      | |- context [match ?l with [] => _ | _ :: _ => _ end] => destruct l as [|[? ?] ?]
      end ].
Qed.

Lemma keeps_gameOverReset s0 s now :
  keeps s0 s -> keeps s0 (gameOverReset rand now s).
Proof.
  intros H. unfold gameOverReset. apply keeps_startNewRound. apply keeps_withGame.
  eapply keeps_trans; [exact H|]. split; [|reflexivity]. cbn.
  apply (sameRoster_map (fun p => setScore O (setKills O p))).
  intros p. split; auto.
Qed.

Lemma keeps_runCallback s0 s cb now :
  keeps s0 s -> keeps s0 (runCallback rand cb now s).
Proof.
  intros H. destruct cb; cbn.
  - now apply keeps_checkGameStatus.
  - now apply keeps_startNewRound.
  - now apply keeps_gameOverReset.
Qed.

Lemma rechain_length (prev : SnakeSegment num) rest :
  List.length (rechain prev rest) = List.length rest.
Proof. revert prev. induction rest as [|c rest IH]; intros prev; cbn; auto. Qed.

Lemma updateSegmentPositions_length (segs : list (SnakeSegment num)) :
  List.length (updateSegmentPositions segs) = List.length segs.
Proof. destruct segs; cbn; [reflexivity|]. now rewrite rechain_length. Qed.

Lemma applyGrowth_id (p : PlayerState num) : id (applyGrowth p) = id p.
Proof.
  unfold applyGrowth. destruct (_ && _); [|reflexivity].
  destruct (nth_error _ _); reflexivity.
Qed.

Lemma applyGrowth_nonempty (p : PlayerState num) :
  segments p <> [] -> segments (applyGrowth p) <> [].
Proof.
  unfold applyGrowth. intros H. destruct (_ && _); [|exact H].
  destruct (nth_error _ _); [|exact H]. cbn.
  destruct (segments p); [congruence | discriminate].
Qed.

Lemma updateSnakeSegments_keeps (p : PlayerState num) :
  id (updateSnakeSegments p) = id p
  /\ (segments p <> [] -> segments (updateSnakeSegments p) <> []).
Proof.
  unfold updateSnakeSegments. cbn. split; [apply applyGrowth_id|].
  intros H. apply applyGrowth_nonempty in H.
  destruct (segments (applyGrowth p)); [congruence | discriminate].
Qed.

Ltac keeps_update :=
  lazymatch goal with
  | |- keeps _ (updatePlayer _ _ _) =>
      apply keeps_updatePlayer; [intros ?; split; cbn; auto|]
  end.

Lemma keeps_eatFood s0 s ws i now :
  keeps s0 s -> keeps s0 (eatFood rand ws i now s).
Proof.
  intros H. unfold eatFood.
  match goal with |- context [freshFood rand ?t] =>
    pose proof (freshFood_frame t) as Hf; destruct (freshFood rand t) as [f s1] end.
  cbn in Hf. destruct Hf as (Hp & Hu & _).
  assert (keeps s0 s1) as H1.
  { destruct H as [Ha Hb]. split; [|congruence]. rewrite Hp.
    eapply sameRoster_trans; [exact Ha|]. apply sameRoster_mapUpdate.
    intros p; split; auto. }
  destruct (getPlayer ws _); [|now apply keeps_withGame].
  repeat first
    [ keeps_step
    | split_if
    | match goal with
      | |- context [match ?o with Some _ => _ | None => _ end] => destruct o as [[? ?]|]
      end ].
Qed.

Lemma keeps_foodLoop s0 s head ws now n :
  keeps s0 s -> keeps s0 (foodLoop rand head ws now n s).
Proof.
  revert s. induction n as [|n IH]; intros s H; cbn; [exact H|].
  apply IH. destruct (nth_error _ _); [|exact H].
  destruct (nearFood _ _); [now apply keeps_eatFood | exact H].
Qed.

Lemma keeps_checkFoodCollisions s0 s ws now :
  keeps s0 s -> keeps s0 (checkFoodCollisions rand ws now s).
Proof.
  intros H. unfold checkFoodCollisions.
  destruct (getPlayer ws s); [|exact H].
  destruct (negb _); [exact H|].
  destruct (segments _); [exact H|]. now apply keeps_foodLoop.
Qed.

Lemma keeps_headCollision s0 s cur a now :
  keeps s0 s -> keeps s0 (headCollision cur a now s).
Proof.
  intros H. unfold headCollision.
  destruct (getPlayer a _); [destruct (getPlayer cur _)|];
    repeat first [keeps_step | keeps_update].
Qed.

Lemma keeps_moverKilled s0 s cur a now :
  keeps s0 s -> keeps s0 (moverKilled cur a now s).
Proof.
  intros H. unfold moverKilled.
  destruct (getPlayer a _); [destruct (getPlayer cur _)|];
    repeat first [keeps_step | keeps_update | split_if].
Qed.

Lemma keeps_otherKilled s0 s cur a :
  keeps s0 s -> keeps s0 (otherKilled cur a s).
Proof.
  intros H. unfold otherKilled.
  destruct (getPlayer a _); [destruct (getPlayer cur _)|];
    repeat first [keeps_step | keeps_update].
Qed.

Lemma keeps_headHitsTail s0 s h tailA cur a now :
  keeps s0 s -> keeps s0 (headHitsTail h tailA cur a now s).
Proof.
  intros H. induction tailA as [|seg rest IH]; cbn; [exact H|].
  destruct (_ <? _)%num; [now apply keeps_moverKilled | exact IH].
Qed.

Lemma keeps_tailHitByHead s0 s h tailC cur a :
  keeps s0 s -> keeps s0 (tailHitByHead h tailC cur a s).
Proof.
  intros H. induction tailC as [|seg rest IH]; cbn; [exact H|].
  destruct (_ <? _)%num; [now apply keeps_otherKilled | exact IH].
Qed.

Lemma keeps_collideWith s0 s cur now a :
  keeps s0 s -> keeps s0 (collideWith cur now a s).
Proof.
  intros H. unfold collideWith.
  destruct (getPlayer a s); [|exact H].
  destruct (getPlayer cur s); [|exact H].
  destruct (_ && _); [|exact H].
  destruct (segments _); [exact H|].
  destruct (segments _); [exact H|].
  destruct (_ <? _)%num; [now apply keeps_headCollision|].
  apply keeps_tailHitByHead. now apply keeps_headHitsTail.
Qed.

Lemma keeps_fold_collideWith s0 s cur now (l : list (Conn * PlayerState num)) :
  keeps s0 s -> keeps s0 (fold_left (fun s e => collideWith cur now (fst e) s) l s).
Proof.
  revert s. induction l as [|e l IH]; intros s H; cbn; [exact H|].
  apply IH. now apply keeps_collideWith.
Qed.

Lemma keeps_checkCollisions s0 s cur now :
  keeps s0 s -> keeps s0 (checkCollisions cur now s).
Proof. intros H. unfold checkCollisions. now apply keeps_fold_collideWith. Qed.

Lemma keeps_handleMovement s0 s ws pos rot now :
  keeps s0 s -> keeps s0 (handleMovement rand ws pos rot now s).
Proof.
  intros H. unfold handleMovement.
  apply keeps_broadcastPlayerStates, keeps_checkGameStatus, keeps_checkCollisions,
    keeps_checkFoodCollisions.
  apply keeps_updatePlayer; [apply updateSnakeSegments_keeps|].
  assert (keeps s0 (updatePlayer ws (fun p =>
             match segments p with
             | _ :: rest => setSegments (mkSegment pos :: rest) p
             | [] => p
             end) (updatePlayer ws (setLastUpdate now) s))) as H1.
  { apply keeps_updatePlayer.
    - intros p. destruct (segments p) eqn:E; cbn; rewrite ?E; split; auto. discriminate.
    - now keeps_update. }
  destruct rot; [keeps_update|]; exact H1.
Qed.

Lemma keeps_ws_message s0 s ws frame now :
  keeps s0 s -> keeps s0 (ws_message rand ws frame now s).
Proof.
  intros H. unfold ws_message, invalidFormat.
  destruct frame as [| |data]; [now apply keeps_send| |].
  - destruct (_ && _);
      [apply keeps_startNewRound; repeat keeps_step|].
    destruct (getPlayer ws s); [|exact H].
    destruct (negb (isActive _));
      [destruct (_ <=? _)%nat; [apply keeps_startNewRound; repeat keeps_step | exact H]|].
    destruct (negb (alive _)); [exact H | now apply keeps_send].
  - destruct (_ && _);
      [apply keeps_startNewRound; repeat keeps_step|].
    destruct (getPlayer ws s); [|exact H].
    destruct (negb (isActive _));
      [destruct (_ <=? _)%nat; [apply keeps_startNewRound; repeat keeps_step | exact H]|].
    destruct (negb (alive _)); [exact H|].
    destruct (mtype data).
    + destruct (mposition data); [now apply keeps_handleMovement | exact H].
    + apply keeps_startNewRound; repeat keeps_step.
    + exact H.
Qed.

End Keeps.

(** ** Well-formed stores *)

Section Invariants.
Context {num : Type} {N : Number num}.
Variable rand : nat -> num.
Variable randomUUID : nat -> string.
Implicit Types (s : Server num) (ws : Conn) (now : Z).

(** Connections are distinct keys and every session has a head segment. *)
Definition wellFormed s : Prop :=
  NoDup (map fst (players s))
  /\ Forall (fun e => segments (snd e) <> []) (players s).

(** Every id in the store was generated by an earlier call, and no two
    sessions share one. *)
Definition idsFresh s : Prop :=
  NoDup (map (fun e => id (snd e)) (players s))
  /\ Forall (fun e => exists k, (k < uuidCalls s)%nat /\ id (snd e) = randomUUID k)
            (players s).

Lemma sameRoster_nonempty (m m' : list (Conn * PlayerState num)) :
  sameRoster m m' ->
  Forall (fun e => segments (snd e) <> []) m ->
  Forall (fun e => segments (snd e) <> []) m'.
Proof.
  induction 1 as [|e e' l l' (_ & _ & c) _ IH]; intros H; constructor;
    inversion H; subst; auto.
Qed.

Lemma keeps_wellFormed s0 s : keeps s0 s -> wellFormed s0 -> wellFormed s.
Proof.
  intros [Hr _] [Hk Hs]. split.
  - now rewrite <- (sameRoster_keys Hr).
  - eapply sameRoster_nonempty; eauto.
Qed.

Lemma Forall_map_iff {A B} (f : A -> B) (P : B -> Prop) l :
  Forall P (map f l) <-> Forall (fun a => P (f a)) l.
Proof.
  induction l; cbn; split; intros H; try constructor; inversion H; subst; auto;
    now apply IHl.
Qed.

Lemma keeps_idsFresh s0 s : keeps s0 s -> idsFresh s0 -> idsFresh s.
Proof.
  intros [Hr Hu] [Hn Hf]. split.
  - now rewrite <- (sameRoster_ids Hr).
  - rewrite Hu.
    apply (Forall_map_iff (fun e => id (snd e))
             (fun i => exists k, (k < uuidCalls s0)%nat /\ i = randomUUID k)).
    rewrite <- (sameRoster_ids Hr).
    now apply (Forall_map_iff (fun e => id (snd e))
             (fun i => exists k, (k < uuidCalls s0)%nat /\ i = randomUUID k)).
Qed.

Lemma NoDup_map_filter {A B} (f : A -> B) (p : A -> bool) l :
  NoDup (map f l) -> NoDup (map f (filter p l)).
Proof.
  induction l as [|a l IH]; cbn; [auto|]. intros H. inversion H as [|? ? Hn Hd]; subst.
  destruct (p a); cbn; [constructor|]; auto.
  intros Hin. apply Hn. apply in_map_iff in Hin. destruct Hin as (b & Hb & Hin).
  apply filter_In in Hin. apply in_map_iff. exists b. tauto.
Qed.

Lemma Forall_filter {A} (P : A -> Prop) (p : A -> bool) l :
  Forall P l -> Forall P (filter p l).
Proof.
  induction 1 as [|a l Ha H IH]; cbn; [constructor|]. destruct (p a); auto.
Qed.

Lemma mapSet_keys_NoDup ws v (m : list (Conn * PlayerState num)) :
  NoDup (map fst m) -> NoDup (map fst (mapSet ws v m)).
Proof.
  induction m as [|[k p] rest IH]; cbn; intros H.
  - constructor; [tauto | constructor].
  - inversion H as [|? ? Hn Hd]; subst. destruct (Nat.eqb k ws) eqn:E; cbn.
    + constructor; auto.
    + constructor; [|auto]. intros Hin. apply Hn.
      clear - Hin E. induction rest as [|[k' p'] rest IH]; cbn in *.
      * destruct Hin as [Hin|[]]. apply Nat.eqb_neq in E. congruence.
      * destruct (Nat.eqb k' ws); cbn in *; tauto.
Qed.

Lemma mapSet_Forall (P : Conn * PlayerState num -> Prop) ws v m :
  P (ws, v) -> (forall k, P (k, v) ) -> Forall P m -> Forall P (mapSet ws v m).
Proof.
  intros Hv Hv'. induction 1 as [|[k p] rest Hp H IH]; cbn.
  - constructor; auto.
  - destruct (Nat.eqb k ws); constructor; auto.
Qed.

Lemma mapSet_ids_NoDup ws v (m : list (Conn * PlayerState num)) :
  ~ In (id v) (map (fun e => id (snd e)) m) ->
  NoDup (map (fun e => id (snd e)) m) ->
  NoDup (map (fun e => id (snd e)) (mapSet ws v m)).
Proof.
  induction m as [|[k p] rest IH]; cbn; intros Hfresh H.
  - constructor; [tauto | constructor].
  - inversion H as [|? ? Hn Hd]; subst. destruct (Nat.eqb k ws); cbn.
    + constructor; [tauto | auto].
    + constructor; [|apply IH; tauto].
      intros Hin. clear IH H Hd.
      assert (In (id p) (id v :: map (fun e => id (snd e)) rest)) as Hin'.
      { clear - Hin. induction rest as [|[k' p'] rest IH]; cbn in *.
        - tauto.
        - destruct (Nat.eqb k' ws); cbn in *; [tauto|].
          destruct Hin as [Hin|Hin]; [tauto|]. specialize (IH Hin). tauto. }
      destruct Hin' as [Heq|Hin']; [|tauto]. apply Hfresh. now left.
Qed.

Lemma reap_players limit now s :
  players (reap limit now s) = filter (fun e => negb (isStale limit now e)) (players s).
Proof. reflexivity. Qed.

Lemma reap_uuidCalls limit now s : uuidCalls (reap limit now s) = uuidCalls s.
Proof. reflexivity. Qed.

Lemma reap_gameState limit now s : gameState (reap limit now s) = gameState s.
Proof. reflexivity. Qed.

Lemma wellFormed_reap limit now s : wellFormed s -> wellFormed (reap limit now s).
Proof.
  intros [Hk Hs]. split; rewrite reap_players.
  - now apply NoDup_map_filter.
  - now apply Forall_filter.
Qed.

Lemma idsFresh_reap limit now s : idsFresh s -> idsFresh (reap limit now s).
Proof.
  intros [Hn Hf]. split; rewrite reap_players.
  - now apply NoDup_map_filter.
  - rewrite reap_uuidCalls. now apply Forall_filter.
Qed.

(** The store right after [players.set] in the open handler. *)
Lemma ws_open_shape ws now s :
  exists pos s3,
    players s3 =
      mapSet ws (mkPlayer (randomUUID (uuidCalls s)) [mkSegment pos] (fromZ 0) true now O O O)
             (filter (fun e => negb (isStale 30000 now e)) (players s))
    /\ uuidCalls s3 = S (uuidCalls s)
    /\ gameState s3 = gameState s
    /\ keeps s3 (ws_open rand randomUUID ws now s).
Proof.
  unfold ws_open.
  match goal with |- context [spawnPosition rand ?t] =>
    pose proof (spawnPosition_frame rand t) as Hf;
    destruct (spawnPosition rand t) as [pos s1] end.
  cbn in Hf. destruct Hf as (Hp & Hu & Hg & _).
  eexists pos, _. split; [|split; [|split]]; cycle 3.
  - match goal with |- context [if ?c then _ else _] => destruct c end.
    + apply keeps_startNewRound, keeps_withGame, keeps_broadcastPlayerStates, keeps_send,
        keeps_refl.
    + apply keeps_broadcastPlayerStates, keeps_send, keeps_refl.
  - cbn. now rewrite reap_players, Hp.
  - cbn. now rewrite reap_uuidCalls, Hu.
  - cbn. now rewrite reap_gameState, Hg.
Qed.

Lemma wellFormed_ws_open ws now s :
  wellFormed s -> wellFormed (ws_open rand randomUUID ws now s).
Proof.
  intros [Hk Hs]. destruct (ws_open_shape ws now s) as (pos & s3 & Hp & Hu & Hg & Hkeep).
  eapply keeps_wellFormed; [exact Hkeep|]. split; rewrite Hp.
  - apply mapSet_keys_NoDup. now apply NoDup_map_filter.
  - apply mapSet_Forall; [discriminate | intros; discriminate | now apply Forall_filter].
Qed.

Lemma wellFormed_ws_close ws now s :
  wellFormed s -> wellFormed (ws_close ws now s).
Proof.
  intros [Hk Hs]. unfold ws_close.
  eapply keeps_wellFormed;
    [apply keeps_setTimeout, keeps_broadcastPlayerStates, keeps_refl|].
  split; cbn; unfold mapDelete; [now apply NoDup_map_filter | now apply Forall_filter].
Qed.

Lemma tick_shape now s :
  exists s1, keeps s s1 /\ keeps (reap INACTIVE_TIMEOUT_MS now s1) (tick rand now s).
Proof.
  unfold tick.
  match goal with |- context [reap _ _ ?t] => exists t end. split.
  - destruct (_ && _).
    + apply keeps_startNewRound. repeat apply keeps_withGame. apply keeps_refl.
    + apply keeps_withGame, keeps_refl.
  - destruct (0 <? _)%nat.
    + apply keeps_checkGameStatus, keeps_broadcastPlayerStates, keeps_refl.
    + apply keeps_refl.
Qed.

Lemma wellFormed_handle now e s :
  wellFormed s -> wellFormed (handle rand randomUUID now e s).
Proof.
  intros H. destruct e as [ws|ws frame|ws| |k]; cbn.
  - now apply wellFormed_ws_open.
  - eapply keeps_wellFormed; [apply keeps_ws_message, keeps_refl | exact H].
  - now apply wellFormed_ws_close.
  - destruct (tick_shape now s) as (s1 & H1 & H2).
    eapply keeps_wellFormed; [exact H2|]. apply wellFormed_reap.
    eapply keeps_wellFormed; eauto.
  - destruct (nth_error (timers s) k); [|exact H].
    eapply keeps_wellFormed; [apply keeps_runCallback, keeps_setTimers, keeps_refl | exact H].
Qed.

Lemma wellFormed_initial t0 : wellFormed (initial rand t0).
Proof.
  unfold initial.
  match goal with |- context [generateFood rand ?n ?t] =>
    pose proof (generateFood_frame rand n t) as Hg;
    destruct (generateFood rand n t) as [fd s1] end.
  cbn in Hg. destruct Hg as (Hp & _). split; cbn; rewrite Hp; constructor.
Qed.

Lemma reachable_wellFormed s : reachable rand randomUUID s -> wellFormed s.
Proof.
  induction 1; [apply wellFormed_initial | now apply wellFormed_handle].
Qed.

End Invariants.

(** ** Concrete runs

    The oracles used to run the server on IEEE doubles: every call of
    [Math.random()] returns 0.5, so every spawn position is (1200, 900) and
    every food item lies at (1200, 900); the n-th id is the decimal numeral
    of n. *)

Definition halves : nat -> float := fun _ => 0.5%float.
Definition decimalUUID (n : nat) : string := NilEmpty.string_of_uint (Nat.to_uint n).

Lemma decimalUUID_inj n n' : decimalUUID n = decimalUUID n' -> n = n'.
Proof.
  unfold decimalUUID. intros H.
  apply Unsigned.to_uint_inj.
  apply (f_equal NilEmpty.uint_of_string) in H.
  rewrite !NilEmpty.usu in H. now injection H.
Qed.

Definition M : Conn := 1%nat.
Definition V : Conn := 2%nat.

(** A movement frame with heading 0. *)
Definition move (ws : Conn) (px py : float) : Z -> Z * Input (num := float) :=
  fun t => (t, InMessage ws (JsonData (mkMovement TyMovement
                                         (Some (mkPosition px py)) (Some 0%float)))).

Definition run (inputs : list (Z * Input (num := float))) : option (Loop (num := float)) :=
  simulate halves decimalUUID 1000 inputs (boot halves 0).

(** One client connected at time 10. *)
Definition soloServer : Server float :=
  handle halves decimalUUID 10 (EvOpen M) (initial halves 0).

Definition soloPlayer : PlayerState float :=
  mkPlayer "0" [mkSegment (mkPosition 1200%float 900%float)] 0%float true 10 0 0 0.

Lemma soloServer_reachable : reachable halves decimalUUID soloServer.
Proof. apply reach_handle, reach_initial. Qed.

Lemma soloServer_player : getPlayer M soloServer = Some soloPlayer.
Proof. vm_compute. reflexivity. Qed.

(** ** C1: sessions always have a head segment *)

(** C1. In every reachable state, every session in the store has at least
    one segment, and index 0 (the head) exists: session creation, movement
    handling, growth, collision resolution and round restarts never leave a
    session without segments. *)
Theorem segments_never_empty :
  forall (num : Type) (N : Number num) (rand : nat -> num) (randomUUID : nat -> string)
         (s : Server num) (ws : Conn) (p : PlayerState num),
    reachable rand randomUUID s ->
    getPlayer ws s = Some p ->
    (1 <= List.length (segments p))%nat
    /\ exists headSegment, nth_error (segments p) 0 = Some headSegment.
Proof.
  intros num N rand randomUUID s ws p Hr Hp.
  destruct (reachable_wellFormed Hr) as [_ Hs].
  apply lookup_In in Hp. rewrite Forall_forall in Hs. specialize (Hs _ Hp). cbn in Hs.
  destruct (segments p) as [|h t]; [congruence|]. cbn. split; [lia | now exists h].
Qed.

Lemma segments_never_empty_witness :
  (1 <= List.length (segments soloPlayer))%nat
  /\ exists headSegment, nth_error (segments soloPlayer) 0 = Some headSegment.
Proof.
  apply (@segments_never_empty float float_Number halves decimalUUID soloServer M soloPlayer).
  - exact soloServer_reachable.
  - exact soloServer_player.
Defined.

(** ** The round flags

    [flags s] is what the round state machine branches on: the round
    number, [isActive], [waitingForPlayers], [gameOver] and the number of
    sessions. Kinematics, collisions and broadcasts leave it alone; the
    effect of the round functions on it is a function of the flags alone. *)

Section Flags.
Context {num : Type} {N : Number num}.
Variable rand : nat -> num.
Variable randomUUID : nat -> string.
Implicit Types (s : Server num) (ws : Conn) (now : Z).

Definition Flags : Type := (nat * bool * bool * bool * nat)%type.

Definition flags s : Flags :=
  (roundNumber (gameState s), isActive (gameState s), waitingForPlayers (gameState s),
   gameOver (gameState s), size s).

Lemma flags_same s s' :
  gameState s' = gameState s -> List.length (players s') = List.length (players s) ->
  flags s' = flags s.
Proof. unfold flags, size. now intros -> ->. Qed.

Lemma flags_send ws m s : flags (send ws m s) = flags s.
Proof. reflexivity. Qed.
Lemma flags_sendAll m s : flags (sendAll m s) = flags s.
Proof. reflexivity. Qed.
Lemma flags_setTimeout cb d now s : flags (setTimeout cb d now s) = flags s.
Proof. reflexivity. Qed.
Lemma flags_setTimers v s : flags (setTimers v s) = flags s.
Proof. reflexivity. Qed.
Lemma flags_setRecentAnnouncements v s : flags (setRecentAnnouncements v s) = flags s.
Proof. reflexivity. Qed.
Lemma flags_broadcastAnnouncement text ty dur now s :
  flags (broadcastAnnouncement text ty dur now s) = flags s.
Proof. reflexivity. Qed.
Lemma flags_setServerTime now s : flags (withGame (setServerTime now) s) = flags s.
Proof. reflexivity. Qed.
Lemma flags_setFood fd s : flags (withGame (setFood fd) s) = flags s.
Proof. reflexivity. Qed.

Lemma flags_updatePlayer ws f s : flags (updatePlayer ws f s) = flags s.
Proof. apply flags_same; [reflexivity | apply mapUpdate_length]. Qed.

Lemma flags_broadcastPlayerStates now s : flags (broadcastPlayerStates now s) = flags s.
Proof.
  unfold broadcastPlayerStates. destruct (size s =? 0)%nat; [reflexivity|].
  rewrite flags_sendAll.
  match goal with |- context [if ?c then setTimeout _ _ _ ?a else ?b] => destruct c end;
    rewrite ?flags_setTimeout;
    match goal with |- context [if ?c then _ else _] => destruct c end;
    reflexivity.
Qed.

Lemma flags_spawnPosition s : flags (snd (spawnPosition rand s)) = flags s.
Proof. reflexivity. Qed.

Lemma flags_freshFood s : flags (snd (freshFood rand s)) = flags s.
Proof. reflexivity. Qed.

Create Rewrite HintDb flags.
Hint Rewrite flags_send flags_sendAll flags_setTimeout flags_setTimers
  flags_setRecentAnnouncements flags_broadcastAnnouncement flags_setServerTime
  flags_setFood flags_updatePlayer flags_broadcastPlayerStates : flags.

Lemma flags_eatFood ws i now s : flags (eatFood rand ws i now s) = flags s.
Proof.
  unfold eatFood.
  match goal with |- context [freshFood rand ?t] =>
    pose proof (flags_freshFood t) as Hf; destruct (freshFood rand t) as [f s1] end.
  cbn [snd] in Hf.
  assert (flags (withGame (fun g => setFood (food g ++ [f]) g) s1) = flags s) as H1.
  { transitivity (flags s1); [reflexivity|]. rewrite Hf.
    rewrite flags_updatePlayer. reflexivity. }
  destruct (getPlayer ws _); [|exact H1].
  repeat first
    [ rewrite flags_send | rewrite flags_broadcastAnnouncement | exact H1
    | match goal with
      | |- context [match ?o with Some _ => _ | None => _ end] => destruct o as [[? ?]|]
      | |- context [if ?c then _ else _] => destruct c
      end ].
Qed.

Lemma flags_foodLoop head ws now n s : flags (foodLoop rand head ws now n s) = flags s.
Proof.
  revert s. induction n as [|n IH]; intros s; cbn; [reflexivity|].
  rewrite IH. destruct (nth_error _ _); [|reflexivity].
  destruct (nearFood _ _); [apply flags_eatFood | reflexivity].
Qed.

Lemma flags_checkFoodCollisions ws now s :
  flags (checkFoodCollisions rand ws now s) = flags s.
Proof.
  unfold checkFoodCollisions. destruct (getPlayer ws s); [|reflexivity].
  destruct (negb _); [reflexivity|]. destruct (segments _); [reflexivity|].
  apply flags_foodLoop.
Qed.

Lemma flags_headCollision cur a now s : flags (headCollision cur a now s) = flags s.
Proof.
  unfold headCollision.
  destruct (getPlayer a _); [destruct (getPlayer cur _)|];
    autorewrite with flags; reflexivity.
Qed.

Lemma flags_moverKilled cur a now s : flags (moverKilled cur a now s) = flags s.
Proof.
  unfold moverKilled.
  destruct (getPlayer a _); [destruct (getPlayer cur _)|];
    autorewrite with flags; try reflexivity.
  repeat match goal with |- context [if ?c then _ else _] => destruct c end;
    autorewrite with flags; reflexivity.
Qed.

Lemma flags_otherKilled cur a s : flags (otherKilled cur a s) = flags s.
Proof.
  unfold otherKilled.
  destruct (getPlayer a _); [destruct (getPlayer cur _)|];
    autorewrite with flags; reflexivity.
Qed.

Lemma flags_headHitsTail h tailA cur a now s :
  flags (headHitsTail h tailA cur a now s) = flags s.
Proof.
  induction tailA as [|seg rest IH]; cbn; [reflexivity|].
  destruct (_ <? _)%num; [apply flags_moverKilled | exact IH].
Qed.

Lemma flags_tailHitByHead h tailC cur a s :
  flags (tailHitByHead h tailC cur a s) = flags s.
Proof.
  induction tailC as [|seg rest IH]; cbn; [reflexivity|].
  destruct (_ <? _)%num; [apply flags_otherKilled | exact IH].
Qed.

Lemma flags_collideWith cur now a s : flags (collideWith cur now a s) = flags s.
Proof.
  unfold collideWith.
  destruct (getPlayer a s); [|reflexivity].
  destruct (getPlayer cur s); [|reflexivity].
  destruct (_ && _); [|reflexivity].
  destruct (segments _); [reflexivity|].
  destruct (segments _); [reflexivity|].
  destruct (_ <? _)%num; [apply flags_headCollision|].
  rewrite flags_tailHitByHead. apply flags_headHitsTail.
Qed.

Lemma flags_checkCollisions cur now s : flags (checkCollisions cur now s) = flags s.
Proof.
  unfold checkCollisions. generalize (players s) as l. intros l. revert s.
  induction l as [|e l IH]; intros s; cbn; [reflexivity|].
  rewrite IH. apply flags_collideWith.
Qed.

(** *** Transitions of the round functions *)

Definition startFlags (f : Flags) : Flags :=
  let '(r, a, w, g, n) := f in
  if (n <? MIN_PLAYERS_TO_START)%nat then (r, false, true, g, n)
  else ((if g then S r else r), true, w, false, n).

(** [a'] is the value [isActive] is left with when the status check gets
    past its guards. *)
Definition statusFlags (a' : bool) (f : Flags) : Flags :=
  let '(r, a, w, g, n) := f in
  if negb (a && negb w) && (n <? MIN_PLAYERS_TO_START)%nat then (r, false, true, g, n)
  else if w && (MIN_PLAYERS_TO_START <=? n)%nat then startFlags f
  else if negb a then f
  else (r, a', w, g, n).

Definition resetFlags (f : Flags) : Flags :=
  let '(r, a, _, _, n) := f in startFlags (r, a, true, true, n).

Lemma startNewRound_flags now s :
  flags (startNewRound rand now s) = startFlags (flags s).
Proof.
  unfold startNewRound, startFlags, flags at 2.
  destruct (size s <? MIN_PLAYERS_TO_START)%nat eqn:E.
  - autorewrite with flags. reflexivity.
  - autorewrite with flags. cbn [gameState withGame].
    destruct (gameOver (gameState s)) eqn:G.
    + replace (gameOver (setRoundEndTime None (setWinner None (setIsActive true (gameState s)))))
        with true by (cbn; now rewrite G).
      match goal with |- context [generateFood rand ?n ?t] =>
        pose proof (generateFood_frame rand n t) as Hg;
        destruct (generateFood rand n t) as [fd s1] end.
      cbn in Hg. destruct Hg as (Hp & _ & Hgs & _).
      match goal with |- context [resetAll rand now ?ps ?t] =>
        pose proof (resetAll_spec rand now ps t) as Hr;
        destruct (resetAll rand now ps t) as [ps' s2] end.
      cbn in Hr. destruct Hr as (Hr & _ & _ & Hgs' & _).
      unfold flags, size. cbn. rewrite Hgs'. cbn. rewrite Hgs. cbn.
      rewrite <- (sameRoster_length Hr), Hp. reflexivity.
    + replace (gameOver (setRoundEndTime None (setWinner None (setIsActive true (gameState s)))))
        with false by (cbn; now rewrite G).
      match goal with |- context [respawnDead rand now ?ps ?t] =>
        pose proof (respawnDead_spec rand now ps t) as Hr;
        destruct (respawnDead rand now ps t) as [ps' s2] end.
      cbn in Hr. destruct Hr as (Hr & _ & _ & Hgs' & _).
      unfold flags, size. cbn. rewrite Hgs'. cbn.
      rewrite <- (sameRoster_length Hr), G. reflexivity.
Qed.

Lemma declareWinner_flags w now s :
  flags (declareWinner w now s)
  = (roundNumber (gameState s), false, waitingForPlayers (gameState s),
     gameOver (gameState s), size s).
Proof. unfold declareWinner. autorewrite with flags. reflexivity. Qed.

Lemma checkGameStatus_flags now s :
  exists a', flags (checkGameStatus rand now s) = statusFlags a' (flags s).
Proof.
  unfold checkGameStatus, statusFlags, flags at 2.
  destruct (negb (isActive (gameState s) && negb (waitingForPlayers (gameState s)))
            && (size s <? MIN_PLAYERS_TO_START)%nat).
  { exists false. autorewrite with flags. reflexivity. }
  destruct (waitingForPlayers (gameState s) && (MIN_PLAYERS_TO_START <=? size s)%nat).
  { exists false. apply startNewRound_flags. }
  destruct (negb (isActive (gameState s))) eqn:A.
  { exists false. reflexivity. }
  apply negb_false_iff in A.
  destruct (find _ _) as [[? w]|].
  { exists false. apply declareWinner_flags. }
  destruct (filter _ _) as [|[wws w] [|? ?]].
  - destruct (0 <? size s)%nat.
    + exists false. autorewrite with flags. reflexivity.
    + exists true. unfold flags. now rewrite A.
  - exists true. destruct (1 <? size s)%nat; [|unfold flags; now rewrite A].
    match goal with |- context [if ?c then _ else _] => destruct c end;
      autorewrite with flags; unfold flags; now rewrite A.
  - exists true. unfold flags. now rewrite A.
Qed.

Lemma gameOverReset_flags now s :
  flags (gameOverReset rand now s) = resetFlags (flags s).
Proof.
  unfold gameOverReset. rewrite startNewRound_flags.
  unfold resetFlags, flags, size. cbn. now rewrite length_map.
Qed.

(** *** Transitions of the handlers *)

Definition withSize (n' : nat) (f : Flags) : Flags :=
  let '(r, a, w, g, _) := f in (r, a, w, g, n').

Definition forcedFlags (f : Flags) : Flags :=
  let '(r, _, _, g, n) := f in startFlags (r, true, false, g, n).

Definition openFlags (n' : nat) (f : Flags) : Flags :=
  let '(r, a, w, g, _) := f in
  if w && (MIN_PLAYERS_TO_START <=? n')%nat then startFlags (r, a, false, g, n')
  else (r, a, w, g, n').

Definition tickStartFlags (f : Flags) : Flags :=
  let '(r, a, w, g, n) := f in
  if w && negb a && (MIN_PLAYERS_TO_START <=? n)%nat then startFlags (r, a, false, g, n)
  else f.

Lemma handleMovement_flags ws pos rot now s :
  exists a', flags (handleMovement rand ws pos rot now s) = statusFlags a' (flags s).
Proof.
  unfold handleMovement.
  match goal with |- context [checkGameStatus rand now ?t] =>
    destruct (checkGameStatus_flags now t) as [a' Ha];
    assert (flags t = flags s) as Ht end.
  { rewrite flags_checkCollisions, flags_checkFoodCollisions.
    destruct rot; now autorewrite with flags. }
  exists a'. now rewrite flags_broadcastPlayerStates, Ha, Ht.
Qed.

Lemma ws_message_flags ws frame now s :
  let f := flags s in
  let f' := flags (ws_message rand ws frame now s) in
  f' = f
  \/ (f' = forcedFlags f
      /\ (isActive (gameState s) = false -> (MIN_PLAYERS_TO_START <= size s)%nat))
  \/ (f' = startFlags f /\ (MIN_PLAYERS_TO_START <= size s)%nat)
  \/ (isActive (gameState s) = true /\ exists a', f' = statusFlags a' f).
Proof.
  cbv zeta. unfold ws_message, invalidFormat.
  assert (forall t, flags t = flags s ->
            flags (startNewRound rand now
                     (broadcastAnnouncement "Game starting!" SevSuccess 2000 now
                        (withGame (fun g => setIsActive true (setWaitingForPlayers false g)) t)))
            = forcedFlags (flags s)) as Hforce.
  { intros t Ht. rewrite startNewRound_flags, flags_broadcastAnnouncement.
    rewrite <- Ht. reflexivity. }
  destruct frame as [| |data]; [now left| |].
  - destruct (negb (isActive (gameState s))) eqn:A;
      destruct (getPlayer ws s) as [p|]; cbn [andb]; try (now left).
    + destruct (MIN_PLAYERS_TO_START <=? size s)%nat eqn:E; [|now left].
      apply Nat.leb_le in E. right; left. split; [now apply Hforce | auto].
    + destruct (negb (alive p)); now left.
  - destruct (negb (isActive (gameState s))) eqn:A;
      destruct (getPlayer ws s) as [p|]; cbn [andb]; try (now left).
    + destruct (MIN_PLAYERS_TO_START <=? size s)%nat eqn:E; [|now left].
      apply Nat.leb_le in E. right; left. split; [now apply Hforce | auto].
    + apply negb_false_iff in A.
      destruct (negb (alive p)); [now left|].
      destruct (mtype data); [| |now left].
      * destruct (mposition data); [|now left].
        right; right; right. split; [exact A | apply handleMovement_flags].
      * right; left. split; [|congruence].
        rewrite startNewRound_flags, flags_broadcastAnnouncement. reflexivity.
Qed.

Lemma ws_open_flags ws now s :
  exists n', flags (ws_open rand randomUUID ws now s) = openFlags n' (flags s).
Proof.
  unfold ws_open.
  match goal with |- context [spawnPosition rand ?t] =>
    pose proof (spawnPosition_frame rand t) as Hf;
    destruct (spawnPosition rand t) as [pos s1] end.
  cbn in Hf. destruct Hf as (Hp & Hu & Hg & _).
  match goal with |- context [broadcastPlayerStates now ?t] =>
    set (s3 := t);
    assert (flags (broadcastPlayerStates now s3) = withSize (size s3) (flags s)) as H3 end.
  { rewrite flags_broadcastPlayerStates. unfold flags, s3. cbn.
    rewrite reap_gameState, Hg. reflexivity. }
  exists (size s3).
  assert (waitingForPlayers (gameState (broadcastPlayerStates now s3))
          = waitingForPlayers (gameState s)
          /\ size (broadcastPlayerStates now s3) = size s3) as [Hw Hn].
  { unfold flags in H3. cbn in H3. injection H3. auto. }
  rewrite Hw, Hn. unfold openFlags, flags at 2.
  destruct (waitingForPlayers (gameState s) && _).
  - rewrite startNewRound_flags. f_equal.
    assert (forall t, flags (withGame (setWaitingForPlayers false) t)
                      = (let '(r, a, _, g, n) := flags t in (r, a, false, g, n))) as Hset
      by reflexivity.
    rewrite Hset, H3. reflexivity.
  - exact H3.
Qed.

Lemma filter_length_le {A} (p : A -> bool) l :
  (List.length (filter p l) <= List.length l)%nat.
Proof. induction l as [|a l IH]; cbn; [lia|]. destruct (p a); cbn; lia. Qed.

Lemma ws_close_flags ws now s :
  exists n', (n' <= size s)%nat /\ flags (ws_close ws now s) = withSize n' (flags s).
Proof.
  unfold ws_close. exists (List.length (mapDelete ws (players s))). split.
  - apply filter_length_le.
  - autorewrite with flags. reflexivity.
Qed.

Lemma tick_flags now s :
  exists n' a',
    (n' <= size s)%nat
    /\ (flags (tick rand now s) = withSize n' (tickStartFlags (flags s))
        \/ flags (tick rand now s) = statusFlags a' (withSize n' (tickStartFlags (flags s)))).
Proof.
  unfold tick. cbn [gameState withGame].
  match goal with |- context [reap _ _ ?t] =>
    set (s1 := t); assert (flags s1 = tickStartFlags (flags s)) as H1 end.
  { unfold s1, tickStartFlags, flags at 3. cbn.
    replace (size (withGame (setServerTime now) s)) with (size s) by reflexivity.
    destruct (_ && _); [|reflexivity].
    rewrite startNewRound_flags. reflexivity. }
  assert (flags (reap INACTIVE_TIMEOUT_MS now s1)
          = withSize (size (reap INACTIVE_TIMEOUT_MS now s1)) (flags s1)) as H2.
  { unfold flags. rewrite reap_gameState. reflexivity. }
  assert (size (reap INACTIVE_TIMEOUT_MS now s1) <= size s)%nat as Hle.
  { unfold size at 1. rewrite reap_players.
    eapply Nat.le_trans; [apply filter_length_le|].
    assert (size s1 = size s) as <-; [|reflexivity].
    unfold flags in H1. unfold tickStartFlags in H1.
    destruct (_ && _ && _) in H1.
    - unfold startFlags in H1. destruct (_ <? _)%nat in H1; now injection H1.
    - now injection H1. }
  destruct (checkGameStatus_flags now
              (broadcastPlayerStates now (reap INACTIVE_TIMEOUT_MS now s1))) as [a' Ha].
  exists (size (reap INACTIVE_TIMEOUT_MS now s1)), a'. split; [exact Hle|].
  rewrite <- H1, <- H2.
  destruct (0 <? _)%nat.
  - right. now rewrite Ha, flags_broadcastPlayerStates.
  - now left.
Qed.

Lemma runCallback_flags cb now s :
  exists a',
    flags (runCallback rand cb now s)
    = match cb with
      | CbCheckGameStatus => statusFlags a' (flags s)
      | CbStartNewRound => startFlags (flags s)
      | CbGameOverReset => resetFlags (flags s)
      end.
Proof.
  destruct cb; cbn.
  - apply checkGameStatus_flags.
  - exists false. apply startNewRound_flags.
  - exists false. apply gameOverReset_flags.
Qed.

End Flags.

(** *** Reasoning on flags alone *)

Definition rnd (f : Flags) : nat := let '(r, _, _, _, _) := f in r.
Definition pending (f : Flags) : bool := let '(_, _, _, g, _) := f in g.
Definition sessions (f : Flags) : nat := let '(_, _, _, _, n) := f in n.

(** A pending game-over (the [gameOver] flag) is only left behind by a reset
    that found too few sessions, and then the server is waiting. *)
Definition pendingOK (f : Flags) : Prop :=
  let '(_, _, w, g, n) := f in
  g = true -> (n < MIN_PLAYERS_TO_START)%nat /\ w = true.

Ltac flag_cases :=
  repeat match goal with
         | f : Flags |- _ => destruct f as [[[[? ?] ?] ?] ?]
         end;
  unfold pendingOK, rnd, pending, sessions, openFlags, tickStartFlags, forcedFlags,
    resetFlags, statusFlags, startFlags, withSize, MIN_PLAYERS_TO_START in *;
  intros;
  repeat match goal with
         | b : bool |- _ => destruct b
         end;
  cbn [andb negb orb] in *;
  repeat match goal with
         | |- context [(?n <? ?m)%nat] => destruct (Nat.ltb_spec n m)
         | |- context [(?n <=? ?m)%nat] => destruct (Nat.leb_spec n m)
         | H : context [(?n <? ?m)%nat] |- _ => destruct (Nat.ltb_spec n m)
         | H : context [(?n <=? ?m)%nat] |- _ => destruct (Nat.leb_spec n m)
         end;
  cbn [andb negb orb] in *;
  try solve [intuition (try lia; try congruence; try discriminate)].

Lemma pendingOK_startFlags f : pendingOK (startFlags f).
Proof. flag_cases. Qed.

Lemma pendingOK_resetFlags f : pendingOK (resetFlags f).
Proof. flag_cases. Qed.

Lemma pendingOK_forcedFlags f : pendingOK (forcedFlags f).
Proof. flag_cases. Qed.

Lemma pendingOK_statusFlags a' f : pendingOK f -> pendingOK (statusFlags a' f).
Proof. flag_cases. Qed.

Lemma pendingOK_openFlags n' f : pendingOK f -> pendingOK (openFlags n' f).
Proof. flag_cases. Qed.

Lemma pendingOK_withSize n' f :
  (n' <= sessions f)%nat -> pendingOK f -> pendingOK (withSize n' f).
Proof. flag_cases. Qed.

Lemma pendingOK_tickStartFlags f : pendingOK f -> pendingOK (tickStartFlags f).
Proof. flag_cases. Qed.

Lemma sessions_tickStartFlags f : sessions (tickStartFlags f) = sessions f.
Proof. flag_cases. Qed.

Lemma rnd_statusFlags a' f : pendingOK f -> rnd (statusFlags a' f) = rnd f.
Proof. flag_cases. Qed.

Lemma rnd_startFlags_quiet f : pendingOK f -> rnd (startFlags f) = rnd f.
Proof. flag_cases. Qed.

Lemma rnd_forcedFlags f : pendingOK f -> rnd (forcedFlags f) = rnd f.
Proof. flag_cases. Qed.

Lemma rnd_tickStartFlags f : pendingOK f -> rnd (tickStartFlags f) = rnd f.
Proof. flag_cases. Qed.

Lemma rnd_withSize n' f : rnd (withSize n' f) = rnd f.
Proof. flag_cases. Qed.

Lemma rnd_resetFlags f :
  rnd (resetFlags f)
  = if (MIN_PLAYERS_TO_START <=? sessions f)%nat then S (rnd f) else rnd f.
Proof. flag_cases. Qed.

Lemma rnd_openFlags n' f :
  (rnd f <= rnd (openFlags n' f) <= S (rnd f))%nat
  /\ (rnd (openFlags n' f) <> rnd f -> pending f = true).
Proof. flag_cases. Qed.

Lemma pending_cleared_startFlags f :
  rnd (startFlags f) <> rnd f -> pending (startFlags f) = false.
Proof. flag_cases. Qed.

Lemma pending_cleared_openFlags n' f :
  rnd (openFlags n' f) <> rnd f -> pending (openFlags n' f) = false.
Proof. flag_cases. Qed.

Lemma pending_cleared_resetFlags f :
  rnd (resetFlags f) <> rnd f -> pending (resetFlags f) = false.
Proof. flag_cases. Qed.

Section Rounds.
Context {num : Type} {N : Number num}.
Variable rand : nat -> num.
Variable randomUUID : nat -> string.
Implicit Types (s : Server num) (now : Z).

Lemma pendingOK_initial t0 : pendingOK (flags (initial rand t0)).
Proof.
  unfold initial.
  match goal with |- context [generateFood rand ?n ?t] =>
    pose proof (generateFood_frame rand n t) as Hg;
    destruct (generateFood rand n t) as [fd s1] end.
  cbn in Hg. destruct Hg as (Hp & _ & Hgs & _).
  unfold flags, pendingOK. cbn. rewrite Hgs. cbn. discriminate.
Qed.

Lemma pendingOK_handle now e s :
  pendingOK (flags s) -> pendingOK (flags (handle rand randomUUID now e s)).
Proof.
  intros H. destruct e as [ws|ws frame|ws| |k]; cbn [handle].
  - destruct (ws_open_flags rand randomUUID ws now s) as [n' ->].
    now apply pendingOK_openFlags.
  - destruct (ws_message_flags rand ws frame now s) as [E|[[E _]|[[E _]|[_ [a' E]]]]];
      rewrite E; auto using pendingOK_forcedFlags, pendingOK_startFlags,
                            pendingOK_statusFlags.
  - destruct (ws_close_flags ws now s) as (n' & Hle & ->).
    now apply pendingOK_withSize.
  - destruct (tick_flags rand now s) as (n' & a' & Hle & [E|E]); rewrite E.
    + apply pendingOK_withSize; [now rewrite sessions_tickStartFlags|].
      now apply pendingOK_tickStartFlags.
    + apply pendingOK_statusFlags, pendingOK_withSize;
        [now rewrite sessions_tickStartFlags|].
      now apply pendingOK_tickStartFlags.
  - destruct (nth_error (timers s) k) as [t|]; [|exact H].
    destruct (runCallback_flags rand (callback t) now
                (setTimers (removeAt k (timers s)) s)) as [a' E].
    rewrite E, flags_setTimers.
    destruct (callback t);
      auto using pendingOK_resetFlags, pendingOK_startFlags, pendingOK_statusFlags.
Qed.

Lemma reachable_pendingOK s : reachable rand randomUUID s -> pendingOK (flags s).
Proof.
  induction 1; [apply pendingOK_initial | now apply pendingOK_handle].
Qed.

(** How one event moves the round number, read off the flags. *)
Lemma rnd_handle now e s :
  pendingOK (flags s) ->
  let f := flags s in
  let f' := flags (handle rand randomUUID now e s) in
  (rnd f <= rnd f' <= S (rnd f))%nat
  /\ (forall k t, e = EvTimer k -> nth_error (timers s) k = Some t ->
      match callback t with
      | CbGameOverReset =>
          rnd f' = if (MIN_PLAYERS_TO_START <=? sessions f)%nat then S (rnd f) else rnd f
      | _ => rnd f' = rnd f
      end)
  /\ (rnd f' <> rnd f ->
      pending f' = false
      /\ ((exists k t, e = EvTimer k /\ nth_error (timers s) k = Some t
                       /\ callback t = CbGameOverReset)
          \/ (exists ws, e = EvOpen ws /\ pending f = true))).
Proof.
  intros H. cbv zeta.
  assert (forall f', rnd f' = rnd (flags s) ->
            (rnd (flags s) <= rnd f' <= S (rnd (flags s)))%nat
            /\ (rnd f' <> rnd (flags s) ->
                pending f' = false
                /\ ((exists k t, e = EvTimer k /\ nth_error (timers s) k = Some t
                                 /\ callback t = CbGameOverReset)
                    \/ (exists ws, e = EvOpen ws /\ pending (flags s) = true)))) as Hsame.
  { intros f' E. rewrite E. split; [lia | congruence]. }
  destruct e as [ws|ws frame|ws| |k]; cbn [handle].
  - destruct (ws_open_flags rand randomUUID ws now s) as [n' ->].
    destruct (rnd_openFlags n' (flags s)) as [Hr Hp].
    split; [exact Hr|]. split; [discriminate|]. intros Hne. split.
    + now apply pending_cleared_openFlags.
    + right. exists ws. auto.
  - assert (rnd (flags (ws_message rand ws frame now s)) = rnd (flags s)) as E.
    { destruct (ws_message_flags rand ws frame now s) as [E|[[E _]|[[E _]|[_ [a' E]]]]];
        rewrite E; auto using rnd_forcedFlags, rnd_startFlags_quiet, rnd_statusFlags. }
    destruct (Hsame _ E) as [Ha Hb]. split; [exact Ha|]. split; [discriminate | exact Hb].
  - assert (rnd (flags (ws_close ws now s)) = rnd (flags s)) as E.
    { destruct (ws_close_flags ws now s) as (n' & Hle & ->). apply rnd_withSize. }
    destruct (Hsame _ E) as [Ha Hb]. split; [exact Ha|]. split; [discriminate | exact Hb].
  - assert (rnd (flags (tick rand now s)) = rnd (flags s)) as E.
    { destruct (tick_flags rand now s) as (n' & a' & Hle & [E|E]); rewrite E.
      - now rewrite rnd_withSize, rnd_tickStartFlags.
      - rewrite rnd_statusFlags, rnd_withSize, rnd_tickStartFlags; auto.
        apply pendingOK_withSize; [now rewrite sessions_tickStartFlags|].
        now apply pendingOK_tickStartFlags. }
    destruct (Hsame _ E) as [Ha Hb]. split; [exact Ha|]. split; [discriminate | exact Hb].
  - destruct (nth_error (timers s) k) as [t|] eqn:Et.
    2:{ destruct (Hsame _ eq_refl) as [Ha Hb].
        split; [exact Ha|]. split; [|exact Hb]. intros k' t' [= <-]. congruence. }
    destruct (runCallback_flags rand (callback t) now
                (setTimers (removeAt k (timers s)) s)) as [a' E].
    rewrite E, flags_setTimers. clear E.
    destruct (callback t) eqn:Ecb.
    + pose proof (rnd_statusFlags a' _ H) as E.
      destruct (Hsame _ E) as [Ha Hb]. split; [exact Ha|]. split; [|exact Hb].
      intros k' t' [= <-]. rewrite Et. intros [= <-]. now rewrite Ecb.
    + pose proof (rnd_startFlags_quiet _ H) as E.
      destruct (Hsame _ E) as [Ha Hb]. split; [exact Ha|]. split; [|exact Hb].
      intros k' t' [= <-]. rewrite Et. intros [= <-]. now rewrite Ecb.
    + pose proof (rnd_resetFlags (flags s)) as E. split; [|split].
      * rewrite E. destruct (_ <=? _)%nat; lia.
      * intros k' t' [= <-]. rewrite Et. intros [= <-]. now rewrite Ecb.
      * intros Hne. split; [now apply pending_cleared_resetFlags|].
        left. exists k, t. auto.
Qed.

End Rounds.

(** ** Simulated executions are reachable *)

Section EventLoopFacts.
Context {num : Type} {N : Number num}.
Variable rand : nat -> num.
Variable randomUUID : nat -> string.

Lemma boot_reachable t0 : reachable rand randomUUID (world (boot rand t0)).
Proof. unfold boot. cbn [world]. exact (reach_initial rand randomUUID t0). Qed.

Lemma runUntil_S fuel t (l : Loop (num := num)) :
  runUntil rand randomUUID (S fuel) t l
  = let tickNow :=
      if nextTick l <=? t
      then runUntil rand randomUUID fuel t
             (mkLoop (handle rand randomUUID (nextTick l) EvTick (world l))
                     (nextTick l + 1000))
      else Some l in
    match earliestFrom 0 (timers (world l)) with
    | Some (k, d) =>
        if (d <=? t) && (d <=? nextTick l)
        then runUntil rand randomUUID fuel t (step rand randomUUID d (EvTimer k) l)
        else tickNow
    | None => tickNow
    end.
Proof. reflexivity. Qed.

Lemma runUntil_reachable fuel t (l l' : Loop (num := num)) :
  runUntil rand randomUUID fuel t l = Some l' ->
  reachable rand randomUUID (world l) -> reachable rand randomUUID (world l').
Proof.
  revert l. induction fuel as [|fuel IH]; intros l; [discriminate|].
  rewrite runUntil_S. cbv zeta. intros H Hr.
  assert ((if nextTick l <=? t
           then runUntil rand randomUUID fuel t
                  (mkLoop (handle rand randomUUID (nextTick l) EvTick (world l))
                          (nextTick l + 1000))
           else Some l) = Some l' -> reachable rand randomUUID (world l')) as Htick.
  { destruct (nextTick l <=? t).
    - intros H'. apply IH in H'; [exact H'|].
      exact (reach_handle (nextTick l) EvTick Hr).
    - now intros [= <-]. }
  destruct (earliestFrom 0 (timers (world l))) as [[k d]|]; [|now apply Htick].
  destruct ((d <=? t) && (d <=? nextTick l)); [|now apply Htick].
  apply IH in H; [exact H|]. exact (reach_handle d (EvTimer k) Hr).
Qed.

Lemma simulate_reachable fuel inputs (l l' : Loop (num := num)) :
  simulate rand randomUUID fuel inputs l = Some l' ->
  reachable rand randomUUID (world l) -> reachable rand randomUUID (world l').
Proof.
  revert l. induction inputs as [|ti rest IH]; intros l; cbn [simulate].
  - now intros [= <-].
  - unfold deliver.
    destruct (runUntil rand randomUUID fuel (fst ti) l) as [l1|] eqn:E; [|discriminate].
    intros H Hr. apply IH in H; [exact H|].
    apply (reach_handle (fst ti) (eventOf (snd ti))).
    eapply runUntil_reachable; eauto.
Qed.

End EventLoopFacts.

(** ** Executions on IEEE doubles *)

(** Let the timers and ticks due up to time [t] fire. *)
Definition settle (t : Z) (o : option (Loop (num := float))) : option (Loop (num := float)) :=
  match o with
  | Some l => runUntil halves decimalUUID 1000 t l
  | None => None
  end.

Lemma run_reachable inputs l :
  run inputs = Some l -> reachable halves decimalUUID (world l).
Proof. intros H. eapply simulate_reachable; [exact H | apply boot_reachable]. Qed.

Lemma settle_reachable t o l :
  (forall l0, o = Some l0 -> reachable halves decimalUUID (world l0)) ->
  settle t o = Some l -> reachable halves decimalUUID (world l).
Proof.
  destruct o as [l0|]; unfold settle; [|discriminate]. intros H0 H.
  eapply runUntil_reachable; [exact H | now apply H0].
Qed.

(** M and V connect and the round starts; V walks away; M eats the hundred
    food items at (1200, 900) and moves down twice, which gives it a tail:
    head (1200, 960), then (1200, 935) and (1200, 930). *)
Definition growTail : list (Z * Input (num := float)) :=
  [ (10, InOpen M); (20, InOpen V);
    move V 2000 100 100;
    move M 1200 900 200;
    move M 1200 930 300;
    move M 1200 960 400 ].

(** One kill: M reports its position (which keeps it from being reaped),
    then V, alive at its spawn position, moves to (1200, 925), within 20 of
    M's tail and 35 away from M's head. The next round of this kind starts
    4 s later, after the 3 s respawn timer. *)
Definition killRound (i : nat) : list (Z * Input (num := float)) :=
  let b := 1000 + Z.of_nat i * 4000 in
  [ move M 1200 960 (b - 500); move V 1200 925 b ].

Definition tenKills : list (Z * Input (num := float)) :=
  growTail ++ flat_map killRound (seq 0 10).

(** What a session has been sent, by kind. *)
Definition isGameOver (o : Output float) (ws : Conn) : bool :=
  match o with
  | Send w (MGameOver _ _ _ _ _) => Nat.eqb w ws
  | _ => false
  end.

Definition gameOverFrames (ws : Conn) (out : list (Output float)) : nat :=
  List.length (filter (fun o => isGameOver o ws) out).

Definition isCollisionFrame (o : Output float) : bool :=
  match o with
  | Send _ (MDied _ _) => true
  | Send _ (MKill _ _ _ _) => true
  | _ => false
  end.

Definition collisionFrames (out : list (Output float)) : list (Output float) :=
  filter isCollisionFrame out.

Definition killsOf (ws : Conn) (s : Server float) : option nat :=
  option_map (fun p => kills p) (getPlayer ws s).

Definition observe {A : Type} (f : Server float -> A) (o : option (Loop (num := float)))
  : option A :=
  option_map (fun l => f (world l)) o.

(** ** Round number and round flags over all executions *)

(** In the first round a waiting server is never active. *)
Definition firstRoundOK (f : Flags) : Prop :=
  let '(r, a, w, _, n) := f in
  (1 <= r)%nat
  /\ (r = 1%nat -> w = true -> a = false /\ (n < MIN_PLAYERS_TO_START)%nat).

Lemma firstRoundOK_startFlags f : firstRoundOK f -> firstRoundOK (startFlags f).
Proof. unfold firstRoundOK. flag_cases. Qed.

Lemma firstRoundOK_resetFlags f : firstRoundOK f -> firstRoundOK (resetFlags f).
Proof. unfold firstRoundOK. flag_cases. Qed.

Lemma firstRoundOK_forcedFlags f : firstRoundOK f -> firstRoundOK (forcedFlags f).
Proof. unfold firstRoundOK. flag_cases. Qed.

Lemma firstRoundOK_statusFlags a' f : firstRoundOK f -> firstRoundOK (statusFlags a' f).
Proof. unfold firstRoundOK. flag_cases. Qed.

Lemma firstRoundOK_openFlags n' f : firstRoundOK f -> firstRoundOK (openFlags n' f).
Proof. unfold firstRoundOK. flag_cases. Qed.

Lemma firstRoundOK_withSize n' f :
  (n' <= sessions f)%nat -> firstRoundOK f -> firstRoundOK (withSize n' f).
Proof. unfold firstRoundOK. flag_cases. Qed.

Lemma firstRoundOK_tickStartFlags f : firstRoundOK f -> firstRoundOK (tickStartFlags f).
Proof. unfold firstRoundOK. flag_cases. Qed.

Section RoundInvariants.
Context {num : Type} {N : Number num}.
Variable rand : nat -> num.
Variable randomUUID : nat -> string.
Implicit Types (s : Server num) (now : Z).

Lemma firstRoundOK_initial t0 : firstRoundOK (flags (initial rand t0)).
Proof.
  unfold initial.
  match goal with |- context [generateFood rand ?n ?t] =>
    pose proof (generateFood_frame rand n t) as Hg;
    destruct (generateFood rand n t) as [fd s1] end.
  cbn in Hg. destruct Hg as (Hp & _ & Hgs & _).
  unfold flags, firstRoundOK, size. cbn. rewrite Hgs, Hp. cbn.
  unfold MIN_PLAYERS_TO_START. split; [lia|]. intros _ _. split; [reflexivity | lia].
Qed.

Lemma firstRoundOK_handle now e s :
  firstRoundOK (flags s) -> firstRoundOK (flags (handle rand randomUUID now e s)).
Proof.
  intros H. destruct e as [ws|ws frame|ws| |k]; cbn [handle].
  - destruct (ws_open_flags rand randomUUID ws now s) as [n' ->].
    now apply firstRoundOK_openFlags.
  - destruct (ws_message_flags rand ws frame now s) as [E|[[E _]|[[E _]|[_ [a' E]]]]];
      rewrite E; auto using firstRoundOK_forcedFlags, firstRoundOK_startFlags,
                            firstRoundOK_statusFlags.
  - destruct (ws_close_flags ws now s) as (n' & Hle & ->).
    now apply firstRoundOK_withSize.
  - destruct (tick_flags rand now s) as (n' & a' & Hle & [E|E]); rewrite E.
    + apply firstRoundOK_withSize; [now rewrite sessions_tickStartFlags|].
      now apply firstRoundOK_tickStartFlags.
    + apply firstRoundOK_statusFlags, firstRoundOK_withSize;
        [now rewrite sessions_tickStartFlags|].
      now apply firstRoundOK_tickStartFlags.
  - destruct (nth_error (timers s) k) as [t|]; [|exact H].
    destruct (runCallback_flags rand (callback t) now
                (setTimers (removeAt k (timers s)) s)) as [a' E].
    rewrite E, flags_setTimers.
    destruct (callback t);
      auto using firstRoundOK_resetFlags, firstRoundOK_startFlags,
                 firstRoundOK_statusFlags.
Qed.

Lemma reachable_firstRoundOK s : reachable rand randomUUID s -> firstRoundOK (flags s).
Proof.
  induction 1; [apply firstRoundOK_initial | now apply firstRoundOK_handle].
Qed.

End RoundInvariants.

(** A second client connects to [soloServer] at time 20: the round starts. *)
Definition duoServer : Server float :=
  handle halves decimalUUID 20 (EvOpen V) soloServer.

Lemma duoServer_reachable : reachable halves decimalUUID duoServer.
Proof. apply reach_handle, soloServer_reachable. Qed.

(** X1. Over every execution the round number never decreases and moves by
    at most one per event. A firing of the game-over reset (the 5 s closure
    of checkGameStatus) adds exactly one when at least MIN_PLAYERS_TO_START
    sessions are connected and nothing otherwise; the respawn timer and the
    status timer never change it; and whenever it changes, the event is that
    reset or a connect that found a game-over pending, and the gameOver flag
    is cleared afterwards. *)
Theorem roundNumber_step :
  forall (num : Type) (N : Number num) (rand : nat -> num) (randomUUID : nat -> string)
         (s : Server num) (now : Z) (e : Event),
    reachable rand randomUUID s ->
    let r := roundNumber (gameState s) in
    let s' := handle rand randomUUID now e s in
    let r' := roundNumber (gameState s') in
    (r <= r' <= S r)%nat
    /\ (forall k t, e = EvTimer k -> nth_error (timers s) k = Some t ->
        match callback t with
        | CbGameOverReset =>
            r' = if (MIN_PLAYERS_TO_START <=? size s)%nat then S r else r
        | _ => r' = r
        end)
    /\ (r' <> r ->
        gameOver (gameState s') = false
        /\ ((exists k t, e = EvTimer k /\ nth_error (timers s) k = Some t
                         /\ callback t = CbGameOverReset)
            \/ (exists ws, e = EvOpen ws /\ gameOver (gameState s) = true))).
Proof.
  intros num N rand randomUUID s now e Hr.
  exact (@rnd_handle num N rand randomUUID now e s (reachable_pendingOK Hr)).
Qed.

Lemma roundNumber_step_witness :
  (roundNumber (gameState soloServer)
   <= roundNumber (gameState (handle halves decimalUUID 20 (EvOpen V) soloServer))
   <= S (roundNumber (gameState soloServer)))%nat.
Proof.
  exact (proj1 (@roundNumber_step float float_Number halves decimalUUID soloServer 20
                  (EvOpen V) soloServer_reachable)).
Defined.

(** X2. In every reachable state a set gameOver flag means that the reset
    found fewer than MIN_PLAYERS_TO_START sessions: fewer than that many are
    connected and the server is waiting for players. *)
Theorem pending_gameOver_means_waiting :
  forall (num : Type) (N : Number num) (rand : nat -> num) (randomUUID : nat -> string)
         (s : Server num),
    reachable rand randomUUID s ->
    gameOver (gameState s) = true ->
    (size s < MIN_PLAYERS_TO_START)%nat /\ waitingForPlayers (gameState s) = true.
Proof.
  intros num N rand randomUUID s Hr. exact (reachable_pendingOK Hr).
Qed.

(** X3. Until the round number first increases, [waitingForPlayers] and
    [isActive] exclude each other in every reachable state, and a waiting
    server has fewer than MIN_PLAYERS_TO_START sessions. *)
Theorem first_round_flags_exclusive :
  forall (num : Type) (N : Number num) (rand : nat -> num) (randomUUID : nat -> string)
         (s : Server num),
    reachable rand randomUUID s ->
    roundNumber (gameState s) = 1%nat ->
    waitingForPlayers (gameState s) = true ->
    isActive (gameState s) = false /\ (size s < MIN_PLAYERS_TO_START)%nat.
Proof.
  intros num N rand randomUUID s Hr Hone Hw.
  pose proof (reachable_firstRoundOK Hr) as H. unfold firstRoundOK, flags in H.
  apply H; [exact Hone | exact Hw].
Qed.

Lemma first_round_flags_exclusive_witness :
  isActive (gameState soloServer) = false /\ (size soloServer < MIN_PLAYERS_TO_START)%nat.
Proof.
  apply (@first_round_flags_exclusive float float_Number halves decimalUUID soloServer
           soloServer_reachable); vm_compute; reflexivity.
Defined.

(** ** What a round restart does to the sessions *)

Section Restart.
Context {num : Type} {N : Number num}.
Variable rand : nat -> num.
Variable randomUUID : nat -> string.
Implicit Types (s : Server num) (now : Z).

Lemma players_broadcastPlayerStates now s :
  players (broadcastPlayerStates now s) = players s.
Proof.
  unfold broadcastPlayerStates. destruct (size s =? 0)%nat; [reflexivity|].
  cbn [players sendAll setOutbox].
  match goal with |- context [if ?c then setTimeout _ _ _ ?a else ?b] => destruct c end;
    cbn [players setTimeout setTimers];
    match goal with |- context [if ?c then _ else _] => destruct c end;
    reflexivity.
Qed.

Lemma gameState_broadcastPlayerStates now s :
  gameState (broadcastPlayerStates now s) = gameState s
  \/ gameState (broadcastPlayerStates now s) = setServerTime now (gameState s).
Proof.
  unfold broadcastPlayerStates. destruct (size s =? 0)%nat; [now left|]. right.
  cbn [gameState sendAll setOutbox].
  match goal with |- context [if ?c then setTimeout _ _ _ ?a else ?b] => destruct c end;
    cbn [gameState setTimeout setTimers];
    match goal with |- context [if ?c then _ else _] => destruct c end;
    reflexivity.
Qed.

Lemma food_broadcastPlayerStates now s :
  food (gameState (broadcastPlayerStates now s)) = food (gameState s).
Proof. destruct (gameState_broadcastPlayerStates now s) as [-> | ->]; reflexivity. Qed.

(** The spawn rectangle: [x] and [y] of a spawn position as functions of
    the two random draws. *)
Definition spawnAt (rx ry : num) : Position num :=
  mkPosition
    ((MAP_WIDTH - INITIAL_SPAWN_AREA_WIDTH) / fromZ 2 + rx * INITIAL_SPAWN_AREA_WIDTH)%num
    ((MAP_HEIGHT - INITIAL_SPAWN_AREA_HEIGHT) / fromZ 2 + ry * INITIAL_SPAWN_AREA_HEIGHT)%num.

Lemma spawnPosition_spawnAt s :
  fst (spawnPosition rand s) = spawnAt (rand (randomCalls s)) (rand (S (randomCalls s))).
Proof. reflexivity. Qed.

(** Each session after the reset of the game-over branch. *)
Definition wasReset now (e e' : Conn * PlayerState num) : Prop :=
  fst e' = fst e
  /\ exists k, snd e' = mkPlayer (id (snd e)) [mkSegment (spawnAt (rand k) (rand (S k)))]
                                 (fromZ 0) true now (kills (snd e)) (score (snd e)) O.

(** Each session after the respawn branch. *)
Definition wasRespawned now (e e' : Conn * PlayerState num) : Prop :=
  fst e' = fst e
  /\ (alive (snd e) = true -> snd e' = snd e)
  /\ (alive (snd e) = false ->
      exists k, snd e' = mkPlayer (id (snd e)) [mkSegment (spawnAt (rand k) (rand (S k)))]
                                  (fromZ 0) true now
                                  (kills (snd e)) (score (snd e)) (growth (snd e))).

Lemma resetAll_wasReset now ps s :
  Forall2 (wasReset now) ps (fst (resetAll rand now ps s)).
Proof.
  revert s. induction ps as [|[ws p] rest IH]; intros s; cbn; [constructor|].
  pose proof (spawnPosition_spawnAt s) as Hs.
  destruct (spawnPosition rand s) as [pos s1]. cbn in Hs.
  specialize (IH s1). destruct (resetAll rand now rest s1) as [rest' s2]. cbn in *.
  constructor; [|exact IH]. split; [reflexivity|].
  exists (randomCalls s). cbn. now rewrite Hs.
Qed.

Lemma respawnDead_wasRespawned now ps s :
  Forall2 (wasRespawned now) ps (fst (respawnDead rand now ps s)).
Proof.
  revert s. induction ps as [|[ws p] rest IH]; intros s; cbn; [constructor|].
  destruct (alive p) eqn:A.
  - specialize (IH s). destruct (respawnDead rand now rest s) as [rest' s1]. cbn in *.
    constructor; [|exact IH]. split; [reflexivity|]. cbn. split; [auto | congruence].
  - pose proof (spawnPosition_spawnAt s) as Hs.
    destruct (spawnPosition rand s) as [pos s1]. cbn in Hs.
    specialize (IH s1). destruct (respawnDead rand now rest s1) as [rest' s2]. cbn in *.
    constructor; [|exact IH]. split; [reflexivity|]. cbn. split; [congruence|].
    intros _. exists (randomCalls s). now rewrite Hs.
Qed.

Lemma startNewRound_players now s :
  players (startNewRound rand now s)
  = if (size s <? MIN_PLAYERS_TO_START)%nat then players s
    else if gameOver (gameState s)
         then fst (resetAll rand now (players s)
                     (snd (generateFood rand FOOD_COUNT
                             (withGame (fun g => setGameOver false
                                                   (setRoundNumber (S (roundNumber g)) g))
                                (withGame (fun g => setRoundEndTime None
                                                      (setWinner None (setIsActive true g)))
                                   s)))))
         else fst (respawnDead rand now (players s)
                     (withGame (fun g => setRoundEndTime None
                                           (setWinner None (setIsActive true g))) s)).
Proof.
  unfold startNewRound.
  destruct (size s <? MIN_PLAYERS_TO_START)%nat; [reflexivity|].
  rewrite players_broadcastPlayerStates. cbn [players broadcastAnnouncement sendAll
    setOutbox withGame setRecentAnnouncements gameState].
  destruct (gameOver (gameState s)) eqn:G.
  - replace (gameOver (setRoundEndTime None (setWinner None (setIsActive true (gameState s)))))
      with true by (cbn; now rewrite G).
    match goal with |- context [generateFood rand ?n ?t] =>
      pose proof (generateFood_frame rand n t) as Hg;
      destruct (generateFood rand n t) as [fd s1] end.
    cbn in Hg. destruct Hg as (Hp & _).
    cbn [snd players withGame].
    match goal with |- context [resetAll rand now ?ps ?t] =>
      destruct (resetAll rand now ps t) as [ps' s2] eqn:E1 end.
    match goal with |- context [resetAll rand now ?ps ?t] =>
      destruct (resetAll rand now ps t) as [ps'' s3] eqn:E2 end.
    cbn. rewrite Hp in E1. cbn in E1, E2.
    assert (forall t t', randomCalls t = randomCalls t' ->
              fst (resetAll rand now (players s) t) = fst (resetAll rand now (players s) t'))
      as Hind.
    { generalize (players s). intros l. induction l as [|[ws p] l IH]; intros t t' Hc;
        cbn; [reflexivity|].
      unfold spawnPosition, random. cbn. rewrite Hc.
      match goal with |- fst (let (_, _) := resetAll rand now l ?a in _)
                         = fst (let (_, _) := resetAll rand now l ?b in _) =>
        specialize (IH a b eq_refl);
        destruct (resetAll rand now l a); destruct (resetAll rand now l b) end.
      cbn in *. now rewrite IH. }
    change ps' with (fst (ps', s2)). change ps'' with (fst (ps'', s3)).
    rewrite <- E1, <- E2. apply Hind. reflexivity.
  - replace (gameOver (setRoundEndTime None (setWinner None (setIsActive true (gameState s)))))
      with false by (cbn; now rewrite G).
    match goal with |- context [respawnDead rand now ?ps ?t] =>
      destruct (respawnDead rand now ps t) as [ps' s2] end.
    reflexivity.
Qed.

Lemma food_broadcastAnnouncement text ty dur now s :
  food (gameState (broadcastAnnouncement text ty dur now s)) = food (gameState s).
Proof. reflexivity. Qed.

Lemma startNewRound_food now s :
  food (gameState (startNewRound rand now s))
  = if (size s <? MIN_PLAYERS_TO_START)%nat then food (gameState s)
    else if gameOver (gameState s)
         then fst (generateFood rand FOOD_COUNT
                     (withGame (fun g => setGameOver false
                                           (setRoundNumber (S (roundNumber g)) g))
                        (withGame (fun g => setRoundEndTime None
                                              (setWinner None (setIsActive true g))) s)))
         else food (gameState s).
Proof.
  unfold startNewRound.
  destruct (size s <? MIN_PLAYERS_TO_START)%nat; [reflexivity|].
  rewrite food_broadcastPlayerStates, food_broadcastAnnouncement.
  cbn [sendAll setOutbox withGame gameState].
  destruct (gameOver (gameState s)) eqn:G.
  - replace (gameOver (setRoundEndTime None (setWinner None (setIsActive true (gameState s)))))
      with true by (cbn; now rewrite G).
    match goal with |- context [generateFood rand ?n ?t] =>
      destruct (generateFood rand n t) as [fd s1] end.
    match goal with |- context [resetAll rand now ?ps ?t] =>
      pose proof (resetAll_spec rand now ps t) as Hr;
      destruct (resetAll rand now ps t) as [ps' s2] end.
    cbn [fst snd] in Hr. destruct Hr as (_ & _ & _ & Hgs & _).
    cbn [gameState setPlayers fst]. rewrite Hgs. reflexivity.
  - replace (gameOver (setRoundEndTime None (setWinner None (setIsActive true (gameState s)))))
      with false by (cbn; now rewrite G).
    match goal with |- context [respawnDead rand now ?ps ?t] =>
      pose proof (respawnDead_spec rand now ps t) as Hr;
      destruct (respawnDead rand now ps t) as [ps' s2] end.
    cbn [fst snd] in Hr. destruct Hr as (_ & _ & _ & Hgs & _).
    cbn [gameState setPlayers]. rewrite Hgs. reflexivity.
Qed.

End Restart.


Lemma Forall2_weaken {A B} (R R' : A -> B -> Prop) l l' :
  (forall a b, R a b -> R' a b) -> Forall2 R l l' -> Forall2 R' l l'.
Proof. intros HR. induction 1; constructor; auto. Qed.



(** X5. When the game-over reset fires with fewer than
    MIN_PLAYERS_TO_START sessions connected, kills and scores are zeroed and
    nothing else about the sessions changes; the round number and the food
    stay, the gameOver flag stays set, and the server waits for players. *)
Theorem gameOverReset_with_too_few_sessions :
  forall (num : Type) (N : Number num) (rand : nat -> num) (s : Server num) (now : Z),
    (size s < MIN_PLAYERS_TO_START)%nat ->
    let s' := gameOverReset rand now s in
    players s' = map (fun e => (fst e, setScore O (setKills O (snd e)))) (players s)
    /\ food (gameState s') = food (gameState s)
    /\ roundNumber (gameState s') = roundNumber (gameState s)
    /\ gameOver (gameState s') = true
    /\ isActive (gameState s') = false
    /\ waitingForPlayers (gameState s') = true.
Proof.
  intros num N rand s now Hn. cbv zeta.
  pose proof (gameOverReset_flags rand now s) as Hf.
  unfold resetFlags, startFlags, flags in Hf.
  replace (size s <? MIN_PLAYERS_TO_START)%nat with true in Hf
    by (symmetry; now apply Nat.ltb_lt).
  injection Hf as Hr Ha Hw Hg _.
  assert ((size (withGame (fun g => setGameOver true (setWaitingForPlayers true g))
                  (setPlayers (map (fun e => (fst e, setScore O (setKills O (snd e))))
                                   (players s)) s)) <? MIN_PLAYERS_TO_START)%nat
          = true)
    as Hsz.
  { apply Nat.ltb_lt. unfold size. cbn. now rewrite length_map. }
  split; [|split; [|now repeat split]].
  - unfold gameOverReset. rewrite startNewRound_players, Hsz. reflexivity.
  - unfold gameOverReset. rewrite startNewRound_food, Hsz. reflexivity.
Qed.

Lemma gameOverReset_with_too_few_sessions_witness :
  gameOver (gameState (gameOverReset halves 30 soloServer)) = true
  /\ waitingForPlayers (gameState (gameOverReset halves 30 soloServer)) = true.
Proof.
  destruct (@gameOverReset_with_too_few_sessions float float_Number halves soloServer 30)
    as (_ & _ & _ & Hg & _ & Hw).
  - vm_compute. apply le_n.
  - split; [exact Hg | exact Hw].
Defined.

Section RestartFacts.
Context {num : Type} {N : Number num}.
Variable rand : nat -> num.
Implicit Types (s : Server num) (now : Z).

Lemma startNewRound_clears_winner now s :
  (MIN_PLAYERS_TO_START <= size s)%nat ->
  winner (gameState (startNewRound rand now s)) = None
  /\ roundEndTime (gameState (startNewRound rand now s)) = None.
Proof.
  intros Hn. unfold startNewRound.
  replace (size s <? MIN_PLAYERS_TO_START)%nat with false
    by (symmetry; now apply Nat.ltb_ge).
  match goal with |- context [broadcastPlayerStates now ?t] =>
    assert (winner (gameState t) = None /\ roundEndTime (gameState t) = None) as Ht;
    [|destruct (gameState_broadcastPlayerStates now t) as [-> | ->]; exact Ht] end.
  match goal with
  | |- winner (gameState (broadcastAnnouncement _ _ _ _ (sendAll _ ?t))) = None /\ _ =>
      assert (winner (gameState t) = None /\ roundEndTime (gameState t) = None) as Ht;
      [|exact Ht]
  end.
  cbn [gameState withGame].
  destruct (gameOver _).
  - match goal with |- context [generateFood rand ?n ?t] =>
      pose proof (generateFood_frame rand n t) as Hg;
      destruct (generateFood rand n t) as [fd s1] end.
    cbn [snd] in Hg. destruct Hg as (_ & _ & Hgs & _).
    match goal with |- context [resetAll rand now ?ps ?t] =>
      pose proof (resetAll_spec rand now ps t) as Hr;
      destruct (resetAll rand now ps t) as [ps' s2] end.
    cbn [fst snd] in Hr. destruct Hr as (_ & _ & _ & Hgs' & _).
    cbn [gameState setPlayers]. rewrite Hgs'. cbn [gameState withGame]. rewrite Hgs.
    split; reflexivity.
  - match goal with |- context [respawnDead rand now ?ps ?t] =>
      pose proof (respawnDead_spec rand now ps t) as Hr;
      destruct (respawnDead rand now ps t) as [ps' s2] end.
    cbn [fst snd] in Hr. destruct Hr as (_ & _ & _ & Hgs' & _).
    cbn [gameState setPlayers]. rewrite Hgs'. split; reflexivity.
Qed.

End RestartFacts.

(** X6. A round restart that is not a game-over (enough sessions, gameOver
    flag clear) is a respawn: sessions that are alive are left exactly as
    they are; each dead session comes back alive with a single segment
    inside the spawn rectangle, heading 0 and a fresh activity stamp, and
    keeps its id, kills, score and pending growth. Food and round number do
    not change; the round is active with no winner and no end time. *)
Theorem startNewRound_respawns_only_the_dead :
  forall (num : Type) (N : Number num) (rand : nat -> num) (s : Server num) (now : Z),
    (MIN_PLAYERS_TO_START <= size s)%nat ->
    gameOver (gameState s) = false ->
    let s' := startNewRound rand now s in
    Forall2 (wasRespawned rand now) (players s) (players s')
    /\ food (gameState s') = food (gameState s)
    /\ roundNumber (gameState s') = roundNumber (gameState s)
    /\ isActive (gameState s') = true
    /\ winner (gameState s') = None
    /\ roundEndTime (gameState s') = None.
Proof.
  intros num N rand s now Hn Hg. cbv zeta.
  pose proof (startNewRound_flags rand now s) as Hf.
  unfold startFlags, flags in Hf.
  assert ((size s <? MIN_PLAYERS_TO_START)%nat = false) as Hlt by now apply Nat.ltb_ge.
  rewrite Hlt, Hg in Hf. injection Hf as Hr Ha _ _ _.
  destruct (startNewRound_clears_winner rand now s Hn) as [Hw He].
  repeat split; auto.
  - rewrite startNewRound_players, Hlt, Hg. apply respawnDead_wasRespawned.
  - now rewrite startNewRound_food, Hlt, Hg.
Qed.

Lemma startNewRound_respawns_only_the_dead_witness :
  Forall2 (wasRespawned halves 30) (players duoServer)
          (players (startNewRound halves 30 duoServer)).
Proof.
  apply (@startNewRound_respawns_only_the_dead float float_Number halves duoServer 30).
  - vm_compute. apply le_n.
  - vm_compute. reflexivity.
Defined.

(** ** The message handler's gates *)

(** X7. A forceStart frame never starts a round while fewer than
    MIN_PLAYERS_TO_START sessions are connected: the server state is either
    left exactly as it was (inactive game, unknown or dead sender), or the
    game ends up inactive and waiting for players, with the round number
    unchanged. *)
Theorem forceStart_needs_enough_sessions :
  forall (num : Type) (N : Number num) (rand : nat -> num) (s : Server num)
         (ws : Conn) (pos : option (Position num)) (rot : option num) (now : Z),
    (size s < MIN_PLAYERS_TO_START)%nat ->
    let s' := ws_message rand ws (JsonData (mkMovement TyForceStart pos rot)) now s in
    s' = s
    \/ (isActive (gameState s') = false
        /\ waitingForPlayers (gameState s') = true
        /\ roundNumber (gameState s') = roundNumber (gameState s)).
Proof.
  intros num N rand s ws pos rot now Hn. cbv zeta. unfold ws_message.
  assert ((MIN_PLAYERS_TO_START <=? size s)%nat = false) as Hle
    by (apply Nat.leb_gt; exact Hn).
  rewrite Hle, andb_false_r.
  destruct (getPlayer ws s) as [p|]; [|now left].
  destruct (negb (isActive (gameState s))); [now left|].
  destruct (negb (alive p)); [now left|].
  cbn [mtype]. right.
  match goal with |- context [startNewRound rand now ?t] =>
    pose proof (startNewRound_flags rand now t) as Hf end.
  rewrite flags_broadcastAnnouncement in Hf. unfold startFlags, flags in Hf.
  cbn [gameState withGame] in Hf.
  replace (size (withGame (fun g => setIsActive true (setWaitingForPlayers false g)) s))
    with (size s) in Hf by reflexivity.
  assert ((size s <? MIN_PLAYERS_TO_START)%nat = true) as Hlt by now apply Nat.ltb_lt.
  rewrite Hlt in Hf. injection Hf as Hr Ha Hw _ _. repeat split; assumption.
Qed.

Lemma forceStart_needs_enough_sessions_witness :
  ws_message halves M (JsonData (mkMovement TyForceStart None None)) 20 soloServer
  = soloServer
  \/ (isActive (gameState (ws_message halves M (JsonData (mkMovement TyForceStart None None))
                             20 soloServer)) = false
      /\ waitingForPlayers
           (gameState (ws_message halves M (JsonData (mkMovement TyForceStart None None))
                         20 soloServer)) = true
      /\ roundNumber
           (gameState (ws_message halves M (JsonData (mkMovement TyForceStart None None))
                         20 soloServer)) = roundNumber (gameState soloServer)).
Proof.
  apply (@forceStart_needs_enough_sessions float float_Number halves soloServer M None None 20).
  vm_compute. apply le_n.
Defined.

(** X8. While the game is active, a frame that parses is dropped without
    any effect when its sender is not in the store or is dead: no session,
    flag, timer or outbox entry changes. *)
Theorem frames_of_dead_or_unknown_senders_are_dropped :
  forall (num : Type) (N : Number num) (rand : nat -> num) (s : Server num)
         (ws : Conn) (data : MovementMessage num) (now : Z),
    isActive (gameState s) = true ->
    (forall p, getPlayer ws s = Some p -> alive p = false) ->
    ws_message rand ws (JsonData data) now s = s.
Proof.
  intros num N rand s ws data now Ha Hdead. unfold ws_message.
  rewrite Ha. cbn [negb andb].
  destruct (getPlayer ws s) as [p|]; [|reflexivity].
  now rewrite (Hdead p eq_refl).
Qed.

Lemma frames_of_dead_or_unknown_senders_are_dropped_witness :
  ws_message halves 7%nat (JsonData (mkMovement TyMovement None None)) 30 duoServer
  = duoServer.
Proof.
  apply (@frames_of_dead_or_unknown_senders_are_dropped float float_Number halves
           duoServer 7%nat (mkMovement TyMovement None None) 30).
  - vm_compute. reflexivity.
  - intros p. vm_compute. discriminate.
Defined.

(** X9. While the game is inactive and at least MIN_PLAYERS_TO_START
    sessions are connected, any frame that parses and comes from a connected
    client restarts play, whatever its type and also during the countdown
    that follows a win: the game becomes active, waitingForPlayers is
    cleared, winner and end time are erased, and the round number moves only
    if a game-over was pending. *)
Theorem any_frame_restarts_an_inactive_game :
  forall (num : Type) (N : Number num) (rand : nat -> num) (s : Server num)
         (ws : Conn) (p : PlayerState num) (data : MovementMessage num) (now : Z),
    isActive (gameState s) = false ->
    getPlayer ws s = Some p ->
    (MIN_PLAYERS_TO_START <= size s)%nat ->
    let s' := ws_message rand ws (JsonData data) now s in
    isActive (gameState s') = true
    /\ waitingForPlayers (gameState s') = false
    /\ gameOver (gameState s') = false
    /\ winner (gameState s') = None
    /\ roundEndTime (gameState s') = None
    /\ roundNumber (gameState s')
       = if gameOver (gameState s) then S (roundNumber (gameState s))
         else roundNumber (gameState s).
Proof.
  intros num N rand s ws p data now Ha Hp Hn. cbv zeta. unfold ws_message.
  rewrite Ha, Hp. cbn [negb andb].
  replace (MIN_PLAYERS_TO_START <=? size s)%nat with true
    by (symmetry; now apply Nat.leb_le).
  match goal with |- context [startNewRound rand now ?t] =>
    pose proof (startNewRound_flags rand now t) as Hf;
    destruct (startNewRound_clears_winner rand now t) as [Hw He];
    [exact Hn|] end.
  rewrite flags_broadcastAnnouncement in Hf. unfold startFlags, flags in Hf.
  cbn [gameState withGame] in Hf.
  replace (size (withGame (fun g => setIsActive true (setWaitingForPlayers false g)) s))
    with (size s) in Hf by reflexivity.
  assert ((size s <? MIN_PLAYERS_TO_START)%nat = false) as Hlt by now apply Nat.ltb_ge.
  rewrite Hlt in Hf. cbn in Hf. injection Hf as Hr Hact Hwait Hgo _.
  repeat split; assumption.
Qed.

(** Both clients of [duoServer] sit on the spawn point; M reports that
    position at time 30, the heads collide and the round pauses. *)
Definition pausedServer : Server float :=
  handle halves decimalUUID 30
    (EvMessage M (JsonData (mkMovement TyMovement
                              (Some (mkPosition 1200%float 900%float)) None)))
    duoServer.

Definition pausedPlayer : PlayerState float :=
  match getPlayer V pausedServer with
  | Some p => p
  | None => soloPlayer
  end.

Lemma pausedServer_reachable : reachable halves decimalUUID pausedServer.
Proof. apply reach_handle, duoServer_reachable. Qed.

Lemma any_frame_restarts_an_inactive_game_witness :
  isActive (gameState (ws_message halves V (JsonData (mkMovement TyOther None None)) 40
                         pausedServer)) = true.
Proof.
  apply (@any_frame_restarts_an_inactive_game float float_Number halves pausedServer V
           pausedPlayer (mkMovement TyOther None None) 40).
  - vm_compute. reflexivity.
  - vm_compute. reflexivity.
  - vm_compute. apply le_n.
Defined.

(** ** Kinematics *)

Section Kinematics.
Context {num : Type} {N : Number num}.
Implicit Types (p : PlayerState num) (segs : list (SnakeSegment num)).

(** The segment [applyGrowth] appends: a copy of the current tail. *)
Definition tailCopy segs : list (SnakeSegment num) :=
  match nth_error segs (List.length segs - 1) with
  | Some lastSegment =>
      [mkSegment (mkPosition (x (position lastSegment)) (y (position lastSegment)))]
  | None => []
  end.

Lemma applyGrowth_segments p :
  segments (applyGrowth p)
  = if (0 <? growth p)%nat then segments p ++ tailCopy (segments p) else segments p.
Proof.
  unfold applyGrowth, tailCopy.
  destruct (0 <? growth p)%nat; cbn [andb]; [|reflexivity].
  destruct (segments p) as [|h t] eqn:E; [cbn; exact E|].
  cbn [List.length Nat.ltb Nat.leb].
  destruct (nth_error (h :: t) _); cbn; [reflexivity | now rewrite E, app_nil_r].
Qed.

Lemma applyGrowth_growth p :
  segments p <> [] ->
  growth (applyGrowth p) = (growth p - (if (0 <? growth p)%nat then 1 else 0))%nat.
Proof.
  intros Hne. unfold applyGrowth.
  destruct (0 <? growth p)%nat; cbn [andb]; [|lia].
  destruct (segments p) as [|h t] eqn:E; [congruence|].
  cbn [List.length Nat.ltb Nat.leb].
  assert (nth_error (h :: t) (S (List.length t) - 1) <> None) as Hn.
  { apply nth_error_Some. cbn. lia. }
  destruct (nth_error (h :: t) _); [reflexivity | congruence].
Qed.

Lemma tailCopy_length segs : segs <> [] -> List.length (tailCopy segs) = 1%nat.
Proof.
  intros Hne. unfold tailCopy.
  assert (nth_error segs (List.length segs - 1) <> None) as Hn.
  { apply nth_error_Some. destruct segs; [congruence | cbn; lia]. }
  destruct (nth_error segs _); [reflexivity | congruence].
Qed.

Lemma rechain_nth prev rest i cur :
  nth_error rest i = Some cur ->
  exists prev',
    nth_error (prev :: rechain prev rest) i = Some prev'
    /\ nth_error (rechain prev rest) i = Some (follow prev' cur).
Proof.
  revert prev i. induction rest as [|c rest IH]; intros prev i H.
  - destruct i; discriminate.
  - destruct i as [|i]; cbn in *.
    + injection H as ->. now exists prev.
    + destruct (IH (follow prev c) _ H) as (prev' & H1 & H2). now exists prev'.
Qed.

End Kinematics.

(** X10. One kinematics step of a session with at least one segment: when
    growth is pending, exactly one segment, a copy of the tail, is appended
    before re-chaining and the counter goes down by one; otherwise the
    segment count and the counter stay. The head is never moved, and every
    later segment is the result of [follow] applied to its predecessor as
    already updated in this step. Nothing else in the session changes. *)
Theorem updateSnakeSegments_step :
  forall (num : Type) (N : Number num) (p : PlayerState num),
    segments p <> [] ->
    let q := updateSnakeSegments p in
    let grown := if (0 <? growth p)%nat then segments p ++ tailCopy (segments p)
                 else segments p in
    List.length (segments q)
    = (List.length (segments p) + (if (0 <? growth p)%nat then 1 else 0))%nat
    /\ growth q = (growth p - (if (0 <? growth p)%nat then 1 else 0))%nat
    /\ nth_error (segments q) 0 = nth_error (segments p) 0
    /\ (forall i prev cur,
          nth_error (segments q) i = Some prev ->
          nth_error grown (S i) = Some cur ->
          nth_error (segments q) (S i) = Some (follow prev cur))
    /\ id q = id p /\ rotation q = rotation p /\ alive q = alive p
    /\ lastUpdate q = lastUpdate p /\ kills q = kills p /\ score q = score p.
Proof.
  intros num N p Hne. cbv zeta.
  unfold updateSnakeSegments. cbn [segments setSegments growth id rotation alive
    lastUpdate kills score].
  rewrite updateSegmentPositions_length, applyGrowth_segments, (applyGrowth_growth p Hne).
  split; [|split; [reflexivity|split; [|split]]].
  - destruct (0 <? growth p)%nat; [|lia].
    rewrite length_app, (tailCopy_length Hne). reflexivity.
  - destruct (segments p) as [|h t] eqn:E; [congruence|].
    destruct (0 <? growth p)%nat; reflexivity.
  - intros i prev cur Hprev Hcur.
    set (grown := if (0 <? growth p)%nat then segments p ++ tailCopy (segments p)
                  else segments p) in *.
    destruct grown as [|h rest] eqn:G; [destruct i; discriminate|].
    cbn [updateSegmentPositions nth_error] in *.
    destruct (rechain_nth h rest i Hcur) as (prev' & H1 & H2).
    rewrite H2. congruence.
  - unfold applyGrowth. destruct (_ && _); [|now repeat split].
    destruct (nth_error _ _); now repeat split.
Qed.

Definition growingPlayer : PlayerState float := setGrowth 2 soloPlayer.

Lemma updateSnakeSegments_step_witness :
  List.length (segments (updateSnakeSegments growingPlayer)) = 2%nat
  /\ growth (updateSnakeSegments growingPlayer) = 1%nat.
Proof.
  destruct (@updateSnakeSegments_step float float_Number growingPlayer) as (Hl & Hg & _).
  - discriminate.
  - split; [exact Hl | exact Hg].
Defined.

(** *** The following rule over the real numbers *)

Section RealKinematics.
Local Open Scope R_scope.





End RealKinematics.


(** *** A game played to the end *)

(** The state after the inputs and everything due up to time [t]. *)
Definition stateAfter (t : Z) (inputs : list (Z * Input (num := float))) : Server float :=
  match settle t (run inputs) with
  | Some l => world l
  | None => soloServer
  end.

Lemma stateAfter_reachable t inputs : reachable halves decimalUUID (stateAfter t inputs).
Proof.
  unfold stateAfter. destruct (settle t (run inputs)) as [l|] eqn:E.
  - eapply settle_reachable; [|exact E]. intros l0 H0. now apply run_reachable in H0.
  - exact soloServer_reachable.
Qed.

(** M wins with ten kills at time 37000, V disconnects half a second later,
    and the reset fires at 42000 with M alone. *)
Definition abandonedServer : Server float :=
  stateAfter 42000 (tenKills ++ [(37500, InClose V)]).

Lemma pending_gameOver_means_waiting_witness :
  (size abandonedServer < MIN_PLAYERS_TO_START)%nat
  /\ waitingForPlayers (gameState abandonedServer) = true.
Proof.
  apply (@pending_gameOver_means_waiting float float_Number halves decimalUUID abandonedServer).
  - apply stateAfter_reachable.
  - vm_compute. reflexivity.
Defined.

(** ** The food pass *)

Section FoodPass.
Context {num : Type} {N : Number num}.
Variable rand : nat -> num.
Implicit Types (s : Server num) (ws : Conn) (now : Z) (p : PlayerState num).

(** What eating [k] food items adds to a session. *)
Definition gains (k : nat) p : PlayerState num :=
  setGrowth (growth p + k * FOOD_SEGMENTS_GROWTH)%nat
    (setScore (score p + k * FOOD_SCORE_VALUE)%nat p).

Lemma mapUpdate_ext ws (f g : PlayerState num -> PlayerState num) m :
  (forall p, f p = g p) -> mapUpdate ws f m = mapUpdate ws g m.
Proof.
  intros H. induction m as [|[k p] rest IH]; cbn; [reflexivity|].
  destruct (Nat.eqb k ws); [now rewrite H | now rewrite IH].
Qed.

Lemma mapUpdate_compose ws (f g : PlayerState num -> PlayerState num) m :
  mapUpdate ws f (mapUpdate ws g m) = mapUpdate ws (fun p => f (g p)) m.
Proof.
  induction m as [|[k p] rest IH]; cbn; [reflexivity|].
  destruct (Nat.eqb k ws) eqn:E; cbn; rewrite E; [reflexivity | now rewrite IH].
Qed.

Lemma mapUpdate_id ws (f : PlayerState num -> PlayerState num) m :
  (forall p, f p = p) -> mapUpdate ws f m = m.
Proof.
  intros H. induction m as [|[k p] rest IH]; cbn; [reflexivity|].
  destruct (Nat.eqb k ws); [now rewrite H | now rewrite IH].
Qed.

Lemma gains_zero p : gains 0 p = p.
Proof. destruct p. unfold gains. cbn. now rewrite !Nat.add_0_r. Qed.

Lemma gains_one_then k p :
  gains k (setGrowth (growth p + FOOD_SEGMENTS_GROWTH)%nat
             (setScore (score p + FOOD_SCORE_VALUE)%nat p))
  = gains (S k) p.
Proof.
  destruct p. unfold gains, FOOD_SEGMENTS_GROWTH, FOOD_SCORE_VALUE, setGrowth, setScore.
  cbn. f_equal; lia.
Qed.

(** The part of an [eatFood] call that follows the state updates only
    sends frames. *)
Lemma eatFood_core ws i now s :
  let s1 := updatePlayer ws (fun p =>
              setGrowth (growth p + FOOD_SEGMENTS_GROWTH)%nat
                (setScore (score p + FOOD_SCORE_VALUE)%nat p))
              (withGame (fun g => setFood (removeAt i (food g)) g) s) in
  let s' := eatFood rand ws i now s in
  players s' = players s1
  /\ food (gameState s') = removeAt i (food (gameState s)) ++ [fst (freshFood rand s1)]
  /\ randomCalls s' = S (S (randomCalls s))
  /\ timers s' = timers s /\ uuidCalls s' = uuidCalls s.
Proof.
  cbv zeta. unfold eatFood.
  match goal with |- context [freshFood rand ?t] => set (s1 := t) end.
  assert (snd (freshFood rand s1)
          = setRandomCalls (S (S (randomCalls s))) (setRandomCalls (S (randomCalls s)) s1))
    as Hsnd by reflexivity.
  destruct (freshFood rand s1) as [f s2]. cbn [fst snd] in *. subst s2.
  match goal with |- context [getPlayer ws ?t] => set (s3 := t) end.
  assert (players s3 = players s1
          /\ food (gameState s3) = removeAt i (food (gameState s)) ++ [f]
          /\ randomCalls s3 = S (S (randomCalls s))
          /\ timers s3 = timers s /\ uuidCalls s3 = uuidCalls s) as H3
    by (repeat split).
  destruct (getPlayer ws s3) as [player|]; [|exact H3].
  match goal with
  | |- context [find ?g (players ?t)] =>
      assert (players t = players s1
              /\ food (gameState t) = removeAt i (food (gameState s)) ++ [f]
              /\ randomCalls t = S (S (randomCalls s))
              /\ timers t = timers s /\ uuidCalls t = uuidCalls s) as H4;
      [|destruct (find g (players t)) as [[w ?]|]; exact H4]
  end.
  repeat match goal with |- context [if ?c then _ else _] => destruct c end; exact H3.
Qed.

Lemma filter_app_last {A} (f : A -> bool) l a :
  filter f (l ++ [a]) = filter f l ++ (if f a then [a] else []).
Proof. rewrite filter_app. reflexivity. Qed.

Lemma removeAt_middle {A} (pre : list A) a post :
  removeAt (List.length pre) (pre ++ a :: post) = pre ++ post.
Proof.
  unfold removeAt. rewrite firstn_app, firstn_all, Nat.sub_diag. cbn [firstn].
  rewrite app_nil_r.
  replace (S (List.length pre)) with (List.length (pre ++ [a]))
    by (rewrite length_app; cbn; lia).
  change (pre ++ a :: post) with (pre ++ [a] ++ post). rewrite app_assoc.
  rewrite skipn_app, skipn_all, Nat.sub_diag. reflexivity.
Qed.

Lemma nth_error_middle {A} (pre : list A) a post :
  nth_error (pre ++ a :: post) (List.length pre) = Some a.
Proof. rewrite nth_error_app2, Nat.sub_diag; [reflexivity | lia]. Qed.

(** The loop over the first [n] items, the others being already settled. *)
Lemma foodLoop_spec head ws now n :
  forall s pre post,
    food (gameState s) = pre ++ post ->
    List.length pre = n ->
    let s' := foodLoop rand head ws now n s in
    let k := List.length (filter (nearFood head) pre) in
    players s' = mapUpdate ws (gains k) (players s)
    /\ (exists fresh,
          List.length fresh = k
          /\ food (gameState s')
             = filter (fun f => negb (nearFood head f)) pre ++ post ++ fresh)
    /\ randomCalls s' = (randomCalls s + 2 * k)%nat
    /\ timers s' = timers s /\ uuidCalls s' = uuidCalls s.
Proof.
  induction n as [|n IH]; intros s pre post Hfood Hlen; cbv zeta.
  - destruct pre; [|discriminate]. cbn.
    split; [symmetry; apply mapUpdate_id, gains_zero|].
    split; [exists []; now rewrite app_nil_r|]. repeat split. lia.
  - destruct (rev pre) as [|a rpre] eqn:Erev.
    { apply (f_equal (@List.length _)) in Erev. rewrite length_rev in Erev.
      cbn in Erev. lia. }
    assert (pre = rev rpre ++ [a]) as Hpre.
    { rewrite <- (rev_involutive pre), Erev. reflexivity. }
    set (pre' := rev rpre) in *. subst pre.
    rewrite length_app in Hlen. cbn in Hlen.
    assert (n = List.length pre') as Hlen' by lia. subst n. clear Hlen.
    rewrite <- app_assoc in Hfood. cbn [app] in Hfood.
    cbn [foodLoop]. rewrite Hfood, nth_error_middle.
    rewrite !filter_app_last.
    destruct (nearFood head a) eqn:Enear; cbn [negb].
    + destruct (eatFood_core ws (List.length pre') now s) as (Hp & Hf & Hr & Ht & Hu).
      rewrite Hfood, removeAt_middle in Hf.
      rewrite <- app_assoc in Hf.
      destruct (IH (eatFood rand ws (List.length pre') now s) pre' _ Hf eq_refl)
        as (Hp' & (fresh & Hfl & Hff) & Hr' & Ht' & Hu').
      rewrite length_app. cbn [List.length].
      split; [|split; [|split; [|split]]].
      * rewrite Hp', Hp. cbn [players updatePlayer setPlayers withGame].
        rewrite mapUpdate_compose. apply mapUpdate_ext. intros p.
        rewrite gains_one_then. f_equal. lia.
      * eexists (_ :: fresh). split; [cbn; rewrite Hfl; lia|].
        rewrite Hff, app_nil_r, <- !app_assoc. reflexivity.
      * rewrite Hr', Hr. lia.
      * congruence.
      * congruence.
    + destruct (IH s pre' (a :: post) Hfood eq_refl)
        as (Hp' & (fresh & Hfl & Hff) & Hr' & Ht' & Hu').
      rewrite length_app. cbn [List.length]. rewrite Nat.add_0_r.
      split; [exact Hp'|]. split; [|now repeat split].
      exists fresh. split; [exact Hfl|]. rewrite Hff, <- !app_assoc. reflexivity.
Qed.

End FoodPass.

Lemma filter_split_length {A} (f : A -> bool) l :
  (List.length (filter (fun a => negb (f a)) l) + List.length (filter f l))%nat
  = List.length l.
Proof. induction l as [|a l IH]; cbn; [reflexivity|]. destruct (f a); cbn; lia. Qed.

(** X12. One food pass for a live session with a head: every food item
    within SEGMENT_RADIUS + FOOD_RADIUS of the head is removed and replaced
    by one fresh item at the end of the list, so the number of food items is
    unchanged and the items out of range keep their order at the front; with
    k items eaten the session's score grows by k and its pending growth by
    2k, nothing else in the session store changes, and 2k random numbers
    are drawn. *)
Theorem food_pass :
  forall (num : Type) (N : Number num) (rand : nat -> num) (s : Server num)
         (ws : Conn) (now : Z) (p : PlayerState num)
         (headSegment : SnakeSegment num) (rest : list (SnakeSegment num)),
    getPlayer ws s = Some p ->
    alive p = true ->
    segments p = headSegment :: rest ->
    let s' := checkFoodCollisions rand ws now s in
    let near := nearFood (position headSegment) in
    let k := List.length (filter near (food (gameState s))) in
    List.length (food (gameState s')) = List.length (food (gameState s))
    /\ (exists fresh,
          List.length fresh = k
          /\ food (gameState s')
             = filter (fun f => negb (near f)) (food (gameState s)) ++ fresh)
    /\ players s' = mapUpdate ws (gains k) (players s)
    /\ randomCalls s' = (randomCalls s + 2 * k)%nat.
Proof.
  intros num N rand s ws now p h rest Hp Ha Hs. cbv zeta.
  unfold checkFoodCollisions. rewrite Hp, Ha, Hs. cbn [negb].
  destruct (@foodLoop_spec num N rand (position h) ws now _ s (food (gameState s)) []
              (eq_sym (app_nil_r _)) eq_refl)
    as (Hpl & (fresh & Hfl & Hff) & Hr & _).
  cbn [app] in Hff.
  split; [|split; [|split]]; auto.
  - rewrite Hff, length_app, Hfl. apply filter_split_length.
  - now exists fresh.
Qed.

Lemma food_pass_witness :
  List.length (food (gameState (checkFoodCollisions halves M 30 duoServer)))
  = List.length (food (gameState duoServer)).
Proof.
  apply (@food_pass float float_Number halves duoServer M 30 soloPlayer
           (mkSegment (mkPosition 1200%float 900%float)) []).
  - vm_compute. reflexivity.
  - reflexivity.
  - reflexivity.
Defined.

(** ** Session ids *)

Section Ids.
Context {num : Type} {N : Number num}.
Variable rand : nat -> num.
Variable randomUUID : nat -> string.
Hypothesis randomUUID_inj : forall a b, randomUUID a = randomUUID b -> a = b.
Implicit Types (s : Server num) (ws : Conn) (now : Z).

Lemma idsFresh_ws_open ws now s :
  idsFresh randomUUID s -> idsFresh randomUUID (ws_open rand randomUUID ws now s).
Proof.
  intros [Hn Hf]. destruct (ws_open_shape rand randomUUID ws now s)
    as (pos & s3 & Hp & Hu & Hg & Hkeep).
  eapply keeps_idsFresh; [exact Hkeep|]. split; rewrite Hp.
  - apply (mapSet_ids_NoDup rand randomUUID); [|now apply NoDup_map_filter].
    cbn [id]. intros Hin. apply in_map_iff in Hin. destruct Hin as (e & He & Hin).
    apply filter_In in Hin. destruct Hin as [Hin _].
    rewrite Forall_forall in Hf. destruct (Hf e Hin) as (k & Hk & Hid).
    rewrite Hid in He. apply randomUUID_inj in He. lia.
  - rewrite Hu. apply mapSet_Forall.
    + exists (uuidCalls s). split; [lia | reflexivity].
    + intros k. exists (uuidCalls s). split; [lia | reflexivity].
    + apply Forall_filter. eapply Forall_impl; [|exact Hf].
      intros e (k & Hk & Hid). exists k. split; [lia | exact Hid].
Qed.

Lemma idsFresh_handle now e s :
  idsFresh randomUUID s -> idsFresh randomUUID (handle rand randomUUID now e s).
Proof.
  intros H. destruct e as [ws|ws frame|ws| |k]; cbn [handle].
  - now apply idsFresh_ws_open.
  - eapply keeps_idsFresh; [apply keeps_ws_message, keeps_refl | exact H].
  - unfold ws_close.
    eapply keeps_idsFresh;
      [apply keeps_setTimeout, keeps_broadcastPlayerStates, keeps_refl|].
    destruct H as [Hn Hf].
    split; cbn; unfold mapDelete; [now apply NoDup_map_filter | now apply Forall_filter].
  - destruct (tick_shape rand now s) as (s1 & H1 & H2).
    eapply keeps_idsFresh; [exact H2|]. apply idsFresh_reap.
    eapply keeps_idsFresh; eauto.
  - destruct (nth_error (timers s) k); [|exact H].
    eapply keeps_idsFresh; [apply keeps_runCallback, keeps_setTimers, keeps_refl | exact H].
Qed.

Lemma idsFresh_initial t0 : idsFresh randomUUID (initial rand t0).
Proof.
  unfold initial.
  match goal with |- context [generateFood rand ?n ?t] =>
    pose proof (generateFood_frame rand n t) as Hg;
    destruct (generateFood rand n t) as [fd s1] end.
  cbn in Hg. destruct Hg as (Hp & _). split; cbn; rewrite Hp; constructor.
Qed.

Lemma reachable_idsFresh s : reachable rand randomUUID s -> idsFresh randomUUID s.
Proof.
  induction 1; [apply idsFresh_initial | now apply idsFresh_handle].
Qed.

End Ids.

Lemma find_by_id {num : Type} (m : list (Conn * PlayerState num)) ws p :
  NoDup (map (fun e => id (snd e)) m) ->
  lookup ws m = Some p ->
  find (fun e => String.eqb (id (snd e)) (id p)) m = Some (ws, p).
Proof.
  induction m as [|[k q] rest IH]; cbn; [discriminate|].
  intros Hnd Hl. inversion Hnd as [|? ? Hnotin Hnd']; subst.
  destruct (Nat.eqb k ws) eqn:E.
  - apply Nat.eqb_eq in E. subst k. injection Hl as ->. now rewrite String.eqb_refl.
  - destruct (String.eqb (id q) (id p)) eqn:Eid.
    + apply String.eqb_eq in Eid. exfalso. apply Hnotin.
      apply lookup_In in Hl. apply in_map_iff. exists (ws, p). auto.
    + now apply IH.
Qed.

(** X13. If the id generator never returns the same id twice, then in
    every reachable state no two sessions share an id (and no connection
    appears twice in the store). *)
Theorem session_ids_are_unique :
  forall (num : Type) (N : Number num) (rand : nat -> num) (randomUUID : nat -> string)
         (s : Server num),
    (forall a b, randomUUID a = randomUUID b -> a = b) ->
    reachable rand randomUUID s ->
    NoDup (map (fun e => id (snd e)) (players s))
    /\ NoDup (map fst (players s)).
Proof.
  intros num N rand randomUUID s Hinj Hr. split.
  - exact (proj1 (reachable_idsFresh Hinj Hr)).
  - exact (proj1 (reachable_wellFormed Hr)).
Qed.

Lemma session_ids_are_unique_witness :
  NoDup (map (fun e => id (snd e)) (players duoServer))
  /\ NoDup (map fst (players duoServer)).
Proof.
  apply (@session_ids_are_unique float float_Number halves decimalUUID duoServer).
  - exact decimalUUID_inj.
  - exact duoServer_reachable.
Defined.

Definition isAnnouncementFrame {num : Type} (o : Output num) : Prop :=
  exists w a, o = Send w (MAnnouncement a).

Lemma broadcastAnnouncement_outbox {num : Type} text ty dur now (s : Server num) :
  exists anns,
    outbox (broadcastAnnouncement text ty dur now s) = outbox s ++ anns
    /\ Forall isAnnouncementFrame anns.
Proof.
  exists (map (fun e => Send (fst e) (MAnnouncement (mkAnnouncement text ty dur))) (players s)).
  split; [reflexivity|]. apply Forall_forall. intros o Ho.
  apply in_map_iff in Ho. destruct Ho as (e & <- & _). now exists (fst e), (mkAnnouncement text ty dur).
Qed.

(** X14. In a reachable state, when the id generator never repeats, a food
    item eaten by the session stored under a connection produces exactly
    one foodEaten frame, sent on that connection and carrying the new score
    and total length; whatever else the call sends are announcement frames,
    and they come first. *)
Theorem foodEaten_goes_to_the_eater :
  forall (num : Type) (N : Number num) (rand : nat -> num) (randomUUID : nat -> string)
         (s : Server num) (ws : Conn) (p : PlayerState num) (i : nat) (now : Z),
    (forall a b, randomUUID a = randomUUID b -> a = b) ->
    reachable rand randomUUID s ->
    getPlayer ws s = Some p ->
    exists announcements,
      outbox (eatFood rand ws i now s)
      = outbox s ++ announcements
        ++ [Send ws (MFoodEaten (score p + 1)
                       (List.length (segments p) + (growth p + 2)) "grow")]
      /\ Forall isAnnouncementFrame announcements.
Proof.
  intros num N rand randomUUID s ws p i now Hinj Hr Hp.
  destruct (reachable_idsFresh Hinj Hr) as [Hids _].
  unfold eatFood.
  match goal with |- context [freshFood rand ?t] => set (s1 := t) end.
  assert (snd (freshFood rand s1)
          = setRandomCalls (S (S (randomCalls s))) (setRandomCalls (S (randomCalls s)) s1))
    as Hsnd by reflexivity.
  destruct (freshFood rand s1) as [f s2]. cbn [snd] in Hsnd. subst s2.
  set (p' := setGrowth (growth p + FOOD_SEGMENTS_GROWTH)%nat
               (setScore (score p + FOOD_SCORE_VALUE)%nat p)).
  assert (lookup ws (players s1) = Some p') as Hl.
  { unfold s1. cbn [players updatePlayer setPlayers withGame].
    rewrite lookup_mapUpdate_same. unfold getPlayer in Hp. now rewrite Hp. }
  assert (NoDup (map (fun e => id (snd e)) (players s1))) as Hids1.
  { unfold s1. cbn [players updatePlayer setPlayers withGame].
    erewrite <- sameRoster_ids; [exact Hids|].
    apply sameRoster_mapUpdate. intros q. split; auto. }
  match goal with |- context [getPlayer ws ?t] =>
    replace (getPlayer ws t) with (Some p') by (symmetry; exact Hl) end.
  match goal with
  | |- context [find ?g (players ?t)] =>
      assert (players t = players s1
              /\ exists anns, outbox t = outbox s ++ anns /\ Forall isAnnouncementFrame anns)
        as [Hpt (anns & Hout & Hann)]
  end.
  { assert (forall t0 : Server num,
              (players t0 = players s1
               /\ exists anns, outbox t0 = outbox s ++ anns
                               /\ Forall isAnnouncementFrame anns) ->
              forall text ty dur,
                players (broadcastAnnouncement text ty dur now t0) = players s1
                /\ exists anns, outbox (broadcastAnnouncement text ty dur now t0)
                                = outbox s ++ anns
                                /\ Forall isAnnouncementFrame anns) as Hstep.
    { intros t0 [Hp0 (a0 & Ho0 & Ha0)] text ty dur. split; [exact Hp0|].
      destruct (broadcastAnnouncement_outbox text ty dur now t0) as (a1 & Ho1 & Ha1).
      exists (a0 ++ a1). split; [now rewrite Ho1, Ho0, app_assoc|].
      apply Forall_app. auto. }
    assert (players (withGame (fun g => setFood (food g ++ [f]) g)
                       (setRandomCalls (S (S (randomCalls s)))
                          (setRandomCalls (S (randomCalls s)) s1))) = players s1
            /\ exists anns,
                 outbox (withGame (fun g => setFood (food g ++ [f]) g)
                           (setRandomCalls (S (S (randomCalls s)))
                              (setRandomCalls (S (randomCalls s)) s1)))
                 = outbox s ++ anns /\ Forall isAnnouncementFrame anns) as H0.
    { split; [reflexivity|]. exists []. split; [now rewrite app_nil_r | constructor]. }
    repeat match goal with |- context [if ?c then _ else _] => destruct c end;
      auto. }
  rewrite Hpt, (@find_by_id num (players s1) ws p' Hids1 Hl).
  exists anns. split; [|exact Hann].
  cbn [outbox send setOutbox]. rewrite Hout, app_assoc. reflexivity.
Qed.

Lemma foodEaten_goes_to_the_eater_witness :
  exists announcements,
    outbox (eatFood halves M 0 30 duoServer)
    = outbox duoServer ++ announcements
      ++ [Send M (MFoodEaten (score soloPlayer + 1)
                    (List.length (segments soloPlayer) + (growth soloPlayer + 2)) "grow")]
    /\ Forall isAnnouncementFrame announcements.
Proof.
  apply (@foodEaten_goes_to_the_eater float float_Number halves decimalUUID duoServer M
           soloPlayer 0%nat 30).
  - exact decimalUUID_inj.
  - exact duoServer_reachable.
  - vm_compute. reflexivity.
Defined.

(** ** The snake collision pass *)

Ltac case_if :=
  match goal with
  | |- context [if ?c then _ else _] => destruct c eqn:?
  end.

Ltac case_player :=
  match goal with
  | |- context [match getPlayer ?k ?t with Some _ => _ | None => _ end] =>
      destruct (getPlayer k t)
  end.

Section Collisions.
Context {num : Type} {N : Number num}.
Implicit Types (s : Server num) (ws cur a k : Conn) (now : Z) (p : PlayerState num).

(** What the pass may do to a session: take its life and add to its
    counters; identity, body, heading and activity stamp stay. *)
Definition noWorse p p' : Prop :=
  id p' = id p /\ segments p' = segments p /\ rotation p' = rotation p
  /\ lastUpdate p' = lastUpdate p
  /\ (alive p' = true -> alive p = true)
  /\ (kills p <= kills p')%nat /\ (score p <= score p')%nat
  /\ (growth p <= growth p')%nat.

Definition passEntry cur (e e' : Conn * PlayerState num) : Prop :=
  fst e' = fst e /\ noWorse (snd e) (snd e')
  /\ (fst e <> cur -> alive (snd e) = false -> snd e' = snd e).

Definition liveAt s k : Prop :=
  exists p, getPlayer k s = Some p /\ alive p = true.

(** The frames of a pass: announcements to anybody, died and kill frames to
    the mover or to a session that was alive when the pass began. *)
Definition passFrame cur s0 (o : Output num) : Prop :=
  match o with
  | Send _ (MAnnouncement _) => True
  | Send k (MDied _ _) | Send k (MKill _ _ _ _) => k = cur \/ liveAt s0 k
  | _ => False
  end.

Definition sameGame (g g' : GameState num) : Prop :=
  setLastAnnouncementTime (lastAnnouncementTime g) g' = g.

Definition pass cur s0 s : Prop :=
  Forall2 (passEntry cur) (players s0) (players s)
  /\ sameGame (gameState s0) (gameState s)
  /\ timers s = timers s0 /\ randomCalls s = randomCalls s0
  /\ exists added, outbox s = outbox s0 ++ added /\ Forall (passFrame cur s0) added.

Lemma noWorse_refl p : noWorse p p.
Proof. unfold noWorse. repeat split; auto. Qed.

Lemma noWorse_trans p1 p2 p3 : noWorse p1 p2 -> noWorse p2 p3 -> noWorse p1 p3.
Proof.
  unfold noWorse. intros (a1 & a2 & a3 & a4 & a5 & a6 & a7 & a8)
                         (b1 & b2 & b3 & b4 & b5 & b6 & b7 & b8).
  repeat split; try congruence; try lia. auto.
Qed.

Lemma passEntry_refl cur e : passEntry cur e e.
Proof. unfold passEntry. split; [|split]; auto using noWorse_refl. Qed.

Lemma passEntry_trans cur e1 e2 e3 :
  passEntry cur e1 e2 -> passEntry cur e2 e3 -> passEntry cur e1 e3.
Proof.
  intros (a1 & a2 & a3) (b1 & b2 & b3). split; [|split].
  - congruence.
  - eapply noWorse_trans; eauto.
  - intros Hk Hd. specialize (a3 Hk Hd). rewrite a3 in *.
    apply b3; [congruence | exact Hd].
Qed.

Lemma passEntries_refl cur (m : list (Conn * PlayerState num)) :
  Forall2 (passEntry cur) m m.
Proof. induction m; constructor; auto using passEntry_refl. Qed.

Lemma passEntries_trans cur (m1 m2 m3 : list (Conn * PlayerState num)) :
  Forall2 (passEntry cur) m1 m2 -> Forall2 (passEntry cur) m2 m3 ->
  Forall2 (passEntry cur) m1 m3.
Proof.
  intros H. revert m3. induction H; intros m3 H'; inversion H'; subst; constructor.
  - eapply passEntry_trans; eauto.
  - auto.
Qed.

Lemma passEntries_lookup cur (m m' : list (Conn * PlayerState num)) k p :
  Forall2 (passEntry cur) m m' -> lookup k m = Some p ->
  exists p', lookup k m' = Some p' /\ passEntry cur (k, p) (k, p').
Proof.
  induction 1 as [|[k0 p0] [k1 p1] m m' (Hk & Hw & Hd) _ IH]; cbn; [discriminate|].
  cbn in Hk. subst k1. destruct (Nat.eqb k0 k) eqn:E.
  - apply Nat.eqb_eq in E. subst k0. intros [= ->]. exists p1.
    split; [reflexivity|]. split; [|split]; auto.
  - exact IH.
Qed.

Lemma passEntries_lookup_back cur (m m' : list (Conn * PlayerState num)) k p' :
  Forall2 (passEntry cur) m m' -> lookup k m' = Some p' ->
  exists p, lookup k m = Some p /\ passEntry cur (k, p) (k, p').
Proof.
  induction 1 as [|[k0 p0] [k1 p1] m m' (Hk & Hw & Hd) _ IH]; cbn; [discriminate|].
  cbn in Hk. subst k1. destruct (Nat.eqb k0 k) eqn:E.
  - apply Nat.eqb_eq in E. subst k0. intros [= ->]. exists p0.
    split; [reflexivity|]. split; [|split]; auto.
  - exact IH.
Qed.

Lemma liveAt_back cur s0 s k :
  Forall2 (passEntry cur) (players s0) (players s) -> liveAt s k -> liveAt s0 k.
Proof.
  intros H (p' & Hl & Ha). destruct (passEntries_lookup_back k H Hl) as (p & Hl0 & _ & Hw & _).
  exists p. split; [exact Hl0|]. now apply Hw.
Qed.

Lemma passFrame_back cur s0 s o :
  Forall2 (passEntry cur) (players s0) (players s) ->
  passFrame cur s o -> passFrame cur s0 o.
Proof.
  intros H. destruct o as [k m|k]; [|exact (fun x => x)].
  destruct m; cbn; auto; intros [Hc | Hl]; auto; right; eapply liveAt_back; eauto.
Qed.

Lemma sameGame_refl (g : GameState num) : sameGame g g.
Proof. unfold sameGame. now destruct g. Qed.

Lemma sameGame_trans (g1 g2 g3 : GameState num) :
  sameGame g1 g2 -> sameGame g2 g3 -> sameGame g1 g3.
Proof.
  unfold sameGame. intros H1 H2. rewrite <- H1 at 2. rewrite <- H2.
  destruct g3. reflexivity.
Qed.

Lemma pass_refl cur s : pass cur s s.
Proof.
  repeat split; auto using passEntries_refl, sameGame_refl.
  exists []. now rewrite app_nil_r.
Qed.

Lemma pass_trans cur s0 s1 s2 : pass cur s0 s1 -> pass cur s1 s2 -> pass cur s0 s2.
Proof.
  intros (a1 & a2 & a3 & a4 & o1 & a5 & a6) (b1 & b2 & b3 & b4 & o2 & b5 & b6).
  repeat split; try congruence.
  - eapply passEntries_trans; eauto.
  - eapply sameGame_trans; eauto.
  - exists (o1 ++ o2). split; [rewrite b5, a5; now rewrite app_assoc|].
    apply Forall_app. split; [exact a6|].
    eapply Forall_impl; [|exact b6]. intros o. now apply passFrame_back.
Qed.

Lemma passEntries_mapUpdate cur k f (m : list (Conn * PlayerState num)) :
  (forall p, lookup k m = Some p -> passEntry cur (k, p) (k, f p)) ->
  Forall2 (passEntry cur) m (mapUpdate k f m).
Proof.
  induction m as [|[k0 p0] rest IH]; cbn; intros H; [constructor|].
  destruct (Nat.eqb k0 k) eqn:E.
  - apply Nat.eqb_eq in E. subst k0. constructor; [|apply passEntries_refl].
    apply H. reflexivity.
  - constructor; [apply passEntry_refl | apply IH, H].
Qed.

Lemma pass_updatePlayer cur s0 s k f :
  pass cur s0 s ->
  (forall p, getPlayer k s = Some p -> passEntry cur (k, p) (k, f p)) ->
  pass cur s0 (updatePlayer k f s).
Proof.
  intros H Hf. eapply pass_trans; [exact H|].
  repeat split; cbn; auto using sameGame_refl.
  - now apply passEntries_mapUpdate.
  - exists []. now rewrite app_nil_r.
Qed.

Lemma pass_send cur s0 s k m :
  pass cur s0 s -> passFrame cur s0 (Send k m) -> pass cur s0 (send k m s).
Proof.
  intros (a1 & a2 & a3 & a4 & o1 & a5 & a6) Hm.
  repeat split; cbn; auto.
  exists (o1 ++ [Send k m]). split; [now rewrite a5, app_assoc|].
  apply Forall_app. split; [exact a6 | now constructor].
Qed.

Lemma pass_broadcastAnnouncement cur s0 s text ty dur now :
  pass cur s0 s -> pass cur s0 (broadcastAnnouncement text ty dur now s).
Proof.
  intros H. eapply pass_trans; [exact H|].
  unfold broadcastAnnouncement, sendAll. repeat split; cbn; auto using passEntries_refl.
  - unfold sameGame. now destruct (gameState s).
  - eexists. split; [reflexivity|]. apply Forall_forall. intros o Ho.
    apply in_map_iff in Ho. destruct Ho as (e & <- & _). exact I.
Qed.

Lemma getPlayer_updatePlayer_same k f s :
  getPlayer k (updatePlayer k f s) = option_map f (getPlayer k s).
Proof. apply lookup_mapUpdate_same. Qed.

Lemma getPlayer_updatePlayer_other k k' f s :
  k' <> k -> getPlayer k' (updatePlayer k f s) = getPlayer k' s.
Proof. apply lookup_mapUpdate_other. Qed.

Lemma dies_noWorse p : noWorse p (setAlive false p).
Proof. unfold noWorse. cbn. repeat split; auto. discriminate. Qed.

Lemma credit_noWorse p pts :
  noWorse p (setGrowth (growth p + KILL_SEGMENTS_GROWTH)%nat
               (setScore (score p + pts)%nat (setKills (S (kills p)) p))).
Proof. unfold noWorse. cbn. repeat split; auto; lia. Qed.

Ltac pass_step :=
  lazymatch goal with
  | H : pass ?c ?a ?b |- pass ?c ?a ?b => exact H
  | |- pass _ ?a ?a => apply pass_refl
  | |- pass _ _ (broadcastAnnouncement _ _ _ _ _) => apply pass_broadcastAnnouncement
  | |- pass _ _ (send _ _ _) => apply pass_send
  end.

Section OneIteration.
Variables (cur a : Conn) (now : Z) (s0 : Server num).
Implicit Types (t : Server num) (pa : PlayerState num).
Hypothesis Hne : a <> cur.
Hypothesis Hlive0 : liveAt s0 a.

Lemma mover_entry t f :
  (forall p, noWorse p (f p)) ->
  forall p, getPlayer cur t = Some p -> passEntry cur (cur, p) (cur, f p).
Proof.
  intros Hf p _. split; [|split]; [reflexivity | apply Hf |]. cbn. intros Hk. now elim Hk.
Qed.

Lemma other_entry t pa f :
  getPlayer a t = Some pa -> alive pa = true -> (forall p, noWorse p (f p)) ->
  forall p, getPlayer a t = Some p -> passEntry cur (a, p) (a, f p).
Proof.
  intros H1 Hl Hf p Hp. rewrite H1 in Hp. injection Hp as <-.
  split; [|split]; [reflexivity | apply Hf |]. cbn. intros _ Hd. congruence.
Qed.

Ltac pass_frames :=
  repeat case_player;
  repeat first [pass_step | case_if | cbn; auto using Hlive0].

Lemma pass_headCollision t pa :
  pass cur s0 t -> getPlayer a t = Some pa -> alive pa = true ->
  pass cur s0 (headCollision cur a now t).
Proof.
  intros Ht Hpa Hlive. unfold headCollision.
  set (s1 := updatePlayer cur (setAlive false) t).
  assert (pass cur s0 s1) as H1.
  { apply pass_updatePlayer; [exact Ht|]. apply mover_entry, dies_noWorse. }
  assert (getPlayer a s1 = Some pa) as Ha1.
  { unfold s1. now rewrite getPlayer_updatePlayer_other. }
  set (s2 := updatePlayer a (setAlive false) s1).
  assert (pass cur s0 s2) as H2.
  { apply pass_updatePlayer; [exact H1|]. eapply other_entry; eauto using dies_noWorse. }
  clearbody s2. clear Ht H1 Ha1 Hpa. pass_frames.
Qed.

Lemma pass_moverKilled t pa :
  pass cur s0 t -> getPlayer a t = Some pa -> alive pa = true ->
  pass cur s0 (moverKilled cur a now t).
Proof.
  intros Ht Hpa Hlive. unfold moverKilled.
  set (s1 := updatePlayer cur (setAlive false) t).
  assert (pass cur s0 s1) as H1.
  { apply pass_updatePlayer; [exact Ht|]. apply mover_entry, dies_noWorse. }
  assert (getPlayer a s1 = Some pa) as Ha1.
  { unfold s1. now rewrite getPlayer_updatePlayer_other. }
  match goal with |- context [updatePlayer a ?f s1] => set (s2 := updatePlayer a f s1) end.
  assert (pass cur s0 s2) as H2.
  { apply pass_updatePlayer; [exact H1|]. eapply other_entry; eauto.
    intros p. apply credit_noWorse. }
  clearbody s2. clear Ht H1 Ha1 Hpa. pass_frames.
Qed.

Lemma pass_otherKilled t pa :
  pass cur s0 t -> getPlayer a t = Some pa -> alive pa = true ->
  pass cur s0 (otherKilled cur a t).
Proof.
  intros Ht Hpa Hlive. unfold otherKilled.
  set (s1 := updatePlayer a (setAlive false) t).
  assert (pass cur s0 s1) as H1.
  { apply pass_updatePlayer; [exact Ht|]. eapply other_entry; eauto using dies_noWorse. }
  match goal with |- context [updatePlayer cur ?f s1] => set (s2 := updatePlayer cur f s1) end.
  assert (pass cur s0 s2) as H2.
  { apply pass_updatePlayer; [exact H1|]. apply mover_entry. intros p. apply credit_noWorse. }
  clearbody s2. clear Ht H1 Hpa. pass_frames.
Qed.

Lemma moverKilled_keeps_other t pa :
  getPlayer a t = Some pa -> alive pa = true ->
  exists pa', getPlayer a (moverKilled cur a now t) = Some pa' /\ alive pa' = true.
Proof.
  intros Hpa Hlive. unfold moverKilled.
  match goal with |- context [updatePlayer a ?f ?s1] => set (s2 := updatePlayer a f s1) end.
  assert (exists pa', getPlayer a s2 = Some pa' /\ alive pa' = true) as H2.
  { unfold s2. rewrite getPlayer_updatePlayer_same, getPlayer_updatePlayer_other, Hpa by exact Hne.
    cbn. eexists. split; [reflexivity | exact Hlive]. }
  destruct H2 as (pa' & H2 & Hl'). exists pa'. split; [|exact Hl'].
  assert (forall t', players t' = players s2 -> getPlayer a t' = Some pa') as Hsame.
  { intros t' E. unfold getPlayer in *. now rewrite E. }
  clearbody s2. clear H2.
  repeat case_player; repeat case_if; apply Hsame; reflexivity.
Qed.

Lemma pass_headHitsTail h tailA t pa :
  pass cur s0 t -> getPlayer a t = Some pa -> alive pa = true ->
  pass cur s0 (headHitsTail h tailA cur a now t)
  /\ exists pa', getPlayer a (headHitsTail h tailA cur a now t) = Some pa'
                 /\ alive pa' = true.
Proof.
  intros Ht Hpa Hlive. induction tailA as [|seg rest IH]; cbn.
  - split; [exact Ht | now exists pa].
  - destruct (_ <? _)%num; [|exact IH].
    split; [eapply pass_moverKilled; eauto | eapply moverKilled_keeps_other; eauto].
Qed.

Lemma pass_tailHitByHead h tailC t pa :
  pass cur s0 t -> getPlayer a t = Some pa -> alive pa = true ->
  pass cur s0 (tailHitByHead h tailC cur a t).
Proof.
  intros Ht Hpa Hlive. induction tailC as [|seg rest IH]; cbn; [exact Ht|].
  destruct (_ <? _)%num; [eapply pass_otherKilled; eauto | exact IH].
Qed.
End OneIteration.

Lemma pass_collideWith cur now a s0 t :
  pass cur s0 t -> pass cur s0 (collideWith cur now a t).
Proof.
  intros Ht. unfold collideWith.
  destruct (getPlayer a t) as [pa|] eqn:Hpa; [|exact Ht].
  destruct (getPlayer cur t) as [c|]; [|exact Ht].
  destruct (negb (Nat.eqb a cur)) eqn:Hne; [|exact Ht].
  destruct (alive pa) eqn:Hlive; [|exact Ht].
  cbn [andb]. destruct (_ <? _)%nat; [|exact Ht].
  apply negb_true_iff, Nat.eqb_neq in Hne.
  assert (liveAt s0 a) as Hl0.
  { destruct Ht as (Hent & _). eapply liveAt_back; [exact Hent|]. now exists pa. }
  destruct (segments c) as [|hc tc]; [exact Ht|].
  destruct (segments pa) as [|ha ta]; [exact Ht|].
  destruct (_ <? _)%num; [eapply pass_headCollision; eauto|].
  destruct (@pass_headHitsTail cur a now s0 Hne Hl0 (position hc) ta t pa Ht Hpa Hlive)
    as (H1 & pa' & Hpa' & Hlive').
  eapply pass_tailHitByHead; eauto.
Qed.

Lemma pass_fold cur now s0 (l : list (Conn * PlayerState num)) t :
  pass cur s0 t ->
  pass cur s0 (fold_left (fun s e => collideWith cur now (fst e) s) l t).
Proof.
  revert t. induction l as [|e l IH]; intros t Ht; cbn; [exact Ht|].
  apply IH. now apply pass_collideWith.
Qed.

Lemma pass_checkCollisions cur now s : pass cur s (checkCollisions cur now s).
Proof. unfold checkCollisions. apply pass_fold, pass_refl. Qed.

(** *** What one iteration does *)

(** The reward of a kill: one kill, [pts] points, KILL_SEGMENTS_GROWTH
    pending segments. *)
Definition credited (pts : nat) p : PlayerState num :=
  setGrowth (growth p + KILL_SEGMENTS_GROWTH)%nat
    (setScore (score p + pts)%nat (setKills (S (kills p)) p)).

(** Some segment of [tail] is within COLLISION_DISTANCE of [h]. *)
Definition hits (h : Position num) (tail : list (SnakeSegment num)) : bool :=
  existsb (fun seg => (distance h (position seg) <? COLLISION_DISTANCE)%num) tail.

Lemma headHitsTail_hits h tailA cur a now s :
  headHitsTail h tailA cur a now s
  = if hits h tailA then moverKilled cur a now s else s.
Proof.
  induction tailA as [|seg rest IH]; cbn; [reflexivity|].
  destruct (_ <? _)%num; cbn; [reflexivity | exact IH].
Qed.

Lemma tailHitByHead_hits h tailC cur a s :
  tailHitByHead h tailC cur a s
  = if hits h tailC then otherKilled cur a s else s.
Proof.
  induction tailC as [|seg rest IH]; cbn; [reflexivity|].
  destruct (_ <? _)%num; cbn; [reflexivity | exact IH].
Qed.

Lemma headCollision_players cur a now s :
  players (headCollision cur a now s)
  = mapUpdate a (setAlive false) (mapUpdate cur (setAlive false) (players s)).
Proof. unfold headCollision. repeat case_player; reflexivity. Qed.

Lemma moverKilled_players cur a now s :
  players (moverKilled cur a now s)
  = mapUpdate a (credited 5) (mapUpdate cur (setAlive false) (players s)).
Proof. unfold moverKilled. repeat case_player; repeat case_if; reflexivity. Qed.

Lemma otherKilled_players cur a s :
  players (otherKilled cur a s)
  = mapUpdate cur (credited 1) (mapUpdate a (setAlive false) (players s)).
Proof. unfold otherKilled. repeat case_player; reflexivity. Qed.

Section Outcomes.
Variables (cur a : Conn) (now : Z) (s : Server num) (c pa : PlayerState num).
Hypothesis Hne : a <> cur.
Hypothesis Hc : getPlayer cur s = Some c.
Hypothesis Hpa : getPlayer a s = Some pa.

Lemma headCollision_outbox :
  exists anns,
    outbox (headCollision cur a now s)
    = outbox s ++ [Send cur (MDied "Head collision" None);
                   Send a (MDied "Head collision" None)] ++ anns
    /\ Forall isAnnouncementFrame anns.
Proof.
  unfold headCollision.
  match goal with |- context [send a ?m (send cur ?m' ?t)] =>
    set (s2 := send a m (send cur m' t)) end.
  assert (outbox s2 = outbox s ++ [Send cur (MDied "Head collision" None);
                                   Send a (MDied "Head collision" None)]) as Ho.
  { unfold s2. cbn. now rewrite <- app_assoc. }
  clearbody s2. repeat case_player.
  - destruct (broadcastAnnouncement_outbox
                (shortName (id p) ++ " & " ++ shortName (id p0) ++ " collided!")%string
                SevError 2000 now s2) as (anns & E & Hf).
    exists anns. split; [|exact Hf]. now rewrite E, Ho, <- app_assoc.
  - exists []. split; [now rewrite Ho | constructor].
  - exists []. split; [now rewrite Ho | constructor].
Qed.

Lemma moverKilled_outbox :
  exists anns,
    outbox (moverKilled cur a now s)
    = outbox s ++ anns
      ++ [Send cur (MDied "Collided with another snake's tail" (Some (id pa)));
          Send a (MKill (Some (S (kills pa))) (Some (score pa + 5)%nat)
                    (Some KILL_SEGMENTS_GROWTH) (Some (id c)))]
    /\ Forall isAnnouncementFrame anns.
Proof.
  unfold moverKilled.
  match goal with |- context [updatePlayer a ?f (updatePlayer cur ?g s)] =>
    set (s2 := updatePlayer a f (updatePlayer cur g s)) end.
  assert (getPlayer a s2 = Some (credited 5 pa)) as Ha2.
  { unfold s2. rewrite getPlayer_updatePlayer_same, getPlayer_updatePlayer_other, Hpa by exact Hne.
    reflexivity. }
  assert (getPlayer cur s2 = Some (setAlive false c)) as Hc2.
  { unfold s2. rewrite getPlayer_updatePlayer_other, getPlayer_updatePlayer_same, Hc by congruence.
    reflexivity. }
  assert (outbox s2 = outbox s) as Ho by reflexivity.
  clearbody s2. rewrite Ha2, Hc2. cbv zeta.
  match goal with |- context [broadcastAnnouncement ?t ?y ?d now s2] =>
    destruct (broadcastAnnouncement_outbox t y d now s2) as (anns1 & E1 & Hf1);
    set (s3 := broadcastAnnouncement t y d now s2) in * end.
  clearbody s3.
  match goal with |- context [send cur ?m ?t] => set (s4 := t) end.
  assert (exists anns2, outbox s4 = outbox s3 ++ anns2 /\ Forall isAnnouncementFrame anns2)
    as (anns2 & E2 & Hf2).
  { unfold s4. repeat case_if;
      try (apply broadcastAnnouncement_outbox);
      exists []; split; [now rewrite app_nil_r | constructor]. }
  clearbody s4. exists (anns1 ++ anns2). split; [|apply Forall_app; now split].
  cbn. rewrite E2, E1, Ho. now rewrite <- !app_assoc.
Qed.

Lemma otherKilled_outbox :
  outbox (otherKilled cur a s)
  = outbox s
    ++ [Send a (MDied "Collided with another snake's tail" (Some (id c)));
        Send cur (MKill (Some (S (kills c))) (Some (score c + 1)%nat) None
                    (Some (id pa)))].
Proof.
  unfold otherKilled.
  match goal with |- context [updatePlayer cur ?f (updatePlayer a ?g s)] =>
    set (s2 := updatePlayer cur f (updatePlayer a g s)) end.
  assert (getPlayer a s2 = Some (setAlive false pa)) as Ha2.
  { unfold s2. rewrite getPlayer_updatePlayer_other, getPlayer_updatePlayer_same, Hpa by exact Hne.
    reflexivity. }
  assert (getPlayer cur s2 = Some (credited 1 c)) as Hc2.
  { unfold s2. rewrite getPlayer_updatePlayer_same, getPlayer_updatePlayer_other, Hc by congruence.
    reflexivity. }
  assert (outbox s2 = outbox s) as Ho by reflexivity.
  clearbody s2. rewrite Ha2, Hc2. cbn. now rewrite Ho, <- app_assoc.
Qed.
End Outcomes.

Lemma lookup_two_updates cur a (f g : PlayerState num -> PlayerState num)
      (m : list (Conn * PlayerState num)) c pa :
  a <> cur -> lookup cur m = Some c -> lookup a m = Some pa ->
  lookup cur (mapUpdate a g (mapUpdate cur f m)) = Some (f c)
  /\ lookup a (mapUpdate a g (mapUpdate cur f m)) = Some (g pa)
  /\ forall k, k <> cur -> k <> a ->
       lookup k (mapUpdate a g (mapUpdate cur f m)) = lookup k m.
Proof.
  intros Hne Hc Hpa. repeat split.
  - rewrite lookup_mapUpdate_other, lookup_mapUpdate_same, Hc by congruence. reflexivity.
  - rewrite lookup_mapUpdate_same, lookup_mapUpdate_other, Hpa by congruence. reflexivity.
  - intros k H1 H2. now rewrite !lookup_mapUpdate_other by congruence.
Qed.

Lemma collideWith_live cur a now s c pa hc tc ha ta :
  a <> cur -> getPlayer cur s = Some c -> getPlayer a s = Some pa ->
  alive pa = true -> segments c = hc :: tc -> segments pa = ha :: ta ->
  collideWith cur now a s
  = if (distance (position hc) (position ha) <? COLLISION_DISTANCE)%num
    then headCollision cur a now s
    else tailHitByHead (position ha) tc cur a
           (headHitsTail (position hc) ta cur a now s).
Proof.
  intros Hne Hc Hpa Hl Hsc Hsa. unfold collideWith.
  rewrite Hpa, Hc, Hl, Hsc, Hsa.
  apply Nat.eqb_neq in Hne. rewrite Hne. reflexivity.
Qed.

(** The frames a pass may emit. *)
Definition isPassFrame (o : Output num) : Prop :=
  match o with
  | Send _ (MAnnouncement _) | Send _ (MDied _ _) | Send _ (MKill _ _ _ _) => True
  | _ => False
  end.

Lemma passFrame_isPassFrame cur s o : passFrame cur s o -> isPassFrame o.
Proof. destruct o as [k m|k]; [|exact (fun x => x)]. destruct m; cbn; auto. Qed.
End Collisions.

(** X15. A collision pass only takes lives and hands out rewards: entry by
    entry the session store keeps its connections, ids, segments, headings
    and activity stamps; no dead session comes back to life; kills, score
    and pending growth never go down. Of the game state only the time of
    the last announcement can change, no timer is set, no random number is
    drawn, and every frame sent is an announcement, a died or a kill
    frame. *)
Theorem collision_pass_only_takes_lives :
  forall (num : Type) (N : Number num) (s : Server num) (cur : Conn) (now : Z),
    let s' := checkCollisions cur now s in
    Forall2 (fun e e' => fst e' = fst e /\ noWorse (snd e) (snd e'))
            (players s) (players s')
    /\ setLastAnnouncementTime (lastAnnouncementTime (gameState s)) (gameState s')
       = gameState s
    /\ timers s' = timers s
    /\ randomCalls s' = randomCalls s
    /\ exists added, outbox s' = outbox s ++ added /\ Forall isPassFrame added.
Proof.
  intros num N s cur now. cbv zeta.
  destruct (pass_checkCollisions cur now s) as (H1 & H2 & H3 & H4 & added & H5 & H6).
  repeat split; auto.
  - eapply Forall2_weaken; [|exact H1]. intros e e' (Hk & Hw & _). now split.
  - exists added. split; [exact H5|].
    eapply Forall_impl; [|exact H6]. intros o. apply passFrame_isPassFrame.
Qed.

(** X16. A session other than the mover that is dead when a collision pass
    begins is skipped: the pass leaves its record exactly as it was, and
    the only frames the pass sends on its connection are announcements. *)
Theorem collision_pass_skips_the_dead :
  forall (num : Type) (N : Number num) (s : Server num) (cur : Conn) (now : Z)
         (k : Conn) (p : PlayerState num),
    k <> cur ->
    getPlayer k s = Some p ->
    alive p = false ->
    let s' := checkCollisions cur now s in
    getPlayer k s' = Some p
    /\ exists added,
         outbox s' = outbox s ++ added
         /\ forall m, In (Send k m) added -> exists a, m = MAnnouncement a.
Proof.
  intros num N s cur now k p Hk Hp Hd. cbv zeta.
  destruct (pass_checkCollisions cur now s) as (H1 & _ & _ & _ & added & H5 & H6).
  split.
  - destruct (passEntries_lookup k H1 Hp) as (p' & Hp' & _ & _ & Hsame).
    cbn in Hsame. now rewrite (Hsame Hk Hd) in Hp'.
  - exists added. split; [exact H5|]. intros m Hin.
    rewrite Forall_forall in H6. specialize (H6 _ Hin).
    assert (liveAt s k -> False) as Hno.
    { intros (q & Hq & Hq'). unfold getPlayer in *. congruence. }
    destruct m; cbn in H6; try contradiction; try (destruct H6; tauto).
    now eexists.
Qed.

(** Two sessions with the given segment positions, for playing out
    collisions. *)
Definition snake (pid : string) (pts : list (Z * Z)) : PlayerState float :=
  mkPlayer pid
    (map (fun pt => mkSegment (mkPosition (float_of_Z (fst pt)) (float_of_Z (snd pt)))) pts)
    0%float true 20 0 0 0.

Definition arena (mover other : PlayerState float) : Server float :=
  setPlayers [(M, mover); (V, other)] duoServer.

Lemma collision_pass_skips_the_dead_witness :
  getPlayer V (checkCollisions M 30
                 (arena (snake "0" [(100, 100)])
                        (setAlive false (snake "1" [(105, 100)]))))
  = Some (setAlive false (snake "1" [(105, 100)])).
Proof.
  apply (@collision_pass_skips_the_dead float float_Number
           (arena (snake "0" [(100, 100)]) (setAlive false (snake "1" [(105, 100)])))
           M 30 V (setAlive false (snake "1" [(105, 100)]))).
  - discriminate.
  - reflexivity.
  - reflexivity.
Defined.

(** X17. Head-to-head takes precedence. When the mover meets a live other
    session whose head is within COLLISION_DISTANCE of its own, both are
    marked dead and nobody is rewarded, wherever the tails are: each gets a
    died frame without a killer, the mover first, followed only by
    announcements; no other session is touched. *)
Theorem head_on_collision_kills_both :
  forall (num : Type) (N : Number num) (s : Server num) (cur a : Conn) (now : Z)
         (c pa : PlayerState num) (hc ha : SnakeSegment num)
         (tc ta : list (SnakeSegment num)),
    a <> cur ->
    getPlayer cur s = Some c ->
    getPlayer a s = Some pa ->
    alive pa = true ->
    segments c = hc :: tc ->
    segments pa = ha :: ta ->
    (distance (position hc) (position ha) <? COLLISION_DISTANCE)%num = true ->
    let s' := collideWith cur now a s in
    getPlayer cur s' = Some (setAlive false c)
    /\ getPlayer a s' = Some (setAlive false pa)
    /\ (forall k, k <> cur -> k <> a -> getPlayer k s' = getPlayer k s)
    /\ exists anns,
         outbox s' = outbox s ++ [Send cur (MDied "Head collision" None);
                                  Send a (MDied "Head collision" None)] ++ anns
         /\ Forall isAnnouncementFrame anns.
Proof.
  intros num N s cur a now c pa hc ha tc ta Hne Hc Hpa Hl Hsc Hsa Hd. cbv zeta.
  rewrite (collideWith_live now s Hne Hc Hpa Hl Hsc Hsa), Hd.
  unfold getPlayer. rewrite headCollision_players.
  destruct (lookup_two_updates (setAlive false) (setAlive false) (players s) Hne Hc Hpa)
    as (H1 & H2 & H3).
  repeat split; auto.
  exact (headCollision_outbox cur a now s).
Qed.

Lemma head_on_collision_kills_both_witness :
  getPlayer M (collideWith M 30 V
                 (arena (snake "0" [(100, 100); (100, 130)])
                        (snake "1" [(110, 100); (100, 105)])))
  = Some (setAlive false (snake "0" [(100, 100); (100, 130)])).
Proof.
  apply (@head_on_collision_kills_both float float_Number
           (arena (snake "0" [(100, 100); (100, 130)]) (snake "1" [(110, 100); (100, 105)]))
           M V 30 (snake "0" [(100, 100); (100, 130)]) (snake "1" [(110, 100); (100, 105)])
           (mkSegment (mkPosition 100%float 100%float))
           (mkSegment (mkPosition 110%float 100%float))
           [mkSegment (mkPosition 100%float 130%float)]
           [mkSegment (mkPosition 100%float 105%float)]).
  - discriminate.
  - reflexivity.
  - reflexivity.
  - reflexivity.
  - vm_compute. reflexivity.
  - vm_compute. reflexivity.
  - vm_compute. reflexivity.
Defined.

(** X18. The mover runs into a tail. When the heads are apart, some tail
    segment of a live other session is within COLLISION_DISTANCE of the
    mover's head and the other head touches no tail segment of the mover,
    the mover is marked dead and the other session gains one kill, 5 points
    and KILL_SEGMENTS_GROWTH pending segments; after the announcements the
    mover gets a died frame naming the killer and the killer a kill frame
    with its new kills and score, the growth and the victim's id. *)
Theorem mover_runs_into_a_tail :
  forall (num : Type) (N : Number num) (s : Server num) (cur a : Conn) (now : Z)
         (c pa : PlayerState num) (hc ha : SnakeSegment num)
         (tc ta : list (SnakeSegment num)),
    a <> cur ->
    getPlayer cur s = Some c ->
    getPlayer a s = Some pa ->
    alive pa = true ->
    segments c = hc :: tc ->
    segments pa = ha :: ta ->
    (distance (position hc) (position ha) <? COLLISION_DISTANCE)%num = false ->
    hits (position hc) ta = true ->
    hits (position ha) tc = false ->
    let s' := collideWith cur now a s in
    getPlayer cur s' = Some (setAlive false c)
    /\ getPlayer a s' = Some (credited 5 pa)
    /\ (forall k, k <> cur -> k <> a -> getPlayer k s' = getPlayer k s)
    /\ exists anns,
         outbox s'
         = outbox s ++ anns
           ++ [Send cur (MDied "Collided with another snake's tail" (Some (id pa)));
               Send a (MKill (Some (S (kills pa))) (Some (score pa + 5)%nat)
                         (Some KILL_SEGMENTS_GROWTH) (Some (id c)))]
         /\ Forall isAnnouncementFrame anns.
Proof.
  intros num N s cur a now c pa hc ha tc ta Hne Hc Hpa Hl Hsc Hsa Hd H1 H2. cbv zeta.
  rewrite (collideWith_live now s Hne Hc Hpa Hl Hsc Hsa), Hd.
  rewrite tailHitByHead_hits, H2, headHitsTail_hits, H1.
  unfold getPlayer. rewrite moverKilled_players.
  destruct (lookup_two_updates (setAlive false) (credited 5) (players s) Hne Hc Hpa)
    as (E1 & E2 & E3).
  repeat split; auto.
  exact (moverKilled_outbox now s Hne Hc Hpa).
Qed.

Lemma mover_runs_into_a_tail_witness :
  getPlayer V (collideWith M 30 V
                 (arena (snake "0" [(100, 100)]) (snake "1" [(300, 100); (105, 100)])))
  = Some (credited 5 (snake "1" [(300, 100); (105, 100)])).
Proof.
  apply (@mover_runs_into_a_tail float float_Number
           (arena (snake "0" [(100, 100)]) (snake "1" [(300, 100); (105, 100)]))
           M V 30 (snake "0" [(100, 100)]) (snake "1" [(300, 100); (105, 100)])
           (mkSegment (mkPosition 100%float 100%float))
           (mkSegment (mkPosition 300%float 100%float))
           []
           [mkSegment (mkPosition 105%float 100%float)]).
  - discriminate.
  - reflexivity.
  - reflexivity.
  - reflexivity.
  - vm_compute. reflexivity.
  - vm_compute. reflexivity.
  - vm_compute. reflexivity.
  - vm_compute. reflexivity.
  - vm_compute. reflexivity.
Defined.

(** X19. Another head runs into the mover's tail. When the heads are
    apart, the mover's head touches no tail segment of a live other session
    and that session's head is within COLLISION_DISTANCE of a tail segment
    of the mover, the other session is marked dead and the mover gains one
    kill, 1 point and KILL_SEGMENTS_GROWTH pending segments, whether or not
    the mover is itself alive at that point. Exactly two frames are sent and
    no announcement: a died frame naming the mover, and to the mover a kill
    frame with victim, kills and score that has no growth field. *)
Theorem other_runs_into_the_movers_tail :
  forall (num : Type) (N : Number num) (s : Server num) (cur a : Conn) (now : Z)
         (c pa : PlayerState num) (hc ha : SnakeSegment num)
         (tc ta : list (SnakeSegment num)),
    a <> cur ->
    getPlayer cur s = Some c ->
    getPlayer a s = Some pa ->
    alive pa = true ->
    segments c = hc :: tc ->
    segments pa = ha :: ta ->
    (distance (position hc) (position ha) <? COLLISION_DISTANCE)%num = false ->
    hits (position hc) ta = false ->
    hits (position ha) tc = true ->
    let s' := collideWith cur now a s in
    getPlayer cur s' = Some (credited 1 c)
    /\ getPlayer a s' = Some (setAlive false pa)
    /\ (forall k, k <> cur -> k <> a -> getPlayer k s' = getPlayer k s)
    /\ outbox s'
       = outbox s
         ++ [Send a (MDied "Collided with another snake's tail" (Some (id c)));
             Send cur (MKill (Some (S (kills c))) (Some (score c + 1)%nat) None
                         (Some (id pa)))].
Proof.
  intros num N s cur a now c pa hc ha tc ta Hne Hc Hpa Hl Hsc Hsa Hd H1 H2. cbv zeta.
  rewrite (collideWith_live now s Hne Hc Hpa Hl Hsc Hsa), Hd.
  rewrite tailHitByHead_hits, H2, headHitsTail_hits, H1.
  unfold getPlayer. rewrite otherKilled_players.
  assert (cur <> a) as Hne' by congruence.
  destruct (lookup_two_updates (setAlive false) (credited 1) (players s) Hne' Hpa Hc)
    as (E1 & E2 & E3).
  repeat split; auto.
  exact (otherKilled_outbox s Hne Hc Hpa).
Qed.

Lemma other_runs_into_the_movers_tail_witness :
  getPlayer M (collideWith M 30 V
                 (arena (setAlive false (snake "0" [(100, 100); (300, 100)]))
                        (snake "1" [(305, 100)])))
  = Some (credited 1 (setAlive false (snake "0" [(100, 100); (300, 100)]))).
Proof.
  apply (@other_runs_into_the_movers_tail float float_Number
           (arena (setAlive false (snake "0" [(100, 100); (300, 100)]))
                  (snake "1" [(305, 100)]))
           M V 30 (setAlive false (snake "0" [(100, 100); (300, 100)]))
           (snake "1" [(305, 100)])
           (mkSegment (mkPosition 100%float 100%float))
           (mkSegment (mkPosition 305%float 100%float))
           [mkSegment (mkPosition 300%float 100%float)]
           []).
  - discriminate.
  - reflexivity.
  - reflexivity.
  - reflexivity.
  - vm_compute. reflexivity.
  - vm_compute. reflexivity.
  - vm_compute. reflexivity.
  - vm_compute. reflexivity.
  - vm_compute. reflexivity.
Defined.

(** X20. Both tail checks of one iteration can fire. When the heads are
    apart, the mover's head is on a tail segment of a live other session and
    that session's head is on a tail segment of the mover, both end up dead
    and both are rewarded: the other session with one kill, 5 points and
    the growth, the mover (already marked dead) with one kill, 1 point and
    the growth; the frames are the mover's died, the other's kill, the
    other's died and the mover's kill, in this order. *)
Theorem crossed_snakes_kill_each_other :
  forall (num : Type) (N : Number num) (s : Server num) (cur a : Conn) (now : Z)
         (c pa : PlayerState num) (hc ha : SnakeSegment num)
         (tc ta : list (SnakeSegment num)),
    a <> cur ->
    getPlayer cur s = Some c ->
    getPlayer a s = Some pa ->
    alive pa = true ->
    segments c = hc :: tc ->
    segments pa = ha :: ta ->
    (distance (position hc) (position ha) <? COLLISION_DISTANCE)%num = false ->
    hits (position hc) ta = true ->
    hits (position ha) tc = true ->
    let s' := collideWith cur now a s in
    getPlayer cur s' = Some (credited 1 (setAlive false c))
    /\ getPlayer a s' = Some (setAlive false (credited 5 pa))
    /\ (forall k, k <> cur -> k <> a -> getPlayer k s' = getPlayer k s)
    /\ exists anns,
         outbox s'
         = outbox s ++ anns
           ++ [Send cur (MDied "Collided with another snake's tail" (Some (id pa)));
               Send a (MKill (Some (S (kills pa))) (Some (score pa + 5)%nat)
                         (Some KILL_SEGMENTS_GROWTH) (Some (id c)));
               Send a (MDied "Collided with another snake's tail" (Some (id c)));
               Send cur (MKill (Some (S (kills c))) (Some (score c + 1)%nat) None
                           (Some (id pa)))]
         /\ Forall isAnnouncementFrame anns.
Proof.
  intros num N s cur a now c pa hc ha tc ta Hne Hc Hpa Hl Hsc Hsa Hd H1 H2. cbv zeta.
  rewrite (collideWith_live now s Hne Hc Hpa Hl Hsc Hsa), Hd.
  rewrite tailHitByHead_hits, H2, headHitsTail_hits, H1.
  set (s1 := moverKilled cur a now s).
  destruct (lookup_two_updates (setAlive false) (credited 5) (players s) Hne Hc Hpa)
    as (E1 & E2 & E3).
  rewrite <- (moverKilled_players cur a now s) in E1, E2, E3. fold s1 in E1, E2, E3.
  assert (cur <> a) as Hne' by congruence.
  destruct (lookup_two_updates (setAlive false) (credited 1) (players s1) Hne' E2 E1)
    as (F1 & F2 & F3).
  unfold getPlayer. rewrite otherKilled_players.
  repeat split; auto.
  - intros k Hk Hk'. rewrite F3, E3; auto.
  - destruct (moverKilled_outbox now s Hne Hc Hpa) as (anns & Ho & Hf).
    exists anns. split; [|exact Hf].
    rewrite (otherKilled_outbox s1 Hne E1 E2). fold s1 in Ho. rewrite Ho. cbn.
    now rewrite <- !app_assoc.
Qed.

Lemma crossed_snakes_kill_each_other_witness :
  getPlayer M (collideWith M 30 V
                 (arena (snake "0" [(100, 100); (300, 100)])
                        (snake "1" [(305, 100); (105, 100)])))
  = Some (credited 1 (setAlive false (snake "0" [(100, 100); (300, 100)]))).
Proof.
  apply (@crossed_snakes_kill_each_other float float_Number
           (arena (snake "0" [(100, 100); (300, 100)]) (snake "1" [(305, 100); (105, 100)]))
           M V 30 (snake "0" [(100, 100); (300, 100)]) (snake "1" [(305, 100); (105, 100)])
           (mkSegment (mkPosition 100%float 100%float))
           (mkSegment (mkPosition 305%float 100%float))
           [mkSegment (mkPosition 300%float 100%float)]
           [mkSegment (mkPosition 105%float 100%float)]).
  - discriminate.
  - reflexivity.
  - reflexivity.
  - reflexivity.
  - vm_compute. reflexivity.
  - vm_compute. reflexivity.
  - vm_compute. reflexivity.
  - vm_compute. reflexivity.
  - vm_compute. reflexivity.
Defined.

(** ** Food supply and announcement buffer *)

Section Supplies.
Context {num : Type} {N : Number num}.
Variable rand : nat -> num.
Variable randomUUID : nat -> string.
Implicit Types (s : Server num) (ws : Conn) (now : Z).

(** The map holds FOOD_COUNT food items and the buffer of recent
    announcements at most one entry. *)
Definition tidy s : Prop :=
  List.length (food (gameState s)) = FOOD_COUNT
  /\ (List.length (recentAnnouncements s) <= 1)%nat.

Lemma tidy_same s s' :
  food (gameState s') = food (gameState s) ->
  recentAnnouncements s' = recentAnnouncements s -> tidy s -> tidy s'.
Proof. unfold tidy. intros -> ->. auto. Qed.

Lemma tidy_send s ws m : tidy s -> tidy (send ws m s).
Proof. now apply tidy_same. Qed.

Lemma tidy_sendAll s m : tidy s -> tidy (sendAll m s).
Proof. now apply tidy_same. Qed.

Lemma tidy_setTimeout s cb d now : tidy s -> tidy (setTimeout cb d now s).
Proof. now apply tidy_same. Qed.

Lemma tidy_setTimers s v : tidy s -> tidy (setTimers v s).
Proof. now apply tidy_same. Qed.

Lemma tidy_setPlayers s v : tidy s -> tidy (setPlayers v s).
Proof. now apply tidy_same. Qed.

Lemma tidy_updatePlayer s ws f : tidy s -> tidy (updatePlayer ws f s).
Proof. now apply tidy_same. Qed.

Lemma tidy_withGame s f :
  (forall g, food (f g) = food g) -> tidy s -> tidy (withGame f s).
Proof. intros Hf. apply tidy_same; [apply Hf | reflexivity]. Qed.

Lemma tidy_clear s : tidy s -> tidy (setRecentAnnouncements [] s).
Proof. intros [H _]. split; [exact H | cbn; lia]. Qed.

Lemma tidy_broadcastAnnouncement s text ty dur now :
  tidy s -> tidy (broadcastAnnouncement text ty dur now s).
Proof.
  intros [Hf Hb]. split; [exact Hf|].
  unfold broadcastAnnouncement. cbn.
  destruct (recentAnnouncements s) as [|x [|y l]]; cbn in *; lia.
Qed.

Lemma tidy_broadcastPlayerStates s now :
  tidy s -> tidy (broadcastPlayerStates now s).
Proof.
  intros H. unfold broadcastPlayerStates.
  destruct (size s =? 0)%nat; [exact H|].
  apply tidy_sendAll.
  match goal with |- context [if ?c then setTimeout _ _ _ ?a else ?b] =>
    destruct c end;
  [apply tidy_setTimeout|];
  match goal with |- context [if ?c then _ else _] => destruct c end;
  try apply tidy_clear; (apply tidy_withGame; [intros g; reflexivity | exact H]).
Qed.

Ltac tidy_step :=
  lazymatch goal with
  | H : tidy ?a |- tidy ?a => exact H
  | |- tidy (send _ _ _) => apply tidy_send
  | |- tidy (sendAll _ _) => apply tidy_sendAll
  | |- tidy (setTimeout _ _ _ _) => apply tidy_setTimeout
  | |- tidy (setTimers _ _) => apply tidy_setTimers
  | |- tidy (setPlayers _ _) => apply tidy_setPlayers
  | |- tidy (updatePlayer _ _ _) => apply tidy_updatePlayer
  | |- tidy (withGame _ _) => apply tidy_withGame; [intros ?; reflexivity|]
  | |- tidy (setRecentAnnouncements [] _) => apply tidy_clear
  | |- tidy (broadcastAnnouncement _ _ _ _ _) => apply tidy_broadcastAnnouncement
  | |- tidy (broadcastPlayerStates _ _) => apply tidy_broadcastPlayerStates
  end.

Lemma tidy_startNewRound s now : tidy s -> tidy (startNewRound rand now s).
Proof.
  intros H. unfold startNewRound.
  destruct (size s <? MIN_PLAYERS_TO_START)%nat; [repeat tidy_step|].
  repeat tidy_step. cbn [gameState withGame].
  match goal with |- context [if ?c then _ else _] => destruct c end.
  - match goal with |- context [generateFood rand ?n ?t] =>
      pose proof (generateFood_frame rand n t) as Hg;
      pose proof (generateFood_length rand n t) as Hn;
      destruct (generateFood rand n t) as [fd s1] end.
    cbn in Hg, Hn. destruct Hg as (_ & _ & _ & _ & _ & Hb).
    match goal with |- context [resetAll rand now ?ps ?t] =>
      pose proof (resetAll_spec rand now ps t) as Hr;
      destruct (resetAll rand now ps t) as [ps' s2] end.
    cbn in Hr. destruct Hr as (_ & _ & _ & Hgs & _ & _ & Hb').
    destruct H as [_ Hbuf]. split; cbn.
    + rewrite Hgs. cbn. exact Hn.
    + rewrite Hb', Hb. exact Hbuf.
  - match goal with |- context [respawnDead rand now ?ps ?t] =>
      pose proof (respawnDead_spec rand now ps t) as Hr;
      destruct (respawnDead rand now ps t) as [ps' s2] end.
    cbn in Hr. destruct Hr as (_ & _ & _ & Hgs & _ & _ & Hb').
    destruct H as [Hfd Hbuf]. split; cbn.
    + rewrite Hgs. exact Hfd.
    + rewrite Hb'. exact Hbuf.
Qed.

Lemma tidy_declareWinner s w now : tidy s -> tidy (declareWinner w now s).
Proof. intros H. unfold declareWinner. repeat tidy_step. Qed.

Lemma tidy_checkGameStatus s now : tidy s -> tidy (checkGameStatus rand now s).
Proof.
  intros H. unfold checkGameStatus.
  repeat first
    [ tidy_step
    | lazymatch goal with
      | |- tidy (startNewRound _ _ _) => apply tidy_startNewRound
      | |- tidy (declareWinner _ _ _) => apply tidy_declareWinner
      end
    | case_if
    | match goal with
      | |- context [match ?o with Some _ => _ | None => _ end] => destruct o as [[? ?]|]
      | |- context [match ?l with [] => _ | _ :: _ => _ end] => destruct l as [|[? ?] ?]
      end ].
Qed.

Lemma tidy_gameOverReset s now : tidy s -> tidy (gameOverReset rand now s).
Proof.
  intros H. unfold gameOverReset. apply tidy_startNewRound. repeat tidy_step.
Qed.

Lemma tidy_runCallback s cb now : tidy s -> tidy (runCallback rand cb now s).
Proof.
  intros H. destruct cb; cbn;
    auto using tidy_checkGameStatus, tidy_startNewRound, tidy_gameOverReset.
Qed.

Lemma removeAt_length {A} i (l : list A) :
  (i < List.length l)%nat -> S (List.length (removeAt i l)) = List.length l.
Proof.
  intros H. unfold removeAt. rewrite length_app, length_firstn, length_skipn. lia.
Qed.

Lemma tidy_eatFood s ws i now :
  (i < List.length (food (gameState s)))%nat ->
  tidy s -> tidy (eatFood rand ws i now s).
Proof.
  intros Hi H. unfold eatFood.
  match goal with |- context [freshFood rand ?t] =>
    pose proof (freshFood_frame rand t) as Hf; destruct (freshFood rand t) as [f s1] end.
  cbn in Hf. destruct Hf as (_ & _ & Hg & _ & _ & Hb).
  assert (tidy (withGame (fun g => setFood (food g ++ [f]) g) s1)) as H1.
  { destruct H as [Hfd Hbuf]. split; cbn.
    - rewrite Hg. cbn. rewrite length_app. cbn.
      rewrite Nat.add_1_r, (removeAt_length _ Hi). exact Hfd.
    - now rewrite Hb. }
  destruct (getPlayer ws _); [|exact H1].
  repeat first
    [ tidy_step
    | case_if
    | match goal with
      | |- context [match ?o with Some _ => _ | None => _ end] => destruct o as [[? ?]|]
      end ].
Qed.

Lemma tidy_foodLoop s head ws now n :
  (n <= List.length (food (gameState s)))%nat ->
  tidy s -> tidy (foodLoop rand head ws now n s).
Proof.
  revert s. induction n as [|n IH]; intros s Hn H; cbn; [exact H|].
  destruct (nth_error (food (gameState s)) n) as [f|] eqn:E.
  - destruct (nearFood head f).
    + assert (tidy (eatFood rand ws n now s)) as H' by (apply tidy_eatFood; [lia | exact H]).
      apply IH; [|exact H'].
      destruct H as [Ha _], H' as [Hb _]. rewrite Hb, <- Ha. lia.
    + apply IH; [lia | exact H].
  - apply IH; [lia | exact H].
Qed.

Lemma tidy_checkFoodCollisions s ws now :
  tidy s -> tidy (checkFoodCollisions rand ws now s).
Proof.
  intros H. unfold checkFoodCollisions.
  destruct (getPlayer ws s); [|exact H].
  destruct (negb _); [exact H|].
  destruct (segments _); [exact H|]. apply tidy_foodLoop; [lia | exact H].
Qed.

Lemma tidy_fold_collideWith cur now (l : list (Conn * PlayerState num)) s :
  tidy s -> tidy (fold_left (fun s e => collideWith cur now (fst e) s) l s).
Proof.
  revert s. induction l as [|e l IH]; intros s H; cbn; [exact H|].
  apply IH. unfold collideWith.
  repeat first
    [ exact H
    | case_player
    | case_if
    | match goal with
      | |- context [match ?l with [] => _ | _ :: _ => _ end] => destruct l
      end ].
  - unfold headCollision. repeat case_player; repeat tidy_step.
  - rewrite tailHitByHead_hits, headHitsTail_hits.
    assert (forall t, tidy t -> tidy (moverKilled cur (fst e) now t)) as Hm.
    { intros t Ht. unfold moverKilled. repeat case_player; repeat first [tidy_step | case_if]. }
    assert (forall t, tidy t -> tidy (otherKilled cur (fst e) t)) as Ho.
    { intros t Ht. unfold otherKilled. repeat case_player; repeat tidy_step. }
    repeat case_if; auto.
Qed.

Lemma tidy_checkCollisions cur now s : tidy s -> tidy (checkCollisions cur now s).
Proof. unfold checkCollisions. apply tidy_fold_collideWith. Qed.

Lemma tidy_handleMovement s ws pos rot now :
  tidy s -> tidy (handleMovement rand ws pos rot now s).
Proof.
  intros H. unfold handleMovement.
  apply tidy_broadcastPlayerStates, tidy_checkGameStatus, tidy_checkCollisions,
    tidy_checkFoodCollisions.
  destruct rot; repeat tidy_step.
Qed.

Lemma tidy_ws_message s ws frame now :
  tidy s -> tidy (ws_message rand ws frame now s).
Proof.
  intros H. unfold ws_message, invalidFormat.
  destruct frame as [| |data]; [now apply tidy_send| |].
  - destruct (_ && _);
      [apply tidy_startNewRound; repeat tidy_step|].
    destruct (getPlayer ws s); [|exact H].
    destruct (negb (isActive _));
      [destruct (_ <=? _)%nat; [apply tidy_startNewRound; repeat tidy_step | exact H]|].
    destruct (negb (alive _)); [exact H | now apply tidy_send].
  - destruct (_ && _);
      [apply tidy_startNewRound; repeat tidy_step|].
    destruct (getPlayer ws s); [|exact H].
    destruct (negb (isActive _));
      [destruct (_ <=? _)%nat; [apply tidy_startNewRound; repeat tidy_step | exact H]|].
    destruct (negb (alive _)); [exact H|].
    destruct (mtype data).
    + destruct (mposition data); [now apply tidy_handleMovement | exact H].
    + apply tidy_startNewRound; repeat tidy_step.
    + exact H.
Qed.

Lemma tidy_reap s limit now : tidy s -> tidy (reap limit now s).
Proof. now apply tidy_same. Qed.

Lemma tidy_ws_open s ws now : tidy s -> tidy (ws_open rand randomUUID ws now s).
Proof.
  intros H. unfold ws_open.
  match goal with |- context [spawnPosition rand ?t] =>
    pose proof (spawnPosition_frame rand t) as Hf;
    destruct (spawnPosition rand t) as [pos s1] end.
  cbn in Hf. destruct Hf as (_ & _ & Hg & _ & _ & Hb).
  assert (tidy s1) as H1.
  { destruct H as [Hfd Hbuf]. split; [now rewrite Hg | now rewrite Hb]. }
  case_if; [apply tidy_startNewRound|]; repeat tidy_step;
    apply tidy_reap; exact H1.
Qed.

Lemma tidy_ws_close s ws now : tidy s -> tidy (ws_close ws now s).
Proof. intros H. unfold ws_close. repeat tidy_step. Qed.

Lemma tidy_tick s now : tidy s -> tidy (tick rand now s).
Proof.
  intros H. unfold tick. cbn [gameState withGame].
  match goal with |- context [reap _ _ ?t] => assert (tidy t) as H1 end.
  { case_if; [apply tidy_startNewRound|]; repeat tidy_step. }
  case_if; [apply tidy_checkGameStatus, tidy_broadcastPlayerStates|];
    apply tidy_reap; exact H1.
Qed.

Lemma tidy_handle s now e : tidy s -> tidy (handle rand randomUUID now e s).
Proof.
  intros H. destruct e as [ws|ws frame|ws| |k]; cbn.
  - now apply tidy_ws_open.
  - now apply tidy_ws_message.
  - now apply tidy_ws_close.
  - now apply tidy_tick.
  - destruct (nth_error (timers s) k); [|exact H].
    apply tidy_runCallback. now apply tidy_setTimers.
Qed.

Lemma tidy_initial t0 : tidy (initial rand t0).
Proof.
  unfold initial.
  match goal with |- context [generateFood rand ?n ?t] =>
    pose proof (generateFood_frame rand n t) as Hg;
    pose proof (generateFood_length rand n t) as Hn;
    destruct (generateFood rand n t) as [fd s1] end.
  cbn in Hg, Hn. destruct Hg as (_ & _ & _ & _ & _ & Hb).
  split; cbn; [exact Hn | rewrite Hb; cbn; lia].
Qed.

Lemma reachable_tidy s : reachable rand randomUUID s -> tidy s.
Proof.
  induction 1; [apply tidy_initial | now apply tidy_handle].
Qed.
End Supplies.

(** X21. The food supply is constant: in every reachable state the map
    holds exactly FOOD_COUNT food items (each eaten item is replaced at
    once, and a new game draws a full new set). *)
Theorem food_supply_is_constant :
  forall (num : Type) (N : Number num) (rand : nat -> num) (randomUUID : nat -> string)
         (s : Server num),
    reachable rand randomUUID s ->
    List.length (food (gameState s)) = FOOD_COUNT.
Proof.
  intros num N rand randomUUID s Hr. exact (proj1 (reachable_tidy Hr)).
Qed.

Lemma food_supply_is_constant_witness :
  List.length (food (gameState duoServer)) = FOOD_COUNT.
Proof.
  apply (@food_supply_is_constant float float_Number halves decimalUUID duoServer).
  exact duoServer_reachable.
Defined.

(** X22. The buffer of recent announcements never holds more than one
    entry in a reachable state. *)
Theorem at_most_one_recent_announcement :
  forall (num : Type) (N : Number num) (rand : nat -> num) (randomUUID : nat -> string)
         (s : Server num),
    reachable rand randomUUID s ->
    (List.length (recentAnnouncements s) <= 1)%nat.
Proof.
  intros num N rand randomUUID s Hr. exact (proj2 (reachable_tidy Hr)).
Qed.

Lemma at_most_one_recent_announcement_witness :
  (List.length (recentAnnouncements duoServer) <= 1)%nat.
Proof.
  apply (@at_most_one_recent_announcement float float_Number halves decimalUUID duoServer).
  exact duoServer_reachable.
Defined.

(** ** The leaderboard *)

Section Leaderboard.

(** The order of the comparator [(a, b) => b.kills - a.kills]. *)
Definition byKills (a b : LeaderboardEntry) : Prop := (lkills b <= lkills a)%nat.

Definition withKills (k : nat) (e : LeaderboardEntry) : bool := (lkills e =? k)%nat.

Lemma insertByKills_perm e l : Permutation (e :: l) (insertByKills e l).
Proof.
  induction l as [|h t IH]; cbn; [apply Permutation_refl|].
  destruct (lkills h <=? lkills e)%nat; [apply Permutation_refl|].
  eapply perm_trans; [apply perm_swap|]. now apply perm_skip.
Qed.

Lemma insertByKills_sorted e l :
  StronglySorted byKills l -> StronglySorted byKills (insertByKills e l).
Proof.
  induction 1 as [|h t Hs IH Hf]; cbn; [repeat constructor|].
  destruct (lkills h <=? lkills e)%nat eqn:E.
  - apply Nat.leb_le in E. constructor; [now constructor|].
    constructor; [exact E|]. eapply Forall_impl; [|exact Hf].
    unfold byKills. intros y Hy. lia.
  - apply Nat.leb_gt in E. constructor; [exact IH|].
    eapply Permutation_Forall; [apply insertByKills_perm|].
    constructor; [unfold byKills; lia | exact Hf].
Qed.

Lemma insertByKills_stable k e l :
  filter (withKills k) (insertByKills e l) = filter (withKills k) (e :: l).
Proof.
  induction l as [|h t IH]; cbn; [reflexivity|].
  destruct (lkills h <=? lkills e)%nat eqn:E; [reflexivity|].
  apply Nat.leb_gt in E. cbn. rewrite IH. cbn. unfold withKills.
  destruct (lkills h =? k)%nat eqn:Eh, (lkills e =? k)%nat eqn:Ee; try reflexivity.
  apply Nat.eqb_eq in Eh, Ee. lia.
Qed.

Lemma sortByKills_spec l :
  Permutation l (sortByKills l)
  /\ StronglySorted byKills (sortByKills l)
  /\ forall k, filter (withKills k) (sortByKills l) = filter (withKills k) l.
Proof.
  induction l as [|e l (Hp & Hs & Hk)]; cbn.
  - repeat split; constructor.
  - repeat split.
    + eapply perm_trans; [apply perm_skip, Hp | apply insertByKills_perm].
    + now apply insertByKills_sorted.
    + intros k. rewrite insertByKills_stable. cbn. now rewrite Hk.
Qed.
End Leaderboard.

(** X23. The leaderboard of a gameOver frame lists every session exactly
    once (it is a permutation of the session store's entries, reduced to
    id, kills and score), in order of decreasing kills, and sessions with
    equal kills keep the order of the session store. *)
Theorem leaderboard_is_sorted :
  forall (num : Type) (N : Number num) (s : Server num),
    let entries := map (fun e => mkEntry (id (snd e)) (kills (snd e)) (score (snd e)))
                       (players s) in
    Permutation entries (leaderboardOf s)
    /\ StronglySorted byKills (leaderboardOf s)
    /\ forall k, filter (withKills k) (leaderboardOf s) = filter (withKills k) entries.
Proof.
  intros num N s. cbv zeta. unfold leaderboardOf. apply sortByKills_spec.
Qed.

(** X24. Declaring the winner. In an active game that is not waiting for
    players, when some session has WINNING_KILLS kills, checkGameStatus
    picks the first such session in map order: it records its id as
    winner, deactivates the game, sets roundEndTime 5000 ms after the
    stored server time, sends every session one gameOver frame (with the
    round number and the sorted leaderboard) followed by the announcement
    of the win, which becomes the only recent announcement, and schedules
    the reset 5000 ms from now. Sessions are not changed. As long as at
    least MIN_PLAYERS_TO_START sessions remain, calling checkGameStatus
    again on the result does nothing. *)
Theorem winner_is_declared_once :
  forall (num : Type) (N : Number num) (rand : nat -> num) (s : Server num)
         (now now' : Z) (k : Conn) (w : PlayerState num),
    isActive (gameState s) = true ->
    waitingForPlayers (gameState s) = false ->
    find (fun e => (WINNING_KILLS <=? kills (snd e))%nat) (players s) = Some (k, w) ->
    let s' := checkGameStatus rand now s in
    let g := gameState s in
    let notice := mkAnnouncement (shortName (id w) ++ " wins!")%string SevSuccess 2000 in
    players s' = players s
    /\ gameState s'
       = setLastAnnouncementTime now
           (setIsActive false
              (setRoundEndTime (Some (serverTime g + 5000)) (setWinner (Some (id w)) g)))
    /\ timers s' = timers s ++ [mkTimer (now + 5000) CbGameOverReset]
    /\ recentAnnouncements s' = [notice]
    /\ outbox s'
       = outbox s
         ++ map (fun e => Send (fst e)
                            (MGameOver (id w) (roundNumber g) (leaderboardOf s)
                               (serverTime g) (Some (serverTime g + 5000))))
                (players s)
         ++ map (fun e => Send (fst e) (MAnnouncement notice)) (players s)
    /\ ((MIN_PLAYERS_TO_START <= size s)%nat -> checkGameStatus rand now' s' = s').
Proof.
  intros num N rand s now now' k w Ha Hw Hf. cbv zeta.
  assert (checkGameStatus rand now s = declareWinner w now s) as E.
  { unfold checkGameStatus. rewrite Ha, Hw, Hf. reflexivity. }
  rewrite E. repeat split.
  - unfold declareWinner, broadcastAnnouncement, sendAll. cbn. now rewrite <- app_assoc.
  - intros Hn. unfold checkGameStatus.
    replace (size (declareWinner w now s)) with (size s) by reflexivity.
    apply Nat.ltb_ge in Hn. rewrite Hn.
    replace (isActive (gameState (declareWinner w now s))) with false by reflexivity.
    replace (waitingForPlayers (gameState (declareWinner w now s))) with false
      by (symmetry; exact Hw).
    reflexivity.
Qed.

Lemma winner_is_declared_once_witness :
  timers (checkGameStatus halves 40 (updatePlayer M (setKills 10) duoServer))
  = timers (updatePlayer M (setKills 10) duoServer) ++ [mkTimer (40 + 5000) CbGameOverReset].
Proof.
  apply (@winner_is_declared_once float float_Number halves
           (updatePlayer M (setKills 10) duoServer) 40 50 M (setKills 10 soloPlayer)).
  - reflexivity.
  - reflexivity.
  - vm_compute. reflexivity.
Defined.

(** X25. The last snake alive does not end the round. In an active game
    that is not waiting for players, with nobody at WINNING_KILLS, exactly
    one session alive and more than one session connected, checkGameStatus
    changes neither sessions nor flags: it sends a lastAlive frame to the
    survivor, announces it to everybody and schedules a respawn 3000 ms
    from now. Nothing records that this was done, so the next call repeats
    the frames and stacks a second respawn timer. *)
Theorem last_alive_notice_repeats :
  forall (num : Type) (N : Number num) (rand : nat -> num) (s : Server num)
         (now now' : Z) (k : Conn) (w : PlayerState num),
    isActive (gameState s) = true ->
    waitingForPlayers (gameState s) = false ->
    find (fun e => (WINNING_KILLS <=? kills (snd e))%nat) (players s) = None ->
    filter (fun e => alive (snd e)) (players s) = [(k, w)] ->
    (1 < size s)%nat ->
    let s' := checkGameStatus rand now s in
    let notice := mkAnnouncement (shortName (id w) ++ " is last alive!")%string
                    SevWarning 2000 in
    players s' = players s
    /\ gameState s' = setLastAnnouncementTime now (gameState s)
    /\ timers s' = timers s ++ [mkTimer (now + 3000) CbStartNewRound]
    /\ outbox s'
       = outbox s
         ++ [Send k (MLastAlive "You are the last snake alive! You win this round!"
                       (serverTime (gameState s)))]
         ++ map (fun e => Send (fst e) (MAnnouncement notice)) (players s)
    /\ timers (checkGameStatus rand now' s')
       = timers s ++ [mkTimer (now + 3000) CbStartNewRound;
                      mkTimer (now' + 3000) CbStartNewRound].
Proof.
  intros num N rand s now now' k w Ha Hw Hf Hal Hn. cbv zeta.
  assert (forall t u, players u = players s -> isActive (gameState u) = true ->
            waitingForPlayers (gameState u) = false ->
            checkGameStatus rand t u
            = setTimeout CbStartNewRound 3000 t
                (broadcastAnnouncement (shortName (id w) ++ " is last alive!")%string
                   SevWarning 2000 t
                   (send k (MLastAlive "You are the last snake alive! You win this round!"
                              (serverTime (gameState u))) u))) as E.
  { intros t u Hp Hau Hwu. unfold checkGameStatus, size.
    rewrite Hau, Hwu, Hp, Hf, Hal. cbn [negb andb].
    apply Nat.ltb_lt in Hn. unfold size in Hn. rewrite Hn.
    unfold broadcastAnnouncement, sendAll, send, size. cbn [players setOutbox setRecentAnnouncements withGame].
    rewrite Hp.
    replace (0 <? List.length (players s) - 1)%nat with true; [reflexivity|].
    symmetry. apply Nat.ltb_lt. apply Nat.ltb_lt in Hn. lia. }
  rewrite (E now s eq_refl Ha Hw).
  match goal with |- context [checkGameStatus rand now' ?u] =>
    rewrite (E now' u eq_refl Ha Hw) end.
  do 3 (split; [reflexivity|]).
  unfold setTimeout, broadcastAnnouncement, sendAll, send. cbn.
  now rewrite <- !app_assoc.
Qed.

Lemma last_alive_notice_repeats_witness :
  timers (checkGameStatus halves 40 (updatePlayer V (setAlive false) duoServer))
  = timers (updatePlayer V (setAlive false) duoServer)
    ++ [mkTimer (40 + 3000) CbStartNewRound].
Proof.
  apply (@last_alive_notice_repeats float float_Number halves
           (updatePlayer V (setAlive false) duoServer) 40 50 M soloPlayer).
  - reflexivity.
  - reflexivity.
  - reflexivity.
  - vm_compute. reflexivity.
  - vm_compute. lia.
Defined.

(** ** A movement frame, end to end *)

Section Movement.
Context {num : Type} {N : Number num}.
Variable rand : nat -> num.
Implicit Types (s : Server num) (ws : Conn) (now : Z) (p : PlayerState num).

Lemma checkFoodCollisions_players ws now s :
  exists k,
    players (checkFoodCollisions rand ws now s) = mapUpdate ws (gains k) (players s).
Proof.
  assert (players s = mapUpdate ws (gains 0) (players s)) as H0.
  { symmetry. apply mapUpdate_id. intros p. apply gains_zero. }
  unfold checkFoodCollisions.
  destruct (getPlayer ws s); [|now exists 0%nat].
  destruct (negb _); [now exists 0%nat|].
  destruct (segments _) as [|h t]; [now exists 0%nat|].
  destruct (foodLoop_spec rand (position h) ws now s (food (gameState s)) []
              (eq_sym (app_nil_r _)) eq_refl) as (Hpl & _).
  eexists. exact Hpl.
Qed.

Lemma gains_noWorse k p : noWorse p (gains k p).
Proof. unfold noWorse, gains. cbn. repeat split; auto; lia. Qed.

(** While the game runs and is not waiting, the status check leaves the
    session store alone. *)
Lemma checkGameStatus_players_running now s :
  isActive (gameState s) = true -> waitingForPlayers (gameState s) = false ->
  players (checkGameStatus rand now s) = players s.
Proof.
  intros Ha Hw. unfold checkGameStatus. rewrite Ha, Hw. cbn [negb andb].
  destruct (find _ _) as [[? w]|]; [reflexivity|].
  destruct (filter _ _) as [|[wws w] [|? ?]]; repeat case_if; reflexivity.
Qed.

Lemma movedPlayer_facts p pos rot now h rest :
  segments p = h :: rest ->
  let moved := setSegments (mkSegment pos :: rest) (setLastUpdate now p) in
  let turned := match rot with Some r => setRotation r moved | None => moved end in
  let q := updateSnakeSegments turned in
  id q = id p /\ lastUpdate q = now
  /\ rotation q = match rot with Some r => r | None => rotation p end
  /\ kills q = kills p /\ score q = score p
  /\ exists rest',
       segments q = mkSegment pos :: rest'
       /\ List.length rest'
          = (List.length rest + (if (0 <? growth p)%nat then 1 else 0))%nat.
Proof.
  intros Hs. cbv zeta.
  set (turned := match rot with
                 | Some r => setRotation r (setSegments (mkSegment pos :: rest)
                                              (setLastUpdate now p))
                 | None => setSegments (mkSegment pos :: rest) (setLastUpdate now p)
                 end).
  assert (id turned = id p /\ lastUpdate turned = now
          /\ rotation turned = match rot with Some r => r | None => rotation p end
          /\ kills turned = kills p /\ score turned = score p
          /\ growth turned = growth p
          /\ segments turned = mkSegment pos :: rest) as (T1 & T2 & T3 & T4 & T5 & T6 & T7).
  { unfold turned. destruct rot; cbn; repeat split. }
  clearbody turned.
  unfold updateSnakeSegments. cbn [id lastUpdate rotation kills score segments setSegments].
  pose proof (applyGrowth_segments turned) as Hseg.
  assert (id (applyGrowth turned) = id turned
          /\ lastUpdate (applyGrowth turned) = lastUpdate turned
          /\ rotation (applyGrowth turned) = rotation turned
          /\ kills (applyGrowth turned) = kills turned
          /\ score (applyGrowth turned) = score turned) as (A1 & A2 & A3 & A4 & A5).
  { unfold applyGrowth. destruct (_ && _); [|repeat split].
    destruct (nth_error _ _); repeat split. }
  rewrite A1, A2, A3, A4, A5, T1, T2, T3, T4, T5.
  do 5 (split; [reflexivity|]).
  rewrite Hseg, T6, T7.
  assert (mkSegment pos :: rest <> []) as Hne by discriminate.
  destruct (0 <? growth p)%nat.
  - cbn [app updateSegmentPositions]. eexists. split; [reflexivity|].
    rewrite rechain_length, length_app, (tailCopy_length Hne). reflexivity.
  - cbn [updateSegmentPositions]. eexists. split; [reflexivity|].
    rewrite rechain_length. lia.
Qed.

Lemma broadcastPlayerStates_outbox now s :
  size s <> 0%nat ->
  exists fd ri anns,
    outbox (broadcastPlayerStates now s)
    = outbox s
      ++ map (fun e => Send (fst e)
                         (MPlayerStates (map (fun e => viewOf (snd e)) (players s))
                            fd ri anns))
             (players s).
Proof.
  intros Hn. unfold broadcastPlayerStates.
  apply Nat.eqb_neq in Hn. rewrite Hn.
  repeat case_if; do 3 eexists; reflexivity.
Qed.

Lemma handleMovement_sender ws pos rot now s p h rest :
  isActive (gameState s) = true -> waitingForPlayers (gameState s) = false ->
  getPlayer ws s = Some p -> segments p = h :: rest ->
  let moved := setSegments (mkSegment pos :: rest) (setLastUpdate now p) in
  let turned := match rot with Some r => setRotation r moved | None => moved end in
  exists p',
    getPlayer ws (handleMovement rand ws pos rot now s) = Some p'
    /\ noWorse (updateSnakeSegments turned) p'.
Proof.
  intros Ha Hw Hp Hs. cbv zeta. unfold handleMovement.
  match goal with |- context [checkFoodCollisions rand ws now ?t] => set (s4 := t) end.
  assert (getPlayer ws s4
          = Some (updateSnakeSegments
                    match rot with
                    | Some r => setRotation r (setSegments (mkSegment pos :: rest)
                                                 (setLastUpdate now p))
                    | None => setSegments (mkSegment pos :: rest) (setLastUpdate now p)
                    end)) as Hq.
  { unfold s4. destruct rot; rewrite !getPlayer_updatePlayer_same, Hp; cbn; now rewrite Hs. }
  assert (flags s4 = flags s) as Hf4.
  { unfold s4. destruct rot; now rewrite !flags_updatePlayer. }
  clearbody s4.
  destruct (checkFoodCollisions_players ws now s4) as (k & Hfood).
  pose proof (flags_checkFoodCollisions rand ws now s4) as Hf5.
  set (s5 := checkFoodCollisions rand ws now s4) in *. clearbody s5.
  assert (getPlayer ws s5 = Some (gains k (updateSnakeSegments
                    match rot with
                    | Some r => setRotation r (setSegments (mkSegment pos :: rest)
                                                 (setLastUpdate now p))
                    | None => setSegments (mkSegment pos :: rest) (setLastUpdate now p)
                    end))) as Hq5.
  { unfold getPlayer in *. now rewrite Hfood, lookup_mapUpdate_same, Hq. }
  destruct (pass_checkCollisions ws now s5) as (Hent & _).
  destruct (passEntries_lookup ws Hent Hq5) as (p6 & Hq6 & _ & Hw6 & _).
  pose proof (flags_checkCollisions ws now s5) as Hf6.
  set (s6 := checkCollisions ws now s5) in *. clearbody s6.
  assert (isActive (gameState s6) = true /\ waitingForPlayers (gameState s6) = false)
    as (Ha6 & Hw6').
  { rewrite Hf5, Hf4 in Hf6. unfold flags in Hf6. injection Hf6. intros. split; congruence. }
  exists p6. split.
  - unfold getPlayer. rewrite players_broadcastPlayerStates.
    rewrite (checkGameStatus_players_running now s6 Ha6 Hw6'). exact Hq6.
  - eapply noWorse_trans; [apply gains_noWorse | exact Hw6].
Qed.

Lemma handleMovement_broadcast ws pos rot now s p' :
  getPlayer ws (handleMovement rand ws pos rot now s) = Some p' ->
  exists earlier fd ri anns,
    outbox (handleMovement rand ws pos rot now s)
    = earlier
      ++ map (fun e => Send (fst e)
                         (MPlayerStates
                            (map (fun e => viewOf (snd e))
                                 (players (handleMovement rand ws pos rot now s)))
                            fd ri anns))
             (players (handleMovement rand ws pos rot now s)).
Proof.
  unfold handleMovement.
  match goal with |- context [broadcastPlayerStates now ?t] => generalize t end.
  intros s7 Hp'.
  assert (size s7 <> 0%nat) as Hn.
  { unfold getPlayer in Hp'. rewrite players_broadcastPlayerStates in Hp'.
    unfold size. destruct (players s7); [discriminate | cbn; lia]. }
  destruct (broadcastPlayerStates_outbox now s7 Hn) as (fd & ri & anns & Ho).
  exists (outbox s7), fd, ri, anns.
  rewrite players_broadcastPlayerStates. exact Ho.
Qed.
End Movement.

(** X26. The server takes the client's word for the head. While the game
    is active and not waiting for players, a movement frame with a position
    from a live session with at least one segment leaves that session with
    its head at exactly the reported position (no bound or speed check),
    lastUpdate set to the time of the frame, the reported rotation (or the
    old one when none is given), one more segment when growth was pending,
    the same id, and kills and score that did not go down; and the handler
    ends by sending every session the same playerStates frame listing all
    sessions. *)
Theorem movement_frame_moves_the_head :
  forall (num : Type) (N : Number num) (rand : nat -> num) (s : Server num)
         (ws : Conn) (now : Z) (pos : Position num) (rot : option num)
         (p : PlayerState num) (h : SnakeSegment num) (rest : list (SnakeSegment num)),
    isActive (gameState s) = true ->
    waitingForPlayers (gameState s) = false ->
    getPlayer ws s = Some p ->
    alive p = true ->
    segments p = h :: rest ->
    let s' := ws_message rand ws (JsonData (mkMovement TyMovement (Some pos) rot)) now s in
    (exists p',
       getPlayer ws s' = Some p'
       /\ id p' = id p
       /\ lastUpdate p' = now
       /\ rotation p' = match rot with Some r => r | None => rotation p end
       /\ (exists rest',
             segments p' = mkSegment pos :: rest'
             /\ List.length rest'
                = (List.length rest + (if (0 <? growth p)%nat then 1 else 0))%nat)
       /\ (kills p <= kills p')%nat /\ (score p <= score p')%nat)
    /\ exists earlier fd ri anns,
         outbox s'
         = earlier
           ++ map (fun e => Send (fst e)
                              (MPlayerStates (map (fun e => viewOf (snd e)) (players s'))
                                 fd ri anns))
                  (players s').
Proof.
  intros num N rand s ws now pos rot p h rest Ha Hw Hp Hal Hs. cbv zeta.
  assert (ws_message rand ws (JsonData (mkMovement TyMovement (Some pos) rot)) now s
          = handleMovement rand ws pos rot now s) as E.
  { unfold ws_message. rewrite Ha, Hp, Hal. reflexivity. }
  rewrite E.
  destruct (handleMovement_sender rand ws pos rot now s Ha Hw Hp Hs)
    as (p' & Hp' & W1 & W2 & W3 & W4 & _ & W6 & W7 & _).
  destruct (movedPlayer_facts p pos rot now Hs)
    as (Q1 & Q2 & Q3 & Q4 & Q5 & rest' & Q6 & Q7).
  split.
  - exists p'. split; [exact Hp'|].
    repeat split; try congruence; try lia.
    exists rest'. split; [congruence | exact Q7].
  - exact (handleMovement_broadcast rand ws pos rot now s Hp').
Qed.

Lemma movement_frame_moves_the_head_witness :
  exists p',
    getPlayer M (ws_message halves M
                   (JsonData (mkMovement TyMovement
                                (Some (mkPosition 1300%float 900%float)) None))
                   30 duoServer) = Some p'
    /\ id p' = id soloPlayer
    /\ lastUpdate p' = 30
    /\ rotation p' = rotation soloPlayer
    /\ (exists rest',
          segments p' = mkSegment (mkPosition 1300%float 900%float) :: rest'
          /\ List.length rest'
             = (List.length (@nil (SnakeSegment float))
                + (if (0 <? growth soloPlayer)%nat then 1 else 0))%nat)
    /\ (kills soloPlayer <= kills p')%nat /\ (score soloPlayer <= score p')%nat.
Proof.
  apply (@movement_frame_moves_the_head float float_Number halves duoServer M 30
           (mkPosition 1300%float 900%float) None soloPlayer
           (mkSegment (mkPosition 1200%float 900%float)) []).
  - reflexivity.
  - reflexivity.
  - vm_compute. reflexivity.
  - reflexivity.
  - reflexivity.
Defined.

(** ** Reaping of inactive sessions *)

Section Reaping.
Context {num : Type} {N : Number num}.
Variable rand : nat -> num.
Variable randomUUID : nat -> string.
Implicit Types (s : Server num) (ws k : Conn) (now : Z) (p : PlayerState num)
               (m : list (Conn * PlayerState num)).

(** Not older than [limit] at time [now]: the negation of the test of the
    reaping loops. *)
Definition freshAt (limit now : Z) (e : Conn * PlayerState num) : Prop :=
  (now - lastUpdate (snd e) <= limit)%Z.

(** An entry after a (re)start: same connection and id; the record is
    untouched or stamped with the time of the call. *)
Definition stamped now (e e' : Conn * PlayerState num) : Prop :=
  fst e' = fst e /\ id (snd e') = id (snd e)
  /\ (snd e' = snd e \/ lastUpdate (snd e') = now).

Lemma stamped_refl now m : Forall2 (stamped now) m m.
Proof. induction m; constructor; auto. repeat split. now left. Qed.

Lemma stamped_trans now m1 m2 m3 :
  Forall2 (stamped now) m1 m2 -> Forall2 (stamped now) m2 m3 ->
  Forall2 (stamped now) m1 m3.
Proof.
  intros H. revert m3. induction H as [|e1 e2 l1 l2 (a1 & a2 & a3) _ IH];
    intros m3 H'; inversion H' as [|? e3 ? l3 (b1 & b2 & b3)]; subst; constructor; auto.
  repeat split; try congruence.
  destruct b3 as [-> | b3]; [exact a3 | now right].
Qed.

Lemma stamped_keys now m m' : Forall2 (stamped now) m m' -> map fst m' = map fst m.
Proof. induction 1 as [|? ? ? ? (a1 & _)]; cbn; congruence. Qed.

Lemma stamped_lookup now m m' k p :
  Forall2 (stamped now) m m' -> lookup k m = Some p ->
  exists p', lookup k m' = Some p' /\ stamped now (k, p) (k, p').
Proof.
  induction 1 as [|[k0 p0] [k1 p1] l l' (Hk & Hi & Hs) _ IH]; cbn; [discriminate|].
  cbn in Hk. subst k1. destruct (Nat.eqb k0 k) eqn:E.
  - apply Nat.eqb_eq in E. subst k0. intros [= ->]. exists p1.
    split; [reflexivity|]. repeat split; auto.
  - exact IH.
Qed.

Lemma stamped_fresh limit now m m' :
  (0 <= limit)%Z ->
  Forall2 (stamped now) m m' -> Forall (freshAt limit now) m ->
  Forall (freshAt limit now) m'.
Proof.
  intros Hl. induction 1 as [|e e' l l' (_ & _ & Hs) _ IH]; intros Hf;
    inversion Hf; subst; constructor; auto.
  unfold freshAt in *. destruct Hs as [-> | ->]; [assumption | lia].
Qed.

Lemma startNewRound_stamped now s :
  Forall2 (stamped now) (players s) (players (startNewRound rand now s)).
Proof.
  rewrite startNewRound_players.
  destruct (size s <? MIN_PLAYERS_TO_START)%nat; [apply stamped_refl|].
  destruct (gameOver (gameState s)).
  - eapply Forall2_weaken; [|apply resetAll_wasReset].
    intros e e' (Hk & j & He). unfold stamped. rewrite He. cbn.
    split; [exact Hk | split; [reflexivity | now right]].
  - eapply Forall2_weaken; [|apply respawnDead_wasRespawned].
    intros e e' (Hk & Hlive & Hdead). unfold stamped. destruct (alive (snd e)) eqn:A.
    + rewrite (Hlive eq_refl). split; [exact Hk | split; [reflexivity | now left]].
    + destruct (Hdead eq_refl) as (j & He). rewrite He. cbn.
      split; [exact Hk | split; [reflexivity | now right]].
Qed.

Lemma checkGameStatus_players now s :
  players (checkGameStatus rand now s) = players s
  \/ players (checkGameStatus rand now s) = players (startNewRound rand now s).
Proof.
  unfold checkGameStatus.
  case_if; [now left|]. case_if; [now right|]. case_if; [now left|].
  destruct (find _ _) as [[? w]|]; [now left|].
  destruct (filter _ _) as [|[wws w] [|? ?]]; repeat case_if; now left.
Qed.

Lemma checkGameStatus_stamped now s :
  Forall2 (stamped now) (players s) (players (checkGameStatus rand now s)).
Proof.
  destruct (checkGameStatus_players now s) as [-> | ->];
    [apply stamped_refl | apply startNewRound_stamped].
Qed.

Lemma lookup_filter (f : Conn * PlayerState num -> bool) m k p :
  lookup k m = Some p -> f (k, p) = true -> lookup k (filter f m) = Some p.
Proof.
  induction m as [|[k0 p0] rest IH]; cbn; [discriminate|].
  destruct (Nat.eqb k0 k) eqn:E.
  - apply Nat.eqb_eq in E. subst k0. intros [= ->] Hf. rewrite Hf. cbn.
    now rewrite Nat.eqb_refl.
  - intros Hl Hf. destruct (f (k0, p0)); cbn; [rewrite E|]; auto.
Qed.

(** *** The outbox only grows *)

Definition grows s s' : Prop := exists l, outbox s' = outbox s ++ l.

Lemma grows_refl s : grows s s.
Proof. exists []. now rewrite app_nil_r. Qed.

Lemma grows_trans s1 s2 s3 : grows s1 s2 -> grows s2 s3 -> grows s1 s3.
Proof. intros [l1 H1] [l2 H2]. exists (l1 ++ l2). now rewrite H2, H1, app_assoc. Qed.

Lemma grows_same s s' : outbox s' = outbox s -> grows s s'.
Proof. intros H. exists []. now rewrite app_nil_r. Qed.

Lemma grows_In s s' o : grows s s' -> In o (outbox s) -> In o (outbox s').
Proof. intros [l ->] H. apply in_or_app. now left. Qed.

Lemma grows_step s0 s s' : grows s s' -> grows s0 s -> grows s0 s'.
Proof. intros H1 H2. eapply grows_trans; eauto. Qed.

Lemma grows_send s ws msg : grows s (send ws msg s).
Proof. now eexists. Qed.

Lemma grows_sendAll s msg : grows s (sendAll msg s).
Proof. now eexists. Qed.

Lemma grows_broadcastAnnouncement s text ty dur now :
  grows s (broadcastAnnouncement text ty dur now s).
Proof. now eexists. Qed.

Lemma grows_broadcastPlayerStates s now : grows s (broadcastPlayerStates now s).
Proof.
  unfold broadcastPlayerStates. case_if; [apply grows_refl|].
  repeat case_if; now eexists.
Qed.

Ltac grows_step :=
  lazymatch goal with
  | H : grows ?a ?b |- grows ?a ?b => exact H
  | |- grows ?a ?a => apply grows_refl
  | |- grows _ (send _ _ ?t) => apply (@grows_step _ t); [apply grows_send|]
  | |- grows _ (sendAll _ ?t) => apply (@grows_step _ t); [apply grows_sendAll|]
  | |- grows _ (broadcastAnnouncement _ _ _ _ ?t) =>
      apply (@grows_step _ t); [apply grows_broadcastAnnouncement|]
  | |- grows _ (broadcastPlayerStates _ ?t) =>
      apply (@grows_step _ t); [apply grows_broadcastPlayerStates|]
  | |- grows _ (setTimeout _ _ _ ?t) => apply (@grows_step _ t); [now apply grows_same|]
  | |- grows _ (withGame _ ?t) => apply (@grows_step _ t); [now apply grows_same|]
  | |- grows _ (setRecentAnnouncements _ ?t) =>
      apply (@grows_step _ t); [now apply grows_same|]
  | |- grows _ (setPlayers _ ?t) => apply (@grows_step _ t); [now apply grows_same|]
  end.

Lemma grows_startNewRound s0 s now :
  grows s0 s -> grows s0 (startNewRound rand now s).
Proof.
  intros H. unfold startNewRound.
  destruct (size s <? MIN_PLAYERS_TO_START)%nat; [repeat grows_step|].
  repeat grows_step. cbn [gameState withGame].
  match goal with |- context [if ?c then _ else _] => destruct c end.
  - match goal with |- context [generateFood rand ?n ?t] =>
      pose proof (generateFood_frame rand n t) as Hg;
      destruct (generateFood rand n t) as [fd s1] end.
    cbn in Hg. destruct Hg as (_ & _ & _ & Ho & _).
    match goal with |- context [resetAll rand now ?ps ?t] =>
      pose proof (resetAll_spec rand now ps t) as Hr;
      destruct (resetAll rand now ps t) as [ps' s2] end.
    cbn in Hr. destruct Hr as (_ & _ & _ & _ & Ho' & _).
    eapply grows_trans; [exact H|]. apply grows_same. cbn. now rewrite Ho', Ho.
  - match goal with |- context [respawnDead rand now ?ps ?t] =>
      pose proof (respawnDead_spec rand now ps t) as Hr;
      destruct (respawnDead rand now ps t) as [ps' s2] end.
    cbn in Hr. destruct Hr as (_ & _ & _ & _ & Ho' & _).
    eapply grows_trans; [exact H|]. apply grows_same. cbn. now rewrite Ho'.
Qed.

Lemma grows_checkGameStatus s0 s now :
  grows s0 s -> grows s0 (checkGameStatus rand now s).
Proof.
  intros H. unfold checkGameStatus, declareWinner.
  repeat first
    [ grows_step
    | lazymatch goal with
      | |- grows _ (startNewRound _ _ _) => apply grows_startNewRound
      end
    | case_if
    | match goal with
      | |- context [match ?o with Some _ => _ | None => _ end] => destruct o as [[? ?]|]
      | |- context [match ?l with [] => _ | _ :: _ => _ end] => destruct l as [|[? ?] ?]
      end ].
Qed.

(** *** The tick *)

Lemma tick_players now s :
  exists s1,
    Forall2 (stamped now) (players s) (players s1)
    /\ Forall2 (stamped now)
         (filter (fun e => negb (isStale INACTIVE_TIMEOUT_MS now e)) (players s1))
         (players (tick rand now s))
    /\ grows (reap INACTIVE_TIMEOUT_MS now s1) (tick rand now s).
Proof.
  unfold tick. cbn [gameState withGame].
  match goal with |- context [reap _ _ ?t] => set (s1 := t) end.
  exists s1. split; [|split].
  - unfold s1. case_if; [|apply stamped_refl].
    match goal with |- context [startNewRound rand now ?t] =>
      exact (startNewRound_stamped now t) end.
  - clearbody s1. case_if; [|apply stamped_refl].
    match goal with |- context [checkGameStatus rand now ?t] =>
      pose proof (checkGameStatus_stamped now t) as H end.
    rewrite players_broadcastPlayerStates in H. exact H.
  - clearbody s1. case_if; [|apply grows_refl].
    apply grows_checkGameStatus, grows_broadcastPlayerStates.
Qed.
End Reaping.

(** X27. The once-a-second tick reaps inactive sessions. After a tick at
    time [now] no session is older than INACTIVE_TIMEOUT_MS. A session that
    was not older than that before the tick is still connected, with the
    same id. And whenever a connection of the store is gone after the tick,
    its socket was closed. *)
Theorem tick_reaps_inactive_sessions :
  forall (num : Type) (N : Number num) (rand : nat -> num) (s : Server num) (now : Z),
    let s' := tick rand now s in
    Forall (freshAt INACTIVE_TIMEOUT_MS now) (players s')
    /\ (forall k p,
          getPlayer k s = Some p -> freshAt INACTIVE_TIMEOUT_MS now (k, p) ->
          exists p', getPlayer k s' = Some p' /\ id p' = id p)
    /\ (forall k,
          In k (map fst (players s)) -> ~ In k (map fst (players s')) ->
          In (Close k) (outbox s')).
Proof.
  intros num N rand s now. cbv zeta.
  destruct (tick_players rand now s) as (s1 & H1 & H2 & H3).
  assert (forall e : Conn * PlayerState num,
            negb (isStale INACTIVE_TIMEOUT_MS now e) = true
            <-> freshAt INACTIVE_TIMEOUT_MS now e) as Hfresh.
  { intros e. unfold isStale, freshAt. rewrite negb_true_iff, Z.ltb_ge. reflexivity. }
  split; [|split].
  - eapply stamped_fresh; [unfold INACTIVE_TIMEOUT_MS; lia | exact H2 |].
    apply Forall_forall. intros e He. apply filter_In in He. now apply Hfresh.
  - intros k p Hp Hf.
    destruct (stamped_lookup k H1 Hp) as (p1 & Hp1 & _ & Hid1 & Hs1).
    assert (freshAt INACTIVE_TIMEOUT_MS now (k, p1)) as Hf1.
    { cbn in Hs1. destruct Hs1 as [-> | Hs1]; [exact Hf|].
      unfold freshAt, INACTIVE_TIMEOUT_MS. cbn. lia. }
    apply Hfresh in Hf1.
    assert (lookup k (filter (fun e => negb (isStale INACTIVE_TIMEOUT_MS now e))
                             (players s1)) = Some p1) as Hp1'
      by (apply lookup_filter; assumption).
    destruct (stamped_lookup k H2 Hp1') as (p2 & Hp2 & _ & Hid2 & _).
    exists p2. split; [exact Hp2|]. cbn in *. congruence.
  - intros k Hin Hout.
    rewrite <- (stamped_keys H1) in Hin. rewrite (stamped_keys H2) in Hout.
    apply in_map_iff in Hin. destruct Hin as ([k1 p1] & Hk & Hin). cbn in Hk. subst k1.
    destruct (isStale INACTIVE_TIMEOUT_MS now (k, p1)) eqn:E.
    + eapply grows_In; [exact H3|]. unfold reap. cbn.
      apply in_or_app. right. apply in_map_iff. exists (k, p1).
      split; [reflexivity|]. apply filter_In. now split.
    + exfalso. apply Hout. apply in_map_iff. exists (k, p1).
      split; [reflexivity|]. apply filter_In. split; [exact Hin|]. now rewrite E.
Qed.

(** ** Connecting and disconnecting *)

Section Opening.
Context {num : Type} {N : Number num}.
Variable rand : nat -> num.
Variable randomUUID : nat -> string.
Implicit Types (s : Server num) (ws k : Conn) (now : Z) (p : PlayerState num)
               (m : list (Conn * PlayerState num)).

Lemma lookup_mapSet_same ws p m : lookup ws (mapSet ws p m) = Some p.
Proof.
  induction m as [|[k q] rest IH]; cbn; [now rewrite Nat.eqb_refl|].
  destruct (Nat.eqb k ws) eqn:E; cbn; rewrite E; auto.
Qed.

Lemma lookup_mapDelete_same ws m : lookup ws (mapDelete ws m) = None.
Proof.
  induction m as [|[k q] rest IH]; cbn; [reflexivity|].
  destruct (Nat.eqb k ws) eqn:E; cbn; [exact IH | now rewrite E].
Qed.

Lemma lookup_mapDelete_other ws k m : k <> ws -> lookup k (mapDelete ws m) = lookup k m.
Proof.
  intros Hne. induction m as [|[k0 q] rest IH]; cbn; [reflexivity|].
  destruct (Nat.eqb k0 ws) eqn:E; cbn.
  - apply Nat.eqb_eq in E. subst k0.
    destruct (Nat.eqb ws k) eqn:E'; [apply Nat.eqb_eq in E'; congruence | exact IH].
  - destruct (Nat.eqb k0 k); auto.
Qed.

(** A session as [open] creates it, or as a restart leaves such a session. *)
Definition newcomer (pid : string) now p : Prop :=
  id p = pid /\ alive p = true /\ kills p = 0%nat /\ score p = 0%nat /\ growth p = 0%nat
  /\ lastUpdate p = now /\ rotation p = fromZ 0
  /\ exists j, segments p = [mkSegment (spawnAt (rand j) (rand (S j)))].

Lemma newcomer_startNewRound pid now s ws p :
  getPlayer ws s = Some p -> newcomer pid now p ->
  exists p', getPlayer ws (startNewRound rand now s) = Some p' /\ newcomer pid now p'.
Proof.
  intros Hp Hn. unfold getPlayer. rewrite startNewRound_players.
  destruct (size s <? MIN_PLAYERS_TO_START)%nat; [now exists p|].
  destruct Hn as (n1 & n2 & n3 & n4 & n5 & n6 & n7 & n8).
  destruct (gameOver (gameState s)).
  - match goal with |- context [resetAll rand now ?ps ?t] =>
      pose proof (resetAll_wasReset rand now ps t) as H end.
    revert H. generalize (fst (resetAll rand now (players s)
      (snd (generateFood rand FOOD_COUNT
              (withGame (fun g => setGameOver false (setRoundNumber (S (roundNumber g)) g))
                 (withGame (fun g => setRoundEndTime None
                                       (setWinner None (setIsActive true g))) s)))))).
    unfold getPlayer in Hp. revert Hp. generalize (players s).
    intros m Hp m' H. revert Hp.
    induction H as [|[k0 p0] [k1 p1] l l' (Hk & j & He) _ IH]; cbn; [discriminate|].
    cbn in Hk, He. subst k1. destruct (Nat.eqb k0 ws).
    + intros [= ->]. exists p1. split; [reflexivity|]. rewrite He. cbn.
      repeat split; auto. now exists j.
    + exact IH.
  - match goal with |- context [respawnDead rand now ?ps ?t] =>
      pose proof (respawnDead_wasRespawned rand now ps t) as H end.
    revert H. generalize (fst (respawnDead rand now (players s)
      (withGame (fun g => setRoundEndTime None (setWinner None (setIsActive true g))) s))).
    unfold getPlayer in Hp. revert Hp. generalize (players s).
    intros m Hp m' H. revert Hp.
    induction H as [|[k0 p0] [k1 p1] l l' (Hk & Hlive & _) _ IH]; cbn; [discriminate|].
    cbn in Hk, Hlive. subst k1. destruct (Nat.eqb k0 ws).
    + intros [= ->]. exists p1. split; [reflexivity|]. rewrite (Hlive n2).
      repeat split; auto.
    + exact IH.
Qed.

Lemma ws_open_core ws now s :
  exists s3,
    ws_open rand randomUUID ws now s
    = (let s4 := broadcastPlayerStates now s3 in
       if waitingForPlayers (gameState s4) && (MIN_PLAYERS_TO_START <=? size s4)%nat
       then startNewRound rand now (withGame (setWaitingForPlayers false) s4)
       else s4)
    /\ players s3
       = mapSet ws (mkPlayer (randomUUID (uuidCalls s))
                      [mkSegment (spawnAt (rand (randomCalls s)) (rand (S (randomCalls s))))]
                      (fromZ 0) true now 0 0 0)
           (filter (fun e => negb (isStale 30000 now e)) (players s))
    /\ uuidCalls s3 = S (uuidCalls s)
    /\ exists needed,
         outbox s3
         = outbox s ++ map (fun e => Close (fst e)) (filter (isStale 30000 now) (players s))
           ++ [Send ws (MConnected (randomUUID (uuidCalls s)) (roundNumber (gameState s))
                          (serverTime (gameState s)) (waitingForPlayers (gameState s))
                          needed)].
Proof.
  unfold ws_open.
  match goal with |- context [spawnPosition rand ?t] =>
    pose proof (spawnPosition_spawnAt rand t) as Hpos;
    pose proof (spawnPosition_frame rand t) as Hf;
    destruct (spawnPosition rand t) as [pos s1] end.
  cbn in Hpos, Hf. destruct Hf as (Hp & Hu & Hg & Ho & _). subst pos.
  eexists. split; [reflexivity|].
  split; [|split].
  - cbn. rewrite reap_players, Hp. reflexivity.
  - cbn. exact Hu.
  - eexists. unfold reap. cbn. rewrite Ho, Hp, Hg, <- app_assoc. reflexivity.
Qed.
End Opening.

(** X28. Opening a connection. After [open] the session stored under the
    new connection carries the id just drawn, is alive with no kills, score
    or pending growth, heading 0, one segment at a spawn position and the
    time of the call as lastUpdate, also when the call starts a round or a
    new game; exactly one id was drawn; no session older than 30000 ms is
    left in the store; and the frames sent are, in order, nothing but the
    closing of the stale sockets, then the connected frame for the new
    client, then the rest. *)
Theorem open_adds_a_fresh_session :
  forall (num : Type) (N : Number num) (rand : nat -> num) (randomUUID : nat -> string)
         (s : Server num) (ws : Conn) (now : Z),
    let s' := ws_open rand randomUUID ws now s in
    let pid := randomUUID (uuidCalls s) in
    (exists p, getPlayer ws s' = Some p /\ newcomer rand pid now p)
    /\ uuidCalls s' = S (uuidCalls s)
    /\ Forall (freshAt 30000 now) (players s')
    /\ exists needed later,
         outbox s'
         = outbox s
           ++ map (fun e => Close (fst e)) (filter (isStale 30000 now) (players s))
           ++ [Send ws (MConnected pid (roundNumber (gameState s))
                          (serverTime (gameState s)) (waitingForPlayers (gameState s))
                          needed)]
           ++ later.
Proof.
  intros num N rand randomUUID s ws now. cbv zeta.
  destruct (ws_open_core rand randomUUID ws now s) as (s3 & E & Hp3 & Hu3 & needed & Ho3).
  rewrite E. clear E. cbv zeta.
  set (newp := mkPlayer (randomUUID (uuidCalls s))
                 [mkSegment (spawnAt (rand (randomCalls s)) (rand (S (randomCalls s))))]
                 (fromZ 0) true now 0 0 0) in *.
  assert (newcomer rand (randomUUID (uuidCalls s)) now newp) as Hnew.
  { unfold newcomer, newp. cbn. repeat split. now exists (randomCalls s). }
  pose proof (players_broadcastPlayerStates now s3) as Hp4.
  assert (keeps s3 (broadcastPlayerStates now s3)) as K4
    by apply keeps_broadcastPlayerStates, keeps_refl.
  pose proof (grows_broadcastPlayerStates s3 now) as G4.
  set (s4 := broadcastPlayerStates now s3) in *. clearbody s4.
  assert (getPlayer ws s4 = Some newp) as Hl4.
  { unfold getPlayer. rewrite Hp4, Hp3. apply lookup_mapSet_same. }
  assert (Forall (freshAt 30000 now) (players s4)) as Hf4.
  { rewrite Hp4, Hp3. apply mapSet_Forall.
    - unfold freshAt, newp. cbn. lia.
    - intros k. unfold freshAt, newp. cbn. lia.
    - apply Forall_forall. intros e He. apply filter_In in He. destruct He as [_ He].
      unfold isStale, freshAt in *. apply negb_true_iff, Z.ltb_ge in He. exact He. }
  assert (exists later,
            outbox s4
            = outbox s
              ++ map (fun e => Close (fst e)) (filter (isStale 30000 now) (players s))
              ++ [Send ws (MConnected (randomUUID (uuidCalls s)) (roundNumber (gameState s))
                             (serverTime (gameState s)) (waitingForPlayers (gameState s))
                             needed)]
              ++ later) as Ho4.
  { destruct G4 as [l Hl]. exists l. rewrite Hl, Ho3. now rewrite <- !app_assoc. }
  destruct (waitingForPlayers (gameState s4) && (MIN_PLAYERS_TO_START <=? size s4)%nat).
  - set (s5 := withGame (setWaitingForPlayers false) s4) in *.
    split; [|split; [|split]].
    + apply newcomer_startNewRound with (p := newp); [exact Hl4 | exact Hnew].
    + assert (keeps s4 (startNewRound rand now s5)) as K5
        by (apply keeps_startNewRound, keeps_withGame, keeps_refl).
      destruct K4 as [_ K4], K5 as [_ K5]. congruence.
    + eapply stamped_fresh; [lia | apply startNewRound_stamped | exact Hf4].
    + assert (grows s4 (startNewRound rand now s5)) as [l Hl]
        by (apply grows_startNewRound; now apply grows_same).
      destruct Ho4 as [later Ho4]. exists needed, (later ++ l).
      rewrite Hl, Ho4. now rewrite <- !app_assoc.
  - split; [|split; [|split]].
    + now exists newp.
    + destruct K4 as [_ K4]. congruence.
    + exact Hf4.
    + destruct Ho4 as [later Ho4]. now exists needed, later.
Qed.

Section Closing.
Context {num : Type} {N : Number num}.
Implicit Types (s : Server num) (ws k : Conn) (now : Z).

Lemma broadcastPlayerStates_timers now s :
  timers (broadcastPlayerStates now s) = timers s
  \/ timers (broadcastPlayerStates now s)
     = timers s ++ [mkTimer (now + 100) CbCheckGameStatus].
Proof.
  unfold broadcastPlayerStates. case_if; [now left|].
  match goal with |- context [if ?c then setTimeout _ _ _ ?a else ?b] =>
    destruct c end; [right | left]; case_if; reflexivity.
Qed.

Lemma broadcastPlayerStates_frames now s :
  exists frames,
    outbox (broadcastPlayerStates now s) = outbox s ++ frames
    /\ Forall (fun o => exists k ps fd ri anns,
                          o = Send k (MPlayerStates ps fd ri anns)
                          /\ In k (map fst (players s))) frames.
Proof.
  destruct (Nat.eq_dec (size s) 0) as [Hz | Hn].
  - exists []. unfold broadcastPlayerStates. apply Nat.eqb_eq in Hz. rewrite Hz.
    split; [now rewrite app_nil_r | constructor].
  - destruct (broadcastPlayerStates_outbox now s Hn) as (fd & ri & anns & Ho).
    eexists. split; [exact Ho|].
    apply Forall_forall. intros o Hin. apply in_map_iff in Hin.
    destruct Hin as (e & <- & He). do 5 eexists. split; [reflexivity|].
    apply in_map. exact He.
Qed.
End Closing.

(** X29. Closing a connection removes that session and nothing else: the
    other sessions are left as they are, the round number and the flags
    isActive, waitingForPlayers and gameOver do not change at once (pausing
    the game is left to the status check scheduled 100 ms later, the last
    timer added), and the only frames sent are playerStates frames to the
    connections that remain. *)
Theorem close_removes_only_that_session :
  forall (num : Type) (s : Server num) (ws : Conn) (now : Z),
    let s' := ws_close ws now s in
    getPlayer ws s' = None
    /\ (forall k, k <> ws -> getPlayer k s' = getPlayer k s)
    /\ roundNumber (gameState s') = roundNumber (gameState s)
    /\ isActive (gameState s') = isActive (gameState s)
    /\ waitingForPlayers (gameState s') = waitingForPlayers (gameState s)
    /\ gameOver (gameState s') = gameOver (gameState s)
    /\ (exists early, timers s' = timers s ++ early ++ [mkTimer (now + 100) CbCheckGameStatus])
    /\ exists frames,
         outbox s' = outbox s ++ frames
         /\ Forall (fun o => exists k ps fd ri anns,
                               o = Send k (MPlayerStates ps fd ri anns) /\ k <> ws) frames.
Proof.
  intros num s ws now. cbv zeta. unfold ws_close.
  set (s1 := setPlayers (mapDelete ws (players s)) s).
  assert (players (setTimeout CbCheckGameStatus 100 now (broadcastPlayerStates now s1))
          = mapDelete ws (players s)) as Hp
    by (cbn; now rewrite players_broadcastPlayerStates).
  unfold getPlayer. rewrite Hp.
  split; [apply lookup_mapDelete_same|].
  split; [intros k Hk; now apply lookup_mapDelete_other|].
  assert (gameState (setTimeout CbCheckGameStatus 100 now (broadcastPlayerStates now s1))
          = gameState s
          \/ gameState (setTimeout CbCheckGameStatus 100 now (broadcastPlayerStates now s1))
             = setServerTime now (gameState s)) as Hg
    by (cbn; exact (gameState_broadcastPlayerStates now s1)).
  do 4 (split; [destruct Hg as [-> | ->]; reflexivity|]).
  split.
  - cbn. destruct (broadcastPlayerStates_timers now s1) as [-> | ->].
    + now exists [].
    + eexists [_]. cbn. now rewrite <- app_assoc.
  - destruct (broadcastPlayerStates_frames now s1) as (frames & Ho & Hf).
    exists frames. split; [exact Ho|].
    eapply Forall_impl; [|exact Hf]. intros o (k & ps & fd & ri & anns & -> & Hin).
    exists k, ps, fd, ri, anns. split; [reflexivity|].
    cbn in Hin. unfold mapDelete in Hin. apply in_map_iff in Hin.
    destruct Hin as ([k0 p0] & Hk & Hin). apply filter_In in Hin. destruct Hin as [_ Hin].
    cbn in Hk, Hin. subst k0. now apply negb_true_iff, Nat.eqb_neq in Hin.
Qed.

(** ** Positions drawn at random, over the reals *)

Section RealPositions.
Local Open Scope R_scope.
Variable rand : nat -> R.
Hypothesis rand_unit : forall i, 0 <= rand i < 1.





End RealPositions.


